(** * Lane runner: the simulation core of [src/index.tsx]

    A shallow embedding of the game logic of the [App] component: the
    tuning constants, the world objects, the track generator
    ([spawnObject], [spawnSegment], [initWorld]), the keyboard handler
    ([handleKey]), the per-frame update ([animate]) and [startGame],
    followed by the properties proved about them.

    Modelling conventions.
    - A JavaScript [number] that holds a quantity (positions, speeds,
      timers, the score) is an exact rational [Q]; a [number] that only
      ever holds an integer (lane indices, ids, the coin counter) is a
      [Z].  Rounding of IEEE doubles is not modelled, except in the
      module [Double], which runs the part of a frame that decides the
      track in double precision.
    - [Math.random] is a stream [rng : nat -> Q] together with the
      number of draws already taken.  The stream lists the draws of the
      track generator; those the [SoundController] takes for its noise
      buffer are its own.
    - A frame that would throw a [TypeError] or produce a [NaN] yields
      [None]; every frame of a reachable game yields a game.
    - three.js meshes, the camera, the pursuer's rig and the pose
      animation are presentation and carry no game logic; they are left
      out.  Calls into the [SoundController] are recorded in a log.
    - React state ([useState]) is the record [UI.State]; a setter takes
      effect at once, which yields the value React commits at its next
      render.  *)

From Stdlib Require Import QArith Qround Qminmax Qabs Qpower ZArith List String Bool.
From Stdlib Require Import Lia Lqa.
Import ListNotations.

Local Open Scope Q_scope.

(** ** Configuration *)

Definition LANES : list Q := [-2.5; 0; 2.5].
Definition LANE_SPEED : Q := 25.
Definition GRAVITY : Q := 70.
Definition JUMP_FORCE : Q := 22.
Definition RUN_SPEED_START : Q := 20.
Definition MAX_SPEED : Q := 60.
Definition SPEED_INC : Q := 0.8.
Definition SLIDE_DURATION : Q := 0.8.
Definition SHIELD_DURATION : Q := 5.0.

(** ** Tuning *)

Definition HIT_Z_MIN : Q := -0.7.
Definition HIT_Z_MAX : Q := 0.4.
Definition HIT_LANE_DIST : Q := 0.6.
Definition JUMP_CLEARANCE : Q := 0.4.

(** ** Comparisons on numbers *)

Definition Qltb (x y : Q) : bool := negb (Qle_bool y x).
Definition Qleb (x y : Q) : bool := Qle_bool x y.

Infix "<?" := Qltb : Q_scope.
Infix "<=?" := Qleb : Q_scope.

(** [LANES[i]]: [None] stands for JavaScript's [undefined]. *)
Definition LANES_at (i : Z) : option Q :=
  if (i <? 0)%Z then None else nth_error LANES (Z.to_nat i).

(** [THREE.MathUtils.lerp], as three.js defines it. *)
Definition lerp (x y t : Q) : Q := (1 - t) * x + t * y.

(** ** Types *)

Inductive GameState := START | PLAYING | GAMEOVER.
Inductive ObstacleType := JUMP | SLIDE | FULL.
Inductive ObjType := OBSTACLE | COIN | SHIELD.

Module Obj.

Record GameObj := mk {
  id : Z;
  type : ObjType;
  subtype : option ObstacleType;
  lane : Z;
  z : Q;
  active : bool
}.

Definition set_z (v : Q) (o : GameObj) : GameObj :=
  mk (id o) (type o) (subtype o) (lane o) v (active o).

Definition set_active (v : bool) (o : GameObj) : GameObj :=
  mk (id o) (type o) (subtype o) (lane o) (z o) v.

End Obj.
Abbreviation GameObj := Obj.GameObj.

(** The calls made on [soundRef.current], in the order they happen. *)
Inductive Sound :=
  | playJump | playSlide | playCoin | playShield | playCrash
  | playGameOver | startBGM | stopBGM.

(** [gameData.current] *)
Record GameData := {
  score : Q;
  speed : Q;
  lane : Z;
  xPos : Q;
  yPos : Q;
  velocityY : Q;
  isJumping : bool;
  isSliding : bool;
  slideTimer : Q;
  shieldTimer : Q;
  objects : list GameObj;
  segments : list Q;
  nextSegmentZ : Q;
  objIdCounter : Z
}.

Definition set_score (v : Q) (g : GameData) : GameData :=
  {| score := v; speed := speed g; lane := lane g; xPos := xPos g;
     yPos := yPos g; velocityY := velocityY g; isJumping := isJumping g;
     isSliding := isSliding g; slideTimer := slideTimer g;
     shieldTimer := shieldTimer g; objects := objects g;
     segments := segments g; nextSegmentZ := nextSegmentZ g;
     objIdCounter := objIdCounter g |}.

Definition set_speed (v : Q) (g : GameData) : GameData :=
  {| score := score g; speed := v; lane := lane g; xPos := xPos g;
     yPos := yPos g; velocityY := velocityY g; isJumping := isJumping g;
     isSliding := isSliding g; slideTimer := slideTimer g;
     shieldTimer := shieldTimer g; objects := objects g;
     segments := segments g; nextSegmentZ := nextSegmentZ g;
     objIdCounter := objIdCounter g |}.

Definition set_lane (v : Z) (g : GameData) : GameData :=
  {| score := score g; speed := speed g; lane := v; xPos := xPos g;
     yPos := yPos g; velocityY := velocityY g; isJumping := isJumping g;
     isSliding := isSliding g; slideTimer := slideTimer g;
     shieldTimer := shieldTimer g; objects := objects g;
     segments := segments g; nextSegmentZ := nextSegmentZ g;
     objIdCounter := objIdCounter g |}.

Definition set_xPos (v : Q) (g : GameData) : GameData :=
  {| score := score g; speed := speed g; lane := lane g; xPos := v;
     yPos := yPos g; velocityY := velocityY g; isJumping := isJumping g;
     isSliding := isSliding g; slideTimer := slideTimer g;
     shieldTimer := shieldTimer g; objects := objects g;
     segments := segments g; nextSegmentZ := nextSegmentZ g;
     objIdCounter := objIdCounter g |}.

Definition set_yPos (v : Q) (g : GameData) : GameData :=
  {| score := score g; speed := speed g; lane := lane g; xPos := xPos g;
     yPos := v; velocityY := velocityY g; isJumping := isJumping g;
     isSliding := isSliding g; slideTimer := slideTimer g;
     shieldTimer := shieldTimer g; objects := objects g;
     segments := segments g; nextSegmentZ := nextSegmentZ g;
     objIdCounter := objIdCounter g |}.

Definition set_velocityY (v : Q) (g : GameData) : GameData :=
  {| score := score g; speed := speed g; lane := lane g; xPos := xPos g;
     yPos := yPos g; velocityY := v; isJumping := isJumping g;
     isSliding := isSliding g; slideTimer := slideTimer g;
     shieldTimer := shieldTimer g; objects := objects g;
     segments := segments g; nextSegmentZ := nextSegmentZ g;
     objIdCounter := objIdCounter g |}.

Definition set_isJumping (v : bool) (g : GameData) : GameData :=
  {| score := score g; speed := speed g; lane := lane g; xPos := xPos g;
     yPos := yPos g; velocityY := velocityY g; isJumping := v;
     isSliding := isSliding g; slideTimer := slideTimer g;
     shieldTimer := shieldTimer g; objects := objects g;
     segments := segments g; nextSegmentZ := nextSegmentZ g;
     objIdCounter := objIdCounter g |}.

Definition set_isSliding (v : bool) (g : GameData) : GameData :=
  {| score := score g; speed := speed g; lane := lane g; xPos := xPos g;
     yPos := yPos g; velocityY := velocityY g; isJumping := isJumping g;
     isSliding := v; slideTimer := slideTimer g;
     shieldTimer := shieldTimer g; objects := objects g;
     segments := segments g; nextSegmentZ := nextSegmentZ g;
     objIdCounter := objIdCounter g |}.

Definition set_slideTimer (v : Q) (g : GameData) : GameData :=
  {| score := score g; speed := speed g; lane := lane g; xPos := xPos g;
     yPos := yPos g; velocityY := velocityY g; isJumping := isJumping g;
     isSliding := isSliding g; slideTimer := v;
     shieldTimer := shieldTimer g; objects := objects g;
     segments := segments g; nextSegmentZ := nextSegmentZ g;
     objIdCounter := objIdCounter g |}.

Definition set_shieldTimer (v : Q) (g : GameData) : GameData :=
  {| score := score g; speed := speed g; lane := lane g; xPos := xPos g;
     yPos := yPos g; velocityY := velocityY g; isJumping := isJumping g;
     isSliding := isSliding g; slideTimer := slideTimer g;
     shieldTimer := v; objects := objects g; segments := segments g;
     nextSegmentZ := nextSegmentZ g; objIdCounter := objIdCounter g |}.

Definition set_objects (v : list GameObj) (g : GameData) : GameData :=
  {| score := score g; speed := speed g; lane := lane g; xPos := xPos g;
     yPos := yPos g; velocityY := velocityY g; isJumping := isJumping g;
     isSliding := isSliding g; slideTimer := slideTimer g;
     shieldTimer := shieldTimer g; objects := v; segments := segments g;
     nextSegmentZ := nextSegmentZ g; objIdCounter := objIdCounter g |}.

Definition set_segments (v : list Q) (g : GameData) : GameData :=
  {| score := score g; speed := speed g; lane := lane g; xPos := xPos g;
     yPos := yPos g; velocityY := velocityY g; isJumping := isJumping g;
     isSliding := isSliding g; slideTimer := slideTimer g;
     shieldTimer := shieldTimer g; objects := objects g; segments := v;
     nextSegmentZ := nextSegmentZ g; objIdCounter := objIdCounter g |}.

Definition set_nextSegmentZ (v : Q) (g : GameData) : GameData :=
  {| score := score g; speed := speed g; lane := lane g; xPos := xPos g;
     yPos := yPos g; velocityY := velocityY g; isJumping := isJumping g;
     isSliding := isSliding g; slideTimer := slideTimer g;
     shieldTimer := shieldTimer g; objects := objects g;
     segments := segments g; nextSegmentZ := v;
     objIdCounter := objIdCounter g |}.

Definition set_objIdCounter (v : Z) (g : GameData) : GameData :=
  {| score := score g; speed := speed g; lane := lane g; xPos := xPos g;
     yPos := yPos g; velocityY := velocityY g; isJumping := isJumping g;
     isSliding := isSliding g; slideTimer := slideTimer g;
     shieldTimer := shieldTimer g; objects := objects g;
     segments := segments g; nextSegmentZ := nextSegmentZ g;
     objIdCounter := v |}.

(** The component's [useState] cells. *)
Module UI.

Record State := mk {
  gameState : GameState;
  score : Z;
  coins : Z;
  hasShield : bool;
  deathReason : string
}.

End UI.

(** Everything the component owns. *)
Record App := {
  ui : UI.State;
  gameStateRef : GameState;
  gameData : GameData;
  soundLog : list Sound;
  rng : nat -> Q;
  rngCalls : nat
}.

Definition set_ui (v : UI.State) (a : App) : App :=
  {| ui := v; gameStateRef := gameStateRef a; gameData := gameData a;
     soundLog := soundLog a; rng := rng a; rngCalls := rngCalls a |}.

Definition set_gameStateRef (v : GameState) (a : App) : App :=
  {| ui := ui a; gameStateRef := v; gameData := gameData a;
     soundLog := soundLog a; rng := rng a; rngCalls := rngCalls a |}.

Definition set_gameData (v : GameData) (a : App) : App :=
  {| ui := ui a; gameStateRef := gameStateRef a; gameData := v;
     soundLog := soundLog a; rng := rng a; rngCalls := rngCalls a |}.

Definition set_soundLog (v : list Sound) (a : App) : App :=
  {| ui := ui a; gameStateRef := gameStateRef a; gameData := gameData a;
     soundLog := v; rng := rng a; rngCalls := rngCalls a |}.

Definition set_rngCalls (v : nat) (a : App) : App :=
  {| ui := ui a; gameStateRef := gameStateRef a; gameData := gameData a;
     soundLog := soundLog a; rng := rng a; rngCalls := v |}.

(** [gd.f = ...]: an assignment to a field of [gameData.current]. *)
Definition gd (f : GameData -> GameData) (a : App) : App :=
  set_gameData (f (gameData a)) a.

Definition setGameState (s : GameState) (a : App) : App :=
  set_ui (UI.mk s (UI.score (ui a)) (UI.coins (ui a)) (UI.hasShield (ui a))
            (UI.deathReason (ui a))) a.

Definition setScore (n : Z) (a : App) : App :=
  set_ui (UI.mk (UI.gameState (ui a)) n (UI.coins (ui a))
            (UI.hasShield (ui a)) (UI.deathReason (ui a))) a.

Definition setCoins (f : Z -> Z) (a : App) : App :=
  set_ui (UI.mk (UI.gameState (ui a)) (UI.score (ui a)) (f (UI.coins (ui a)))
            (UI.hasShield (ui a)) (UI.deathReason (ui a))) a.

Definition setHasShield (b : bool) (a : App) : App :=
  set_ui (UI.mk (UI.gameState (ui a)) (UI.score (ui a)) (UI.coins (ui a)) b
            (UI.deathReason (ui a))) a.

Definition setDeathReason (s : string) (a : App) : App :=
  set_ui (UI.mk (UI.gameState (ui a)) (UI.score (ui a)) (UI.coins (ui a))
            (UI.hasShield (ui a)) s) a.

Definition sound (s : Sound) (a : App) : App :=
  set_soundLog (soundLog a ++ [s]) a.

(** [Math.random()] *)
Definition random (a : App) : Q * App :=
  (rng a (rngCalls a), set_rngCalls (S (rngCalls a)) a).

(** [Math.floor(Math.random() * 3)] *)
Definition randomLane (a : App) : Z * App :=
  let '(u, a) := random a in (Qfloor (u * 3), a).

(** ** Track generator *)

Definition spawnObject (ty : ObjType) (l : Z) (zv : Q)
    (st : option ObstacleType) (a : App) : App :=
  let g := gameData a in
  let o := Obj.mk (objIdCounter g) ty st l zv true in
  gd (fun g => set_objects (objects g ++ [o])
                 (set_objIdCounter (objIdCounter g + 1)%Z g)) a.

(** The subtype of a lone obstacle: the second draw is only taken when
    the first one does not exceed 0.6. *)
Definition randomSubtype (a : App) : ObstacleType * App :=
  let '(u, a) := random a in
  if 0.6 <? u then (FULL, a)
  else
    let '(u', a) := random a in
    if 0.5 <? u' then (JUMP, a) else (SLIDE, a).

Definition spawnObstacles (zLoc : Q) (a : App) : App :=
  let '(roll, a) := random a in
  if roll <? 0.3 then
    let '(l, a) := randomLane a in
    let '(t, a) := randomSubtype a in
    spawnObject OBSTACLE l zLoc (Some t) a
  else if roll <? 0.5 then
    let '(safe, a) := randomLane a in
    fold_left
      (fun a l =>
         if negb (l =? safe)%Z then spawnObject OBSTACLE l zLoc (Some FULL) a
         else a)
      [0; 1; 2]%Z a
  else if roll <? 0.6 then
    fold_left (fun a l => spawnObject OBSTACLE l zLoc (Some JUMP) a)
      [0; 1; 2]%Z a
  else a.

Definition spawnPickup (zLoc : Q) (a : App) : App :=
  let '(p, a) := random a in
  if p <? 0.5 then
    let '(l, a) := randomLane a in
    let busy :=
      existsb (fun o => Qeq_bool (Obj.z o) zLoc && (Obj.lane o =? l)%Z)
        (objects (gameData a)) in
    if negb busy then
      let '(s, a) := random a in
      if s <? 0.05 then spawnObject SHIELD l zLoc None a
      else spawnObject COIN l zLoc None a
    else a
  else a.

Definition spawnSegment (zPos : Q) (a : App) : App :=
  let a := gd (fun g => set_segments (segments g ++ [zPos]) g) a in
  if zPos <? -10 then
    let zLoc := zPos in
    spawnPickup zLoc (spawnObstacles zLoc a)
  else a.

(** A bound on the number of rounds of a loop that runs while a
    position is above -160 and lowers it by 20 each round.  The two
    [while] loops of the source are recursions on this bound; the
    properties [initLoop_exit], [extendLoop_spec] and
    [extendTrack_unroll] show that they stop because their test fails,
    never because the bound is used up. *)
Definition rounds (zv : Q) : nat := Z.to_nat (Qceiling (zv + 160)).

Fixpoint initLoop (n : nat) (a : App) : App :=
  match n with
  | O => a
  | S n =>
      let zv := nextSegmentZ (gameData a) in
      if -160 <? zv then
        let a := spawnSegment zv a in
        initLoop n (gd (set_nextSegmentZ (nextSegmentZ (gameData a) - 20)) a)
      else a
  end.

Definition initWorld (a : App) : App :=
  let a := gd (set_objects []) a in
  let a := gd (set_segments []) a in
  let a := gd (set_nextSegmentZ 80) a in
  initLoop (rounds (nextSegmentZ (gameData a))) a.

(** ** Controls *)

Definition handleKey (key : string) (a : App) : App :=
  match gameStateRef a with
  | PLAYING =>
      let g := gameData a in
      if String.eqb key "ArrowLeft" then
        if (0 <? lane g)%Z then gd (set_lane (lane g - 1)%Z) a else a
      else if String.eqb key "ArrowRight" then
        if (lane g <? 2)%Z then gd (set_lane (lane g + 1)%Z) a else a
      else if String.eqb key "ArrowUp" then
        if negb (isJumping g) && negb (isSliding g) then
          sound playJump
            (gd (set_isJumping true) (gd (set_velocityY JUMP_FORCE) a))
        else a
      else if String.eqb key "ArrowDown" then
        if isJumping g then gd (set_velocityY (- GRAVITY * 0.5)) a
        else if negb (isSliding g) then
          sound playSlide
            (gd (set_slideTimer SLIDE_DURATION) (gd (set_isSliding true) a))
        else a
      else a
  | _ => a
  end.

(** ** The frame loop *)

(** The playing branch of [animate] is cut into its sections, named
    after the comments that head them in the source. *)

Definition updateSpeedAndScore (delta : Q) (a : App) : App :=
  let a := gd (fun g => set_speed (Qmin (speed g + SPEED_INC * delta) MAX_SPEED) g) a in
  let a := gd (fun g => set_score (score g + speed g * delta) g) a in
  setScore (Qfloor (score (gameData a))) a.

Definition updateShield (delta : Q) (a : App) : App :=
  if 0 <? shieldTimer (gameData a) then
    let a := gd (fun g => set_shieldTimer (shieldTimer g - delta) g) a in
    if shieldTimer (gameData a) <=? 0 then setHasShield false a else a
  else a.

(** Player Move.  [None]: [LANES[gd.lane]] is [undefined], the lateral
    position would become [NaN], which the embedding has no value for. *)
Definition playerMove (delta : Q) (a : App) : option App :=
  match LANES_at (lane (gameData a)) with
  | None => None
  | Some targetX =>
      let a := gd (fun g => set_xPos (lerp (xPos g) targetX (delta * LANE_SPEED)) g) a in
      let g := gameData a in
      Some
        (if isJumping g then
           let a := gd (fun g => set_yPos (yPos g + velocityY g * delta) g) a in
           let a := gd (fun g => set_velocityY (velocityY g - GRAVITY * delta) g) a in
           if yPos (gameData a) <=? 0 then
             gd (set_velocityY 0) (gd (set_isJumping false) (gd (set_yPos 0) a))
           else a
         else if isSliding g then
           let a := gd (fun g => set_slideTimer (slideTimer g - delta) g) a in
           let a := gd (set_yPos 0) a in
           if slideTimer (gameData a) <=? 0 then gd (set_isSliding false) a
           else a
         else gd (set_yPos 0) a)
  end.

(** World Move: every segment advances by [moveZ]. *)
Definition worldMove (moveZ : Q) (a : App) : App :=
  gd (fun g => set_segments (map (fun s => s + moveZ) (segments g)) g) a.

(** [l[l.length - 1]] *)
Definition lastOf (l : list Q) : option Q :=
  match rev l with
  | [] => None
  | s :: _ => Some s
  end.

Definition lastSegment (a : App) : option Q := lastOf (segments (gameData a)).

Fixpoint extendLoop (n : nat) (a : App) : App :=
  match n with
  | O => a
  | S n =>
      match lastSegment a with
      | Some zv =>
          if -160 <? zv then extendLoop n (spawnSegment (zv - 20) a) else a
      | None => a
      end
  end.

(** Infinite Bridge: drop the first segment once it is past 80, then
    add segments while the last one is nearer than -160.  [None]: the
    segment array is empty where the code reads [.position] of its first
    or of its last element, which throws a [TypeError] and aborts the
    frame. *)
Definition extendTrack (a : App) : option App :=
  match lastSegment a with
  | None => None
  | Some zv => Some (extendLoop (rounds zv) a)
  end.

Definition infiniteBridge (a : App) : option App :=
  match segments (gameData a) with
  | [] => None
  | s0 :: rest =>
      extendTrack (if 80 <? s0 then gd (set_segments rest) a else a)
  end.

(** The clearance rule of an obstacle: whether it hits, and the reason
    shown when it kills. *)
Definition obstacleHit (g : GameData) (obj : GameObj) : bool * string :=
  match Obj.subtype obj with
  | Some JUMP => (negb (JUMP_CLEARANCE <? yPos g), "TRIPPED ON LOG"%string)
  | Some SLIDE => (negb (isSliding g), "HIT HEAD ON GATE"%string)
  | _ => (true, "SMASHED INTO WALL"%string)
  end.

(** Whether [obj] is inside the hit window and lined up with the
    player.  An object whose lane has no offset gives a [NaN] distance,
    and [NaN < HIT_LANE_DIST] is false. *)
Definition aligned (g : GameData) (obj : GameObj) : bool :=
  (HIT_Z_MIN <? Obj.z obj) && (Obj.z obj <? HIT_Z_MAX) &&
  match LANES_at (Obj.lane obj) with
  | Some lx => Qabs (xPos g - lx) <? HIT_LANE_DIST
  | None => false
  end.

(** Collision: the effect of one object on the game, and the object as
    it is left (it is the very object that was pushed on [nextObjects]). *)
Definition collide (a : App) (obj : GameObj) : App * GameObj :=
  if aligned (gameData a) obj then
    match Obj.type obj with
    | COIN =>
        (sound playCoin (setCoins (fun c => c + 1)%Z a), Obj.set_active false obj)
    | SHIELD =>
        (sound playShield
           (setHasShield true (gd (set_shieldTimer SHIELD_DURATION) a)),
         Obj.set_active false obj)
    | OBSTACLE =>
        let '(hit, reason) := obstacleHit (gameData a) obj in
        if hit then
          if 0 <? shieldTimer (gameData a) then
            (sound playCrash a, Obj.set_active false obj)
          else
            (setGameState GAMEOVER
               (setDeathReason reason
                  (set_gameStateRef GAMEOVER
                     (sound playGameOver (sound stopBGM a)))),
             obj)
        else (a, obj)
    end
  else (a, obj).

(** The body of [gd.objects.forEach]; the accumulator carries the game
    and [nextObjects]. *)
Definition stepObject (moveZ : Q) (acc : App * list GameObj) (obj : GameObj)
    : App * list GameObj :=
  let '(a, nextObjects) := acc in
  if negb (Obj.active obj) then acc
  else
    let obj := Obj.set_z (Obj.z obj + moveZ) obj in
    if 25 <? Obj.z obj then acc
    else
      let '(a, obj) := collide a obj in
      (a, nextObjects ++ [obj]).

Definition updateObjects (moveZ : Q) (a : App) : App :=
  let '(a, nextObjects) :=
    fold_left (stepObject moveZ) (objects (gameData a)) (a, []) in
  gd (set_objects nextObjects) a.

(** One call of [animate], [elapsed] being [clock.getDelta()]. *)
Definition animate (elapsed : Q) (a : App) : option App :=
  let delta := Qmin elapsed 0.1 in
  match gameStateRef a with
  | PLAYING =>
      let a := updateSpeedAndScore delta a in
      let a := updateShield delta a in
      match playerMove delta a with
      | None => None
      | Some a =>
          let moveZ := speed (gameData a) * delta in
          match infiniteBridge (worldMove moveZ a) with
          | None => None
          | Some a => Some (updateObjects moveZ a)
          end
      end
  | _ => Some a
  end.

(** ** Start and retry *)

Definition startGame (a : App) : App :=
  let a := sound startBGM a in
  let a := setScore 0 a in
  let a := setCoins (fun _ => 0%Z) a in
  let a := setHasShield false a in
  let a := setDeathReason "" a in
  let a := gd (set_score 0) a in
  let a := gd (set_speed RUN_SPEED_START) a in
  let a := gd (set_lane 1) a in
  let a := gd (set_xPos 0) a in
  let a := gd (set_shieldTimer 0) a in
  let a := setGameState PLAYING a in
  set_gameStateRef PLAYING a.

(** ** Mounting *)

(** [useRef]/[useState] initial values. *)
Definition initialGameData : GameData :=
  {| score := 0; speed := RUN_SPEED_START; lane := 1; xPos := 0; yPos := 0;
     velocityY := 0; isJumping := false; isSliding := false; slideTimer := 0;
     shieldTimer := 0; objects := []; segments := []; nextSegmentZ := 0;
     objIdCounter := 0 |}.

Definition initialApp (r : nat -> Q) : App :=
  {| ui := UI.mk START 0 0 false ""; gameStateRef := START;
     gameData := initialGameData; soundLog := []; rng := r; rngCalls := O |}.

(** The effect of [useEffect], which React runs after the first render
    and again after each change of [gameState], following the previous
    run's cleanup. *)
Definition effectCleanup (a : App) : App := sound stopBGM a.
Definition effect (a : App) : App := initWorld a.

Definition mount (r : nat -> Q) : App := effect (initialApp r).
Definition remount (a : App) : App := effect (effectCleanup a).

(** * The track in double precision *)

(** The positions of the segments are JavaScript numbers, IEEE 754
    binary64.  A double is the rational it stands for, and an operation
    is the exact one followed by [round], rounding to nearest with ties
    to even.  The numbers of the track stay far from the largest
    double, so overflow to an infinity is left out. *)
Module Double.

(** [floor (log2 |x|)], for [x] other than 0. *)
Definition ilog2 (x : Q) : Z :=
  let k := (Z.log2 (Z.abs (Qnum x)) - Z.log2 (Zpos (Qden x)))%Z in
  if Qle_bool (2 ^ k) (Qabs x) then k else (k - 1)%Z.

(** The nearest integer, the even one of two that are equally near. *)
Definition rne (x : Q) : Z :=
  let f := Qfloor x in
  match Qcompare (x - inject_Z f) (1 # 2) with
  | Lt => f
  | Gt => (f + 1)%Z
  | Eq => if Z.even f then f else (f + 1)%Z
  end.

(** The nearest double: 53 significant bits, and multiples of
    [2 ^ -1074] below the normal range. *)
Definition round (x : Q) : Q :=
  if Qeq_bool x 0 then 0
  else
    let e := Z.max (ilog2 x - 52) (-1074) in
    Qred (inject_Z (rne (x / 2 ^ e)) * 2 ^ e).

Definition add (x y : Q) : Q := round (x + y).
Definition sub (x y : Q) : Q := round (x - y).
Definition mul (x y : Q) : Q := round (x * y).

(** [Math.min(clock.getDelta(), 0.1)]: the literal is the double
    nearest to 0.1. *)
Definition frameDelta (elapsed : Q) : Q := Qmin elapsed (round 0.1).

(** [gd.speed = Math.min(gd.speed + (SPEED_INC * delta), MAX_SPEED)] *)
Definition updateSpeed (delta : Q) (a : App) : App :=
  gd (fun g =>
        set_speed (Qmin (add (speed g) (mul (round SPEED_INC) delta)) MAX_SPEED)
          g) a.

(** [gd.segments.forEach(s => s.position.z += moveZ)] *)
Definition worldMove (moveZ : Q) (a : App) : App :=
  gd (fun g => set_segments (map (fun s => add s moveZ) (segments g)) g) a.

Fixpoint extendLoop (n : nat) (a : App) : App :=
  match n with
  | O => a
  | S n =>
      match lastSegment a with
      | Some zv =>
          if -160 <? zv then extendLoop n (spawnSegment (sub zv 20) a) else a
      | None => a
      end
  end.

Definition extendTrack (a : App) : option App :=
  match lastSegment a with
  | None => None
  | Some zv => Some (extendLoop (rounds zv) a)
  end.

Definition infiniteBridge (a : App) : option App :=
  match segments (gameData a) with
  | [] => None
  | s0 :: rest =>
      extendTrack (if 80 <? s0 then gd (set_segments rest) a else a)
  end.

(** The statements of the playing branch of [animate] that decide the
    track, in their order: the delta, the speed, the scroll distance,
    World Move and Infinite Bridge.  The score, the shield, the
    player's move and the objects read none of the segments and write
    none. *)
Definition track (elapsed : Q) (a : App) : option App :=
  let delta := frameDelta elapsed in
  match gameStateRef a with
  | PLAYING =>
      let a := updateSpeed delta a in
      let moveZ := mul (speed (gameData a)) delta in
      infiniteBridge (worldMove moveZ a)
  | _ => Some a
  end.

(** The scroll distance of a frame. *)
Definition frameMoveZ (elapsed : Q) (a : App) : Q :=
  mul (speed (gameData (updateSpeed (frameDelta elapsed) a)))
    (frameDelta elapsed).

End Double.

(** * The sound controller *)

(** The class [SoundController].  The Web Audio graph is reduced to what
    the class itself decides: which nodes it starts and when
    ([output]), which it keeps in [bgmNodes], which it disconnects.
    [ctx] and [noiseBuffer] say whether the fields are non-null.  The
    browser's interval timers are the list [intervals] of the ids that
    are live, [window.setInterval] handing out the ids [intervalIds],
    [intervalIds + 1], ...  The clock [ctx.currentTime] is the argument
    [now] of the methods that read it. *)
Module SoundController.

Inductive OscillatorType := sine | square | sawtooth | triangle.

Inductive Node :=
  | Oscillator (freqStart freqEnd duration : Q) (type : OscillatorType)
      (vol t : Q)
  | NoiseBurst (time duration : Q)
  | Noise (filterFreq duration t : Q).

Record State := {
  ctx : bool;
  noiseBuffer : bool;
  isPlayingMusic : bool;
  bgmTimer : Z;
  nextNoteTime : Q;
  noteIndex : Z;
  bgmNodes : list Node;
  output : list Node;
  disconnected : list Node;
  intervals : list Z;
  intervalIds : Z
}.

Definition set_isPlayingMusic (v : bool) (s : State) : State :=
  {| ctx := ctx s; noiseBuffer := noiseBuffer s; isPlayingMusic := v;
     bgmTimer := bgmTimer s; nextNoteTime := nextNoteTime s;
     noteIndex := noteIndex s; bgmNodes := bgmNodes s; output := output s;
     disconnected := disconnected s; intervals := intervals s;
     intervalIds := intervalIds s |}.

Definition set_bgmTimer (v : Z) (s : State) : State :=
  {| ctx := ctx s; noiseBuffer := noiseBuffer s;
     isPlayingMusic := isPlayingMusic s; bgmTimer := v;
     nextNoteTime := nextNoteTime s; noteIndex := noteIndex s;
     bgmNodes := bgmNodes s; output := output s;
     disconnected := disconnected s; intervals := intervals s;
     intervalIds := intervalIds s |}.

Definition set_nextNoteTime (v : Q) (s : State) : State :=
  {| ctx := ctx s; noiseBuffer := noiseBuffer s;
     isPlayingMusic := isPlayingMusic s; bgmTimer := bgmTimer s;
     nextNoteTime := v; noteIndex := noteIndex s; bgmNodes := bgmNodes s;
     output := output s; disconnected := disconnected s;
     intervals := intervals s; intervalIds := intervalIds s |}.

Definition set_noteIndex (v : Z) (s : State) : State :=
  {| ctx := ctx s; noiseBuffer := noiseBuffer s;
     isPlayingMusic := isPlayingMusic s; bgmTimer := bgmTimer s;
     nextNoteTime := nextNoteTime s; noteIndex := v;
     bgmNodes := bgmNodes s; output := output s;
     disconnected := disconnected s; intervals := intervals s;
     intervalIds := intervalIds s |}.

Definition set_bgmNodes (v : list Node) (s : State) : State :=
  {| ctx := ctx s; noiseBuffer := noiseBuffer s;
     isPlayingMusic := isPlayingMusic s; bgmTimer := bgmTimer s;
     nextNoteTime := nextNoteTime s; noteIndex := noteIndex s;
     bgmNodes := v; output := output s; disconnected := disconnected s;
     intervals := intervals s; intervalIds := intervalIds s |}.

Definition set_output (v : list Node) (s : State) : State :=
  {| ctx := ctx s; noiseBuffer := noiseBuffer s;
     isPlayingMusic := isPlayingMusic s; bgmTimer := bgmTimer s;
     nextNoteTime := nextNoteTime s; noteIndex := noteIndex s;
     bgmNodes := bgmNodes s; output := v; disconnected := disconnected s;
     intervals := intervals s; intervalIds := intervalIds s |}.

Definition set_disconnected (v : list Node) (s : State) : State :=
  {| ctx := ctx s; noiseBuffer := noiseBuffer s;
     isPlayingMusic := isPlayingMusic s; bgmTimer := bgmTimer s;
     nextNoteTime := nextNoteTime s; noteIndex := noteIndex s;
     bgmNodes := bgmNodes s; output := output s; disconnected := v;
     intervals := intervals s; intervalIds := intervalIds s |}.

Definition set_intervals (v : list Z) (s : State) : State :=
  {| ctx := ctx s; noiseBuffer := noiseBuffer s;
     isPlayingMusic := isPlayingMusic s; bgmTimer := bgmTimer s;
     nextNoteTime := nextNoteTime s; noteIndex := noteIndex s;
     bgmNodes := bgmNodes s; output := output s;
     disconnected := disconnected s; intervals := v;
     intervalIds := intervalIds s |}.

Definition set_intervalIds (v : Z) (s : State) : State :=
  {| ctx := ctx s; noiseBuffer := noiseBuffer s;
     isPlayingMusic := isPlayingMusic s; bgmTimer := bgmTimer s;
     nextNoteTime := nextNoteTime s; noteIndex := noteIndex s;
     bgmNodes := bgmNodes s; output := output s;
     disconnected := disconnected s; intervals := intervals s;
     intervalIds := v |}.

(** [new SoundController()], in a window whose next interval id is
    [ids]. *)
Definition new (ids : Z) : State :=
  {| ctx := true; noiseBuffer := true; isPlayingMusic := false;
     bgmTimer := 0; nextNoteTime := 0; noteIndex := 0; bgmNodes := [];
     output := []; disconnected := []; intervals := []; intervalIds := ids |}.

(** [l[i]] for a number [i]. *)
Definition at_index {A} (l : list A) (i : Z) : option A :=
  if (i <? 0)%Z then None else nth_error l (Z.to_nat i).

Definition startBGM (now : Q) (s : State) : State :=
  if isPlayingMusic s || negb (ctx s) then s
  else
    let s := set_isPlayingMusic true s in
    let s := set_nextNoteTime (now + 0.1) s in
    let s := set_noteIndex 0 s in
    let id := intervalIds s in
    let s := set_intervalIds (id + 1)%Z (set_intervals (intervals s ++ [id]) s) in
    set_bgmTimer id s.

Definition stopBGM (s : State) : State :=
  let s := set_isPlayingMusic false s in
  let s := set_intervals (filter (fun id => negb (id =? bgmTimer s)%Z) (intervals s)) s in
  let s := set_disconnected (disconnected s ++ bgmNodes s) s in
  set_bgmNodes [] s.

Definition playTone (freqStart freqEnd duration : Q) (type : OscillatorType)
    (vol time now : Q) (s : State) : State :=
  if negb (ctx s) then s
  else
    let t := if Qeq_bool time 0 then now else time in
    let osc := Oscillator freqStart freqEnd duration type vol t in
    let s := set_output (output s ++ [osc]) s in
    if isPlayingMusic s then
      let s := set_bgmNodes (bgmNodes s ++ [osc]) s in
      if (100 <? List.length (bgmNodes s))%nat
      then set_bgmNodes (tl (bgmNodes s)) s
      else s
    else s.

Definition playNoiseBurst (time duration : Q) (s : State) : State :=
  if negb (ctx s) || negb (noiseBuffer s) then s
  else
    let src := NoiseBurst time duration in
    set_bgmNodes (bgmNodes s ++ [src]) (set_output (output s ++ [src]) s).

Definition playNoise (filterFreq duration now : Q) (s : State) : State :=
  if negb (ctx s) || negb (noiseBuffer s) then s
  else set_output (output s ++ [Noise filterFreq duration now]) s.

Definition bassFreq (beat : Z) : Q :=
  if (beat <? 4)%Z then
    if (Z.rem beat 4 =? 0)%Z then 130.81
    else if (Z.rem beat 4 =? 2)%Z then 196.00
    else 130.81
  else if (beat <? 8)%Z then
    if (Z.rem beat 4 =? 0)%Z then 174.61
    else if (Z.rem beat 4 =? 2)%Z then 220.00
    else 174.61
  else if (beat <? 12)%Z then
    if (Z.rem beat 4 =? 0)%Z then 196.00
    else if (Z.rem beat 4 =? 2)%Z then 246.94
    else 196.00
  else
    if (Z.rem beat 4 =? 0)%Z then 130.81
    else 196.00.

Definition mPattern : list Z := [1; 0; 1; 1; 0; 1; 0; 0; 1; 0; 1; 1; 0; 1; 1; 0]%Z.

Definition notes : list Q :=
  [523.25; 0; 659.25; 783.99; 0; 659.25; 0; 0;
   880.00; 0; 783.99; 659.25; 0; 587.33; 523.25; 0].

Definition melodyFreq (beat : Z) : Q :=
  match at_index mPattern beat with
  | Some m =>
      if (m =? 0)%Z then 0
      else match at_index notes beat with
           | Some f => f
           | None => 0
           end
  | None => 0
  end.

Definition playPatternStep (index : Z) (time now : Q) (s : State) : State :=
  if negb (ctx s) then s
  else
    let beat := Z.rem index 16 in
    let s := playTone (bassFreq beat) 0 0.15 triangle 0.2 time now s in
    let s :=
      if 0 <? melodyFreq beat
      then playTone (melodyFreq beat) 0 0.15 sawtooth 0.08 time now s
      else s in
    if (Z.rem index 2 =? 0)%Z then playNoiseBurst time 0.05 s else s.

(** A bound on the rounds of the scheduler's loop, which runs while
    [nextNoteTime] is below [now + 0.1] and raises it by 0.2 each
    round. *)
Definition lookahead (now next : Q) : nat :=
  Z.to_nat (Qceiling ((now + 0.1 - next) * 5)).

Fixpoint schedulerLoop (n : nat) (now : Q) (s : State) : State :=
  match n with
  | O => s
  | S n =>
      if nextNoteTime s <? now + 0.1 then
        let s := playPatternStep (noteIndex s) (nextNoteTime s) now s in
        let s := set_nextNoteTime (nextNoteTime s + 0.2) s in
        schedulerLoop n now (set_noteIndex (noteIndex s + 1)%Z s)
      else s
  end.

Definition scheduler (now : Q) (s : State) : State :=
  if negb (ctx s) then s
  else schedulerLoop (lookahead now (nextNoteTime s)) now s.

Definition playJump (now : Q) (s : State) : State :=
  playTone 200 600 0.15 sine 0.2 0 now s.

Definition playCoin (now : Q) (s : State) : State :=
  playTone 1200 1800 0.1 square 0.1 0 now s.

Definition playShield (now : Q) (s : State) : State :=
  playTone 300 800 0.5 sine 0.2 0 now s.

Definition playGameOver (now : Q) (s : State) : State :=
  playTone 100 20 1.0 sine 0.3 0 now
    (playTone 150 40 1.0 sawtooth 0.3 0 now s).

Definition playSlide (now : Q) (s : State) : State := playNoise 600 0.3 now s.

Definition playCrash (now : Q) (s : State) : State := playNoise 200 0.5 now s.




End SoundController.

(** * The scene around the game *)





(** * What the properties speak of *)

(** ** A frame's quantities *)

(** The clamped delta of a frame. *)
Definition frameDelta (elapsed : Q) : Q := Qmin elapsed 0.1.

(** The speed a frame runs at: the speed it finds, increased. *)
Definition frameSpeed (elapsed : Q) (a : App) : Q :=
  Qmin (speed (gameData a) + SPEED_INC * frameDelta elapsed) MAX_SPEED.

(** The scroll distance of a frame. *)
Definition frameMoveZ (elapsed : Q) (a : App) : Q :=
  frameSpeed elapsed a * frameDelta elapsed.

(** The game a frame leaves, or the game itself when the frame aborts. *)
Definition frameOf (elapsed : Q) (a : App) : App :=
  match animate elapsed a with
  | Some a' => a'
  | None => a
  end.

Definition frames (n : nat) (e : Q) (a : App) : App := Nat.iter n (frameOf e) a.

(** The keys delivered one after the other. *)
Definition pressAll (keys : list string) (a : App) : App :=
  fold_left (fun a key => handleKey key a) keys a.

(** ** Parts of the game *)

(** A game with its track, its objects and the draw counter blanked:
    two games that agree on it differ only there. *)
Definition offTrack (a : App) : App :=
  set_rngCalls O
    (gd (fun g => set_objects [] (set_objIdCounter 0
                    (set_segments [] (set_nextSegmentZ 0 g)))) a).

(** A game with the cells a collision may write blanked. *)
Definition offPlay (a : App) : App :=
  {| ui := UI.mk START 0 0 false ""; gameStateRef := START;
     gameData := set_objects [] (set_shieldTimer 0 (gameData a));
     soundLog := []; rng := rng a; rngCalls := rngCalls a |}.

(** The player's lane, position and pose, the speed and the score:
    what neither the track generator nor the collisions touch. *)
Definition pose (a : App) :=
  let g := gameData a in
  (lane g, xPos g, yPos g, velocityY g, isJumping g, isSliding g,
   slideTimer g, speed g, score g).

(** ** The window of segments *)

(** Consecutive segments are exactly one segment length apart. *)
Fixpoint spaced (l : list Q) : Prop :=
  match l with
  | [] => True
  | s :: t =>
      match t with
      | [] => True
      | s' :: _ => s - s' == 20
      end /\ spaced t
  end.

(** [Extends old new]: [new] is [old] followed by segments that were
    each created 20 beyond the one that was farthest at that time. *)
Inductive Extends : list Q -> list Q -> Prop :=
  | Extends_stop l : Extends l l
  | Extends_spawn l far l' :
      lastOf l = Some far -> Extends (l ++ [far - 20]) l' -> Extends l l'.

(** The positions [initLoop] lays segments at. *)
Fixpoint initPositions (n : nat) (zv : Q) : list Q :=
  match n with
  | O => []
  | S n => if -160 <? zv then zv :: initPositions n (zv - 20) else []
  end.

(** The invariant of the track: evenly spaced, starting at 60 or
    nearer and reaching -140 or farther. *)
Definition window (l : list Q) : Prop :=
  spaced l /\
  exists head far,
    hd_error l = Some head /\ lastOf l = Some far /\ 60 <= head /\ far <= -140.

(** ** Reachable games *)

(** What the browser can do to the component: mount it, re-run the
    effect (as it does after a change of [gameState]), deliver a key,
    click the start button, or run a frame after a non-negative
    [clock.getDelta()].  Nothing here restricts when the effect re-runs
    or when the button can be clicked, so every run of the component is
    among the runs described. *)
Inductive reachable : App -> Prop :=
  | reach_mount r : reachable (mount r)
  | reach_remount a : reachable a -> reachable (remount a)
  | reach_key key a : reachable a -> reachable (handleKey key a)
  | reach_start a : reachable a -> reachable (startGame a)
  | reach_frame e a a' :
      reachable a -> 0 <= e -> animate e a = Some a' -> reachable a'.

(** What every reachable game satisfies: a valid lane, not jumping and
    sliding at once, a speed of at least the starting speed, a sound
    track. *)
Definition Inv (a : App) : Prop :=
  let g := gameData a in
  (0 <= lane g <= 2)%Z /\
  isJumping g && isSliding g = false /\
  RUN_SPEED_START <= speed g /\
  window (segments g).

(** ** Vertical motion as the specification words it *)

(** Velocity first, then the position with the new velocity. *)
Definition semiImplicitEuler (dt : Q) (yv : Q * Q) : Q * Q :=
  let v := snd yv - GRAVITY * dt in
  (fst yv + v * dt, v).

(** ** Events on draws *)

(** An interval of draws, each end closed or open. *)
Record Interval := {
  lower : Q;
  lowerIn : bool;
  upper : Q;
  upperIn : bool
}.

Definition inside (u : Q) (i : Interval) : Prop :=
  (if lowerIn i then lower i <= u else lower i < u) /\
  (if upperIn i then u <= upper i else u < upper i).

Definition width (i : Interval) : Q := upper i - lower i.

(** An event on successive draws: one interval for each draw.  The
    draws being independent and uniform on [0, 1), the probability of
    an event whose intervals lie in [0, 1] is the product of their
    widths. *)
Definition Event := list Interval.

Definition occurs (us : list Q) (ev : Event) : Prop := Forall2 inside us ev.

Definition probability (ev : Event) : Q :=
  fold_right (fun i p => width i * p) 1 ev.

Definition above (c : Q) : Interval :=
  {| lower := c; lowerIn := false; upper := 1; upperIn := false |}.

Definition upTo (c : Q) : Interval :=
  {| lower := 0; lowerIn := true; upper := c; upperIn := true |}.

(** The subtype draw exceeds 0.6. *)
Definition fullEvent : Event := [above 0.6].

(** The subtype draw does not exceed 0.6 and the next draw exceeds 0.5. *)
Definition jumpEvent : Event := [upTo 0.6; above 0.5].

(** Neither draw exceeds its threshold. *)
Definition slideEvent : Event := [upTo 0.6; upTo 0.5].

(** The lane draw falls in the [k]-th third of [0, 1). *)
Definition laneEvent (k : Z) : Event :=
  [{| lower := inject_Z k / 3; lowerIn := true;
      upper := (inject_Z k + 1) / 3; upperIn := false |}].

(** ** Concrete games and runs *)

(** A stream of draws that yields neither obstacles nor pickups. *)
Definition quiet : nat -> Q := fun _ => 0.9.

(** The game right after the start button: [startGame], then the effect
    re-run that the change of [gameState] causes. *)
Definition fresh : App := remount (startGame (mount quiet)).

(** A player who has just pressed jump. *)
Definition jumpStart : App := handleKey "ArrowUp" fresh.


(** Draws that put a lone wall in the centre lane of the segment at -20
    when the track is laid for the second time, and nothing elsewhere. *)
Definition wallAhead : nat -> Q :=
  fun n =>
    if Nat.eqb n 14 then 0.1
    else if Nat.eqb n 15 then 0.4
    else if Nat.eqb n 16 then 0.7
    else 0.9.

(** A run that ends on a wall in mid-air: start, six frames of 0.1 s,
    jump, three more frames, then a frame of 0.05 s. *)
Definition crashedMidJump : App :=
  frameOf 0.05
    (frames 3 0.1
       (handleKey "ArrowUp"
          (frames 6 0.1 (remount (startGame (mount wallAhead)))))).

(** A game with a running shield and two walls in the player's lane,
    both about to enter the hit window. *)
Definition twoWalls : App :=
  gd (set_shieldTimer SHIELD_DURATION)
    (gd (set_objects [Obj.mk 0 OBSTACLE (Some FULL) 1 (-0.5) true;
                      Obj.mk 1 OBSTACLE (Some FULL) 1 (-0.4) true])
       fresh).

(** A gate in the centre lane, inside the hit window. *)
Definition gate : GameObj := Obj.mk 0 OBSTACLE (Some SLIDE) 1 (-0.3) true.

(** A wall, then a coin, then a log, all in the centre lane and about
    to enter the hit window together. *)
Definition wall : GameObj := Obj.mk 0 OBSTACLE (Some FULL) 1 (-0.5) true.

Definition coin : GameObj := Obj.mk 1 COIN None 1 (-0.4) true.

Definition log : GameObj := Obj.mk 2 OBSTACLE (Some JUMP) 1 (-0.3) true.

Definition pileUp : App := gd (set_objects [wall; coin; log]) fresh.

(** ** The window of segments in double precision *)

(** The most a frame moves the gap between two segments: two roundings
    of numbers below 256, [2 ^ -45]. *)
Definition gapDrift : Q := 1 # 35184372088832.

(** Consecutive segments are 20 apart to within [d]. *)
Fixpoint spacedWithin (d : Q) (l : list Q) : Prop :=
  match l with
  | [] => True
  | s :: t =>
      match t with
      | [] => True
      | s' :: _ => 20 - d <= s - s' /\ s - s' <= 20 + d
      end /\ spacedWithin d t
  end.

(** [ExtendsRounded old new]: [new] is [old] followed by segments that
    were each created at the double nearest to 20 beyond the one that
    was farthest at that time. *)
Inductive ExtendsRounded : list Q -> list Q -> Prop :=
  | ExtendsRounded_stop l : ExtendsRounded l l
  | ExtendsRounded_spawn l far l' :
      lastOf l = Some far ->
      ExtendsRounded (l ++ [Double.sub far 20]) l' ->
      ExtendsRounded l l'.

(** The invariant of the track in double precision: spaced to within
    [d], starting at 80 or farther and reaching -140 or farther, but
    not beyond -181 by more than [d]. *)
Definition Track (d : Q) (l : list Q) : Prop :=
  0 <= d /\
  spacedWithin d l /\
  exists head far,
    hd_error l = Some head /\ lastOf l = Some far /\
    head <= 80 /\ far <= -140 /\ -181 - d <= far.

(** ** More vocabulary *)


(** The death reasons the game can show. *)
Definition reasons : list string :=
  ["TRIPPED ON LOG"; "HIT HEAD ON GATE"; "SMASHED INTO WALL"]%string.

(** What the HUD cells and the game data agree on in every reachable
    game. *)
Definition HudInv (a : App) : Prop :=
  (UI.hasShield (ui a) = true <-> 0 < shieldTimer (gameData a)) /\
  shieldTimer (gameData a) <= SHIELD_DURATION /\
  UI.gameState (ui a) = gameStateRef a /\
  (gameStateRef a = GAMEOVER -> In (UI.deathReason (ui a)) reasons) /\
  (gameStateRef a <> GAMEOVER -> UI.deathReason (ui a) = ""%string).

(** The player's height and slide timer in every reachable game. *)
Definition PoseInv (a : App) : Prop :=
  let g := gameData a in
  0 <= yPos g /\
  (isJumping g = false -> yPos g == 0) /\
  (isSliding g = true -> 0 < slideTimer g /\ slideTimer g <= SLIDE_DURATION).

(** Draws that put a lone shield pickup in the centre lane of the
    segment at -20 when the track is laid for the second time. *)
Definition shieldAhead : nat -> Q :=
  fun n =>
    if Nat.eqb n 15 then 0.1
    else if Nat.eqb n 16 then 0.4
    else if Nat.eqb n 17 then 0.01
    else 0.9.

(** A run that picks the shield up: start, nine frames of 0.1 s and one
    of 0.05 s. *)
Definition shieldRun : App :=
  frameOf 0.05 (frames 9 0.1 (remount (startGame (mount shieldAhead)))).

(** A log in the centre lane, inside the hit window. *)
Definition logAhead : GameObj := Obj.mk 0 OBSTACLE (Some JUMP) 1 (-0.3) true.

(** ** The list of objects *)

(** The objects the loop keeps: those that are active and not beyond
    25 once advanced by [m]. *)
Definition kept (m : Q) (o : GameObj) : bool :=
  Obj.active o && negb (25 <? Obj.z o + m).

(** [o'] is [o] advanced by [m], as it is or switched off. *)
Definition Moved (m : Q) (o o' : GameObj) : Prop :=
  o' = Obj.set_z (Obj.z o + m) o \/
  o' = Obj.set_active false (Obj.set_z (Obj.z o + m) o).

(** The coins a frame collects: kept, and lined up inside the hit window
    once advanced. *)
Definition collectable (m : Q) (g : GameData) (o : GameObj) : bool :=
  kept m o && aligned g (Obj.set_z (Obj.z o + m) o) &&
  match Obj.type o with
  | COIN => true
  | _ => false
  end.

(** Strictly increasing. *)
Fixpoint ascending (l : list Z) : Prop :=
  match l with
  | [] => True
  | x :: t => Forall (fun y => (x < y)%Z) t /\ ascending t
  end.

(** The ids of the objects increase along the list and lie below the
    counter. *)
Definition idsOk (a : App) : Prop :=
  ascending (map Obj.id (objects (gameData a))) /\
  Forall (fun i => (i < objIdCounter (gameData a))%Z)
    (map Obj.id (objects (gameData a))).

(** ** The sound controller's state *)

(** A controller with the lists of nodes blanked: what starting a node
    leaves alone. *)
Definition muted (s : SoundController.State) : SoundController.State :=
  SoundController.set_output [] (SoundController.set_bgmNodes [] s).


(** A controller whose music plays and that holds 100 nodes: step 0
    leaves it with 101. *)
Definition fullController : SoundController.State :=
  SoundController.set_bgmNodes (repeat (SoundController.Noise 0 0 0) 100)
    (SoundController.startBGM 0 (SoundController.new 1)).

(** What a pattern step starts, in order: the bass note, the melody
    note when the beat has one, the noise burst on even steps when the
    noise buffer is there.  A time of 0 stands for the current time in
    the tones, as in [playTone]. *)
Definition stepNodes (nb : bool) (index : Z) (time now : Q)
    : list SoundController.Node :=
  let beat := Z.rem index 16 in
  let t := if Qeq_bool time 0 then now else time in
  [SoundController.Oscillator (SoundController.bassFreq beat) 0 0.15
     SoundController.triangle 0.2 t]
  ++ (if 0 <? SoundController.melodyFreq beat
      then [SoundController.Oscillator (SoundController.melodyFreq beat) 0 0.15
              SoundController.sawtooth 0.08 t]
      else [])
  ++ (if (Z.rem index 2 =? 0)%Z && nb
      then [SoundController.NoiseBurst time 0.05]
      else []).

(** [k] pattern steps in a row, from step [index] at [time], each 0.2
    after the one before. *)
Fixpoint played (k : nat) (nb : bool) (index : Z) (time now : Q)
    : list SoundController.Node :=
  match k with
  | O => []
  | S k => stepNodes nb index time now
           ++ played k nb (index + 1)%Z (time + 0.2) now
  end.

(** * Properties *)

(** ** Comparisons *)

Lemma Qltb_lt (x y : Q) : (x <? y) = true <-> x < y.
Proof.
  unfold Qltb. rewrite negb_true_iff.
  destruct (Qle_bool y x) eqn:E.
  - apply Qle_bool_iff in E. split; [discriminate | lra].
  - split; [intros _ | reflexivity].
    apply Qnot_le_lt. intro H. apply Qle_bool_iff in H. congruence.
Qed.

Lemma Qltb_ge (x y : Q) : (x <? y) = false <-> y <= x.
Proof.
  destruct (x <? y) eqn:E.
  - apply Qltb_lt in E. split; [discriminate | lra].
  - split; [intros _ | reflexivity].
    apply Qnot_lt_le. intro H. apply Qltb_lt in H. congruence.
Qed.

Lemma Qleb_le (x y : Q) : (x <=? y) = true <-> x <= y.
Proof. apply Qle_bool_iff. Qed.

Lemma Qleb_gt (x y : Q) : (x <=? y) = false <-> y < x.
Proof.
  destruct (x <=? y) eqn:E.
  - apply Qleb_le in E. split; [discriminate | lra].
  - split; [intros _ | reflexivity].
    apply Qnot_le_lt. intro H. apply Qleb_le in H. congruence.
Qed.

(** Turns the boolean tests recorded in the context into inequalities. *)
Ltac qprop :=
  repeat match goal with
    | H : (_ <? _) = true |- _ => apply Qltb_lt in H
    | H : (_ <? _) = false |- _ => apply Qltb_ge in H
    | H : (_ <=? _) = true |- _ => apply Qleb_le in H
    | H : (_ <=? _) = false |- _ => apply Qleb_gt in H
    end.

(** ** What the track generator leaves alone *)

Lemma offTrack_spawnObject ty l zv st a :
  offTrack (spawnObject ty l zv st a) = offTrack a.
Proof. reflexivity. Qed.

Lemma offTrack_spawnObstacles zv a :
  offTrack (spawnObstacles zv a) = offTrack a.
Proof.
  unfold spawnObstacles, randomLane, randomSubtype, random; cbn.
  repeat match goal with
    | |- context [if ?c then _ else _] => destruct c
    end; reflexivity.
Qed.

Lemma offTrack_spawnPickup zv a :
  offTrack (spawnPickup zv a) = offTrack a.
Proof.
  unfold spawnPickup, randomLane, random; cbn.
  repeat match goal with
    | |- context [if ?c then _ else _] => destruct c
    end; reflexivity.
Qed.

Lemma segments_spawnObstacles zv a :
  segments (gameData (spawnObstacles zv a)) = segments (gameData a).
Proof.
  unfold spawnObstacles, randomLane, randomSubtype, random; cbn.
  repeat match goal with
    | |- context [if ?c then _ else _] => destruct c
    end; reflexivity.
Qed.

Lemma segments_spawnPickup zv a :
  segments (gameData (spawnPickup zv a)) = segments (gameData a).
Proof.
  unfold spawnPickup, randomLane, random; cbn.
  repeat match goal with
    | |- context [if ?c then _ else _] => destruct c
    end; reflexivity.
Qed.

Lemma nextSegmentZ_spawnObstacles zv a :
  nextSegmentZ (gameData (spawnObstacles zv a)) = nextSegmentZ (gameData a).
Proof.
  unfold spawnObstacles, randomLane, randomSubtype, random; cbn.
  repeat match goal with
    | |- context [if ?c then _ else _] => destruct c
    end; reflexivity.
Qed.

Lemma nextSegmentZ_spawnPickup zv a :
  nextSegmentZ (gameData (spawnPickup zv a)) = nextSegmentZ (gameData a).
Proof.
  unfold spawnPickup, randomLane, random; cbn.
  repeat match goal with
    | |- context [if ?c then _ else _] => destruct c
    end; reflexivity.
Qed.

Lemma offTrack_spawnSegment zPos a :
  offTrack (spawnSegment zPos a) = offTrack a.
Proof.
  unfold spawnSegment. destruct (zPos <? -10).
  - rewrite offTrack_spawnPickup, offTrack_spawnObstacles. reflexivity.
  - reflexivity.
Qed.

Lemma segments_spawnSegment zPos a :
  segments (gameData (spawnSegment zPos a)) = segments (gameData a) ++ [zPos].
Proof.
  unfold spawnSegment. destruct (zPos <? -10).
  - rewrite segments_spawnPickup, segments_spawnObstacles. reflexivity.
  - reflexivity.
Qed.

Lemma nextSegmentZ_spawnSegment zPos a :
  nextSegmentZ (gameData (spawnSegment zPos a)) = nextSegmentZ (gameData a).
Proof.
  unfold spawnSegment. destruct (zPos <? -10).
  - rewrite nextSegmentZ_spawnPickup, nextSegmentZ_spawnObstacles. reflexivity.
  - reflexivity.
Qed.

(** ** The segment window *)

Lemma lastOf_app l zv : lastOf (l ++ [zv]) = Some zv.
Proof. unfold lastOf. rewrite rev_unit. reflexivity. Qed.

Lemma lastOf_cons s t :
  lastOf (s :: t) = match t with [] => Some s | _ => lastOf t end.
Proof.
  destruct t as [|s' t]; [reflexivity|].
  revert s s'. induction t as [|s'' t IH] using rev_ind; intros.
  - reflexivity.
  - change (s :: s' :: t ++ [s'']) with ((s :: s' :: t) ++ [s'']).
    change (s' :: t ++ [s'']) with ((s' :: t) ++ [s'']).
    now rewrite !lastOf_app.
Qed.

Lemma lastOf_map f l : lastOf (map f l) = option_map f (lastOf l).
Proof.
  unfold lastOf. rewrite <- map_rev. now destruct (rev l).
Qed.

Lemma spaced_tail s t : spaced (s :: t) -> spaced t.
Proof. now intros [_ H]. Qed.

Lemma spaced_map m l : spaced l -> spaced (map (fun s => s + m) l).
Proof.
  induction l as [|s t IH]; [easy|].
  intros [H Ht]. split; [|now apply IH].
  destruct t as [|s' t]; [easy|]. cbn. lra.
Qed.

Lemma spaced_app l zv :
  spaced l -> (forall far, lastOf l = Some far -> far - zv == 20) ->
  spaced (l ++ [zv]).
Proof.
  induction l as [|s t IH]; intros Hs Hl.
  - cbn. easy.
  - destruct Hs as [H Ht]. cbn [app]. split.
    + destruct t as [|s' t]; cbn.
      * apply Hl. reflexivity.
      * exact H.
    + apply IH; [exact Ht|]. intros far Hfar. apply Hl.
      rewrite lastOf_cons. destruct t; [discriminate|exact Hfar].
Qed.

Lemma Extends_spaced l l' : Extends l l' -> spaced l -> spaced l'.
Proof.
  induction 1 as [|l far l' Hfar _ IH]; [easy|].
  intro Hs. apply IH. apply spaced_app; [exact Hs|].
  intros far' E. rewrite Hfar in E. injection E as <-. lra.
Qed.

Lemma Extends_app l l' : Extends l l' -> exists added, l' = l ++ added.
Proof.
  induction 1 as [l|l far l' _ _ [added ->]].
  - exists []. now rewrite app_nil_r.
  - exists ([far - 20] ++ added). now rewrite app_assoc.
Qed.

Lemma rounds_enough zv : zv + 160 <= inject_Z (Z.of_nat (rounds zv)).
Proof.
  unfold rounds.
  apply Qle_trans with (inject_Z (Qceiling (zv + 160))); [apply Qle_ceiling|].
  rewrite <- Zle_Qle. lia.
Qed.

Lemma rounds_zero zv : zv + 160 <= inject_Z (Z.of_nat 0) -> zv <= -160.
Proof. change (inject_Z (Z.of_nat 0)) with 0. intro. lra. Qed.

Lemma rounds_succ zv n :
  zv + 160 <= inject_Z (Z.of_nat (S n)) ->
  (zv - 20) + 160 <= inject_Z (Z.of_nat n).
Proof.
  rewrite Nat2Z.inj_succ. unfold Z.succ. rewrite inject_Z_plus.
  change (inject_Z 1) with 1. intro. lra.
Qed.

Lemma lastSegment_spawnSegment zPos a :
  lastSegment (spawnSegment zPos a) = Some zPos.
Proof. unfold lastSegment. rewrite segments_spawnSegment. apply lastOf_app. Qed.

(** The loop leaves everything but the track alone, only appends
    segments at [farthest - 20], and stops because its test fails. *)
Lemma extendLoop_spec n : forall a zv,
  lastSegment a = Some zv -> zv + 160 <= inject_Z (Z.of_nat n) ->
  offTrack (extendLoop n a) = offTrack a /\
  Extends (segments (gameData a)) (segments (gameData (extendLoop n a))) /\
  exists far, lastSegment (extendLoop n a) = Some far /\ far <= -160.
Proof.
  induction n as [|n IH]; intros a zv Hl Hn.
  - apply rounds_zero in Hn. cbn [extendLoop].
    repeat split; [constructor|]. exists zv. now split.
  - cbn [extendLoop]. rewrite Hl. destruct (-160 <? zv) eqn:E; qprop.
    + destruct (IH (spawnSegment (zv - 20) a) (zv - 20)) as (H1 & H2 & H3).
      * apply lastSegment_spawnSegment.
      * now apply rounds_succ.
      * rewrite H1, offTrack_spawnSegment. repeat split; [|exact H3].
        eapply Extends_spawn; [exact Hl|].
        rewrite segments_spawnSegment in H2. exact H2.
    + repeat split; [constructor|]. exists zv. now split.
Qed.

(** More rounds than needed change nothing. *)
Lemma extendLoop_fuel n : forall m a zv,
  lastSegment a = Some zv ->
  zv + 160 <= inject_Z (Z.of_nat n) -> zv + 160 <= inject_Z (Z.of_nat m) ->
  extendLoop n a = extendLoop m a.
Proof.
  induction n as [|n IH]; intros m a zv Hl Hn Hm.
  - apply rounds_zero in Hn. destruct m; [reflexivity|]. cbn. rewrite Hl.
    destruct (-160 <? zv) eqn:E; qprop; [lra|reflexivity].
  - destruct m as [|m].
    + apply rounds_zero in Hm. cbn. rewrite Hl.
      destruct (-160 <? zv) eqn:E; qprop; [lra|reflexivity].
    + cbn [extendLoop]. rewrite Hl. destruct (-160 <? zv); [|reflexivity].
      apply (IH m _ (zv - 20));
        [apply lastSegment_spawnSegment|now apply rounds_succ..].
Qed.

(** [extendTrack] is the [while] loop of the source. *)
Lemma extendTrack_unroll a :
  extendTrack a =
  match lastSegment a with
  | None => None
  | Some zv =>
      if -160 <? zv then extendTrack (spawnSegment (zv - 20) a) else Some a
  end.
Proof.
  unfold extendTrack. destruct (lastSegment a) as [zv|] eqn:Hl; [|reflexivity].
  destruct (-160 <? zv) eqn:E.
  - rewrite lastSegment_spawnSegment. f_equal.
    pose proof (rounds_enough zv) as Hr.
    destruct (rounds zv) as [|n] eqn:En.
    + apply rounds_zero in Hr. qprop. lra.
    + cbn [extendLoop]. rewrite Hl, E.
      apply (extendLoop_fuel n _ _ (zv - 20));
        [apply lastSegment_spawnSegment|now apply rounds_succ|].
      apply rounds_enough.
  - destruct (rounds zv); cbn; [reflexivity|]. now rewrite Hl, E.
Qed.

(** ** The initial track *)

Lemma initLoop_spec n : forall a,
  offTrack (initLoop n a) = offTrack a /\
  segments (gameData (initLoop n a)) =
    segments (gameData a) ++ initPositions n (nextSegmentZ (gameData a)).
Proof.
  induction n as [|n IH]; intro a.
  - cbn. now rewrite app_nil_r.
  - cbn [initLoop initPositions].
    destruct (-160 <? nextSegmentZ (gameData a)).
    + match goal with |- context [initLoop n ?b] => destruct (IH b) as [H1 H2] end.
      rewrite H1, H2. split.
      * cbn. apply offTrack_spawnSegment.
      * cbn. rewrite segments_spawnSegment, nextSegmentZ_spawnSegment.
        now rewrite <- app_assoc.
    + now rewrite app_nil_r.
Qed.

(** [initLoop] stops because its test fails, not for want of rounds. *)
Lemma initLoop_exit n : forall a,
  nextSegmentZ (gameData a) + 160 <= inject_Z (Z.of_nat n) ->
  nextSegmentZ (gameData (initLoop n a)) <= -160.
Proof.
  induction n as [|n IH]; intros a Hn.
  - now apply rounds_zero.
  - cbn [initLoop]. destruct (-160 <? nextSegmentZ (gameData a)) eqn:E; qprop.
    + apply IH. cbn. rewrite nextSegmentZ_spawnSegment. now apply rounds_succ.
    + exact E.
Qed.

Lemma initWorld_exit a : nextSegmentZ (gameData (initWorld a)) <= -160.
Proof. unfold initWorld. apply initLoop_exit, rounds_enough. Qed.

Lemma offTrack_initWorld a : offTrack (initWorld a) = offTrack a.
Proof.
  unfold initWorld.
  match goal with |- context [initLoop ?n ?b] => destruct (initLoop_spec n b) as [H _] end.
  rewrite H. reflexivity.
Qed.

Lemma segments_initWorld a :
  segments (gameData (initWorld a)) =
  [80; 60; 40; 20; 0; -20; -40; -60; -80; -100; -120; -140].
Proof.
  unfold initWorld.
  match goal with |- context [initLoop ?n ?b] => destruct (initLoop_spec n b) as [_ H] end.
  rewrite H. cbn [gd set_gameData gameData set_segments set_nextSegmentZ
                  segments nextSegmentZ app].
  vm_compute. reflexivity.
Qed.

(** ** What the collisions leave alone *)

Lemma offPlay_collide a obj : offPlay (fst (collide a obj)) = offPlay a.
Proof.
  unfold collide. destruct (aligned (gameData a) obj); [|reflexivity].
  destruct (Obj.type obj); try reflexivity.
  destruct (obstacleHit (gameData a) obj) as [[] reason]; [|reflexivity].
  destruct (0 <? shieldTimer (gameData a)); reflexivity.
Qed.

Lemma offPlay_stepObject m acc obj :
  offPlay (fst (stepObject m acc obj)) = offPlay (fst acc).
Proof.
  unfold stepObject. destruct acc as [a next].
  destruct (negb (Obj.active obj)); [reflexivity|].
  destruct (25 <? _); [reflexivity|].
  destruct (collide a _) as [a' obj'] eqn:E. cbn [fst].
  change a' with (fst (a', obj')). rewrite <- E. apply offPlay_collide.
Qed.

Lemma offPlay_forEach m l : forall acc,
  offPlay (fst (fold_left (stepObject m) l acc)) = offPlay (fst acc).
Proof.
  induction l as [|obj l IH]; intro acc; [reflexivity|].
  cbn [fold_left]. rewrite IH. apply offPlay_stepObject.
Qed.

Lemma offPlay_updateObjects m a : offPlay (updateObjects m a) = offPlay a.
Proof.
  unfold updateObjects.
  destruct (fold_left _ _ _) as [a' next] eqn:E.
  change (offPlay (gd (set_objects next) a')) with (offPlay a').
  change a' with (fst (a', next)). rewrite <- E. apply offPlay_forEach.
Qed.

Lemma pose_offTrack a b : offTrack a = offTrack b -> pose a = pose b.
Proof. intro H. apply (f_equal pose) in H. exact H. Qed.

Lemma pose_offPlay a b : offPlay a = offPlay b -> pose a = pose b.
Proof. intro H. apply (f_equal pose) in H. exact H. Qed.

Lemma pose_fields a b :
  pose a = pose b ->
  let g := gameData a in
  let h := gameData b in
  lane g = lane h /\ xPos g = xPos h /\ yPos g = yPos h /\
  velocityY g = velocityY h /\ isJumping g = isJumping h /\
  isSliding g = isSliding h /\ slideTimer g = slideTimer h /\
  speed g = speed h /\ score g = score h.
Proof.
  unfold pose. generalize (gameData a) (gameData b). intros g h H.
  injection H as H1 H2 H3 H4 H5 H6 H7 H8 H9. cbn. tauto.
Qed.

Lemma segments_offPlay a b :
  offPlay a = offPlay b -> segments (gameData a) = segments (gameData b).
Proof.
  intro H. apply (f_equal (fun x => segments (gameData x))) in H. exact H.
Qed.

(** ** One frame, taken apart *)

Lemma frameDelta_range e : 0 <= e -> 0 <= frameDelta e <= 0.1.
Proof.
  intro H. unfold frameDelta.
  destruct (Q.min_spec e 0.1) as [[H1 H2]|[H1 H2]]; lra.
Qed.

Lemma speed_playerMove delta a a1 :
  playerMove delta a = Some a1 -> speed (gameData a1) = speed (gameData a).
Proof.
  unfold playerMove. destruct (LANES_at _); [|discriminate].
  intros [= <-].
  repeat match goal with
    | |- context [if ?c then _ else _] => destruct c
    end; reflexivity.
Qed.

Lemma segments_playerMove delta a a1 :
  playerMove delta a = Some a1 ->
  segments (gameData a1) = segments (gameData a).
Proof.
  unfold playerMove. destruct (LANES_at _); [|discriminate].
  intros [= <-].
  repeat match goal with
    | |- context [if ?c then _ else _] => destruct c
    end; reflexivity.
Qed.

Lemma segments_updateShield delta a :
  segments (gameData (updateShield delta a)) = segments (gameData a).
Proof.
  unfold updateShield.
  repeat match goal with
    | |- context [if ?c then _ else _] => destruct c
    end; reflexivity.
Qed.

Lemma speed_updateShield delta a :
  speed (gameData (updateShield delta a)) = speed (gameData a).
Proof.
  unfold updateShield.
  repeat match goal with
    | |- context [if ?c then _ else _] => destruct c
    end; reflexivity.
Qed.

(** A frame while playing is the player's move, the scroll with the
    bridge, then the objects; the scroll distance is [frameMoveZ]. *)
Lemma animate_playing e a a' :
  gameStateRef a = PLAYING -> animate e a = Some a' ->
  exists a1 a2,
    playerMove (frameDelta e)
      (updateShield (frameDelta e) (updateSpeedAndScore (frameDelta e) a))
      = Some a1 /\
    infiniteBridge (worldMove (frameMoveZ e a) a1) = Some a2 /\
    a' = updateObjects (frameMoveZ e a) a2.
Proof.
  intros Hp. unfold animate. rewrite Hp. fold (frameDelta e).
  destruct (playerMove _ _) as [a1|] eqn:E1; [|discriminate].
  assert (Hs : speed (gameData a1) * frameDelta e = frameMoveZ e a).
  { rewrite (speed_playerMove _ _ _ E1), speed_updateShield. reflexivity. }
  rewrite Hs.
  destruct (infiniteBridge _) as [a2|] eqn:E2; [|discriminate].
  intros [= <-]. now exists a1, a2.
Qed.

Lemma offTrack_infiniteBridge a a2 :
  infiniteBridge a = Some a2 -> offTrack a2 = offTrack a.
Proof.
  unfold infiniteBridge, extendTrack.
  destruct (segments (gameData a)) as [|s0 rest]; [discriminate|].
  destruct (lastSegment _) as [zv|] eqn:El; [|discriminate].
  intros [= <-].
  destruct (extendLoop_spec (rounds zv) _ zv El (rounds_enough zv)) as [H _].
  rewrite H. destruct (80 <? s0); reflexivity.
Qed.

(** Lane, position, pose, speed and score after a frame are those the
    player's move left. *)
Lemma pose_animate e a a' :
  gameStateRef a = PLAYING -> animate e a = Some a' ->
  exists a1,
    playerMove (frameDelta e)
      (updateShield (frameDelta e) (updateSpeedAndScore (frameDelta e) a))
      = Some a1 /\
    pose a' = pose a1.
Proof.
  intros Hp Ha. destruct (animate_playing _ _ _ Hp Ha) as (a1 & a2 & E1 & E2 & ->).
  exists a1. split; [exact E1|].
  rewrite (pose_offPlay _ _ (offPlay_updateObjects _ a2)).
  now rewrite (pose_offTrack _ _ (offTrack_infiniteBridge _ _ E2)).
Qed.

(** ** The window of segments across a frame *)

Lemma bridge_window m a :
  window (segments (gameData a)) ->
  exists a2 kept,
    infiniteBridge (worldMove m a) = Some a2 /\
    (kept = map (fun s => s + m) (segments (gameData a)) \/
     kept = tl (map (fun s => s + m) (segments (gameData a)))) /\
    Extends kept (segments (gameData a2)) /\
    spaced (segments (gameData a2)) /\
    (exists far, lastSegment a2 = Some far /\ far <= -160) /\
    (0 <= m -> window (segments (gameData a2))).
Proof.
  intros (Hs & head & far & Hh & Hf & Hhead & Hfar).
  destruct (segments (gameData a)) as [|s0 rest] eqn:Eseg; [discriminate|].
  injection Hh as ->.
  destruct rest as [|s1 rest].
  { cbn in Hf. injection Hf as ->. lra. }
  unfold infiniteBridge, worldMove. cbn [gd set_gameData gameData set_segments segments].
  rewrite Eseg. cbn [map].
  set (body := if 80 <? head + m then _ else _).
  assert (Hkept : exists kept zv,
            segments (gameData body) = kept /\
            (kept = map (fun s => s + m) (head :: s1 :: rest) \/
             kept = tl (map (fun s => s + m) (head :: s1 :: rest))) /\
            spaced kept /\ lastOf kept = Some zv /\ zv == far + m /\
            exists h, hd_error kept = Some h /\ (0 <= m -> 60 <= h)).
  { pose proof (spaced_map m _ Hs) as Hsm.
    assert (Hl : lastOf (map (fun s => s + m) (head :: s1 :: rest)) = Some (far + m)).
    { rewrite lastOf_map, Hf. reflexivity. }
    subst body. destruct (80 <? head + m) eqn:E; qprop.
    - exists (map (fun s => s + m) (s1 :: rest)), (far + m).
      split; [reflexivity|]. split; [now right|].
      split; [exact (spaced_tail _ _ Hsm)|]. split.
      + cbn [map] in Hl. rewrite lastOf_cons in Hl. exact Hl.
      + split; [reflexivity|]. exists (s1 + m). split; [reflexivity|].
        intros _. destruct Hs as [H _]. lra.
    - exists (map (fun s => s + m) (head :: s1 :: rest)), (far + m).
      split; [cbn; now rewrite Eseg|]. split; [now left|].
      split; [exact Hsm|]. split; [exact Hl|].
      split; [reflexivity|]. exists (head + m). split; [reflexivity|].
      intro. lra. }
  destruct Hkept as (kept & zv & Ek & Hk & Hsk & Hlk & Hzv & h & Hhk & Hh60).
  unfold extendTrack.
  assert (El : lastSegment body = Some zv) by (unfold lastSegment; now rewrite Ek).
  rewrite El.
  destruct (extendLoop_spec (rounds zv) body zv El (rounds_enough zv))
    as (_ & Hext & far' & Hfar' & Hle).
  rewrite Ek in Hext.
  exists (extendLoop (rounds zv) body), kept.
  split; [reflexivity|]. split; [exact Hk|]. split; [exact Hext|].
  pose proof (Extends_spaced _ _ Hext Hsk) as Hsp.
  split; [exact Hsp|]. split; [exists far'; now split|].
  intro Hm. split; [exact Hsp|].
  exists h, far'. destruct (Extends_app _ _ Hext) as [added Eadd].
  split; [|split; [exact Hfar'|split; [now apply Hh60|lra]]].
  rewrite Eadd. destruct kept; [discriminate|exact Hhk].
Qed.

(** ** Reachable games and their invariant *)

Lemma window_initial :
  window [80; 60; 40; 20; 0; -20; -40; -60; -80; -100; -120; -140].
Proof.
  split.
  - cbn. repeat split; reflexivity.
  - exists 80, (-140). repeat split; unfold RUN_SPEED_START; lra.
Qed.

Lemma Inv_effect a :
  (0 <= lane (gameData a) <= 2)%Z ->
  isJumping (gameData a) && isSliding (gameData a) = false ->
  RUN_SPEED_START <= speed (gameData a) ->
  Inv (effect a).
Proof.
  intros Hl Hf Hs. unfold effect, Inv.
  destruct (pose_fields _ _ (pose_offTrack _ _ (offTrack_initWorld a)))
    as (-> & _ & _ & _ & -> & -> & _ & -> & _).
  rewrite segments_initWorld.
  exact (conj Hl (conj Hf (conj Hs window_initial))).
Qed.

Lemma Inv_handleKey key a : Inv a -> Inv (handleKey key a).
Proof.
  intros HI. pose proof HI as (Hl & Hf & Hs & Hw). unfold handleKey.
  destruct (gameStateRef a); try exact HI.
  destruct (String.eqb key "ArrowLeft").
  { destruct (0 <? lane (gameData a))%Z eqn:E; [|exact HI].
    apply Z.ltb_lt in E. refine (conj _ (conj Hf (conj Hs Hw))). cbn. lia. }
  destruct (String.eqb key "ArrowRight").
  { destruct (lane (gameData a) <? 2)%Z eqn:E; [|exact HI].
    apply Z.ltb_lt in E. refine (conj _ (conj Hf (conj Hs Hw))). cbn. lia. }
  destruct (String.eqb key "ArrowUp").
  { destruct (isJumping (gameData a)) eqn:Ej, (isSliding (gameData a)) eqn:Esl;
      cbn [negb andb]; try exact HI.
    refine (conj Hl (conj _ (conj Hs Hw))). cbn. now rewrite Esl. }
  destruct (String.eqb key "ArrowDown"); [|exact HI].
  destruct (isJumping (gameData a)) eqn:Ej, (isSliding (gameData a)) eqn:Esl;
    cbn [negb andb]; try exact HI.
  refine (conj Hl (conj _ (conj Hs Hw))). cbn. now rewrite Ej.
Qed.

Lemma Inv_startGame a : Inv a -> Inv (startGame a).
Proof.
  intros (Hl & Hf & Hs & Hw).
  refine (conj _ (conj Hf (conj _ Hw))); cbn; [lia|apply Qle_refl].
Qed.

Lemma player_step delta a a1 :
  playerMove delta (updateShield delta (updateSpeedAndScore delta a)) = Some a1 ->
  lane (gameData a1) = lane (gameData a) /\
  (isJumping (gameData a) && isSliding (gameData a) = false ->
   isJumping (gameData a1) && isSliding (gameData a1) = false) /\
  speed (gameData a1) = Qmin (speed (gameData a) + SPEED_INC * delta) MAX_SPEED /\
  segments (gameData a1) = segments (gameData a).
Proof.
  intro H. split; [|split; [|split]].
  - revert H. unfold playerMove. destruct (LANES_at _); [|discriminate].
    intros [= <-]. unfold updateShield.
    repeat match goal with
      | |- context [if ?c then _ else _] => destruct c
      end; reflexivity.
  - revert H. unfold playerMove. destruct (LANES_at _); [|discriminate].
    intros [= <-]. unfold updateShield.
    repeat match goal with
      | |- context [if ?c then _ else _] => destruct c
      end; cbn; intros; try reflexivity; try assumption;
      rewrite ?andb_false_r; try reflexivity;
      destruct (isJumping (gameData a)); cbn in *; congruence.
  - rewrite (speed_playerMove _ _ _ H), speed_updateShield. reflexivity.
  - rewrite (segments_playerMove _ _ _ H), segments_updateShield. reflexivity.
Qed.

Lemma Inv_animate e a a' :
  Inv a -> 0 <= e -> animate e a = Some a' -> Inv a'.
Proof.
  intros HI He Ha. pose proof HI as (Hl & Hf & Hs & Hw).
  destruct (gameStateRef a) eqn:Hp;
    try (unfold animate in Ha; rewrite Hp in Ha; injection Ha as <-;
         exact HI).
  destruct (animate_playing _ _ _ Hp Ha) as (a1 & a2 & E1 & E2 & ->).
  destruct (player_step _ _ _ E1) as (Hl1 & Hf1 & Hs1 & Hseg1).
  pose proof (frameDelta_range e He) as Hd.
  assert (Hm : 0 <= frameMoveZ e a).
  { unfold frameMoveZ, frameSpeed. apply Qmult_le_0_compat; [|lra].
    unfold SPEED_INC, MAX_SPEED, RUN_SPEED_START in *.
    apply Q.min_glb; lra. }
  rewrite <- Hseg1 in Hw.
  destruct (bridge_window (frameMoveZ e a) a1 Hw)
    as (a2' & kept & E2' & _ & _ & _ & _ & Hw2).
  rewrite E2 in E2'. injection E2' as <-.
  destruct (pose_fields _ _
              (pose_offPlay _ _ (offPlay_updateObjects (frameMoveZ e a) a2)))
    as (P1 & _ & _ & _ & P2 & P3 & _ & P4 & _).
  destruct (pose_fields _ _ (pose_offTrack _ _ (offTrack_infiniteBridge _ _ E2)))
    as (T1 & _ & _ & _ & T2 & T3 & _ & T4 & _).
  cbn in T1, T2, T3, T4.
  unfold Inv. cbn zeta. rewrite P1, P2, P3, P4, T1, T2, T3, T4. rewrite (segments_offPlay _ _ (offPlay_updateObjects _ a2)).
  refine (conj _ (conj (Hf1 Hf) (conj _ (Hw2 Hm)))); [now rewrite Hl1|].
  rewrite Hs1. unfold SPEED_INC, MAX_SPEED, RUN_SPEED_START in *.
  apply Q.min_glb; lra.
Qed.

Theorem reachable_Inv a : reachable a -> Inv a.
Proof.
  induction 1 as [r|a _ IH|key a _ IH|a _ IH|e a a' _ IH He Ha].
  - apply Inv_effect; cbn; [lia|reflexivity|unfold RUN_SPEED_START; lra].
  - destruct IH as (Hl & Hf & Hs & _). now apply Inv_effect.
  - now apply Inv_handleKey.
  - now apply Inv_startGame.
  - now apply (Inv_animate e a).
Qed.

(** ** The player's move *)

Lemma playerMove_fields delta a a1 :
  playerMove delta a = Some a1 ->
  let g := gameData a in
  let g1 := gameData a1 in
  exists target,
    LANES_at (lane g) = Some target /\
    xPos g1 = lerp (xPos g) target (delta * LANE_SPEED) /\
    (isJumping g = true ->
     if yPos g + velocityY g * delta <=? 0
     then yPos g1 = 0 /\ velocityY g1 = 0 /\ isJumping g1 = false
     else yPos g1 = yPos g + velocityY g * delta /\
          velocityY g1 = velocityY g - GRAVITY * delta /\
          isJumping g1 = true).
Proof.
  unfold playerMove.
  destruct (LANES_at (lane (gameData a))) as [target|]; [|discriminate].
  intros [= <-]. exists target. split; [reflexivity|]. split.
  - repeat match goal with
      | |- context [if ?c then _ else _] => destruct c
      end; reflexivity.
  - intro Hj. cbn. rewrite Hj. cbn.
    destruct (yPos (gameData a) + velocityY (gameData a) * delta <=? 0);
      repeat split; try reflexivity; exact Hj.
Qed.

(** Speed, score and shield bookkeeping do not move the player. *)
Lemma bookkeeping_fields delta a :
  let g := gameData a in
  let g0 := gameData (updateShield delta (updateSpeedAndScore delta a)) in
  lane g0 = lane g /\ xPos g0 = xPos g /\ yPos g0 = yPos g /\
  velocityY g0 = velocityY g /\ isJumping g0 = isJumping g /\
  isSliding g0 = isSliding g.
Proof.
  unfold updateShield.
  repeat match goal with
    | |- context [if ?c then _ else _] => destruct c
    end; cbn; repeat split; reflexivity.
Qed.

Lemma player_fields delta a a1 :
  playerMove delta (updateShield delta (updateSpeedAndScore delta a)) = Some a1 ->
  let g := gameData a in
  let g1 := gameData a1 in
  exists target,
    LANES_at (lane g) = Some target /\
    xPos g1 = lerp (xPos g) target (delta * LANE_SPEED) /\
    (isJumping g = true ->
     if yPos g + velocityY g * delta <=? 0
     then yPos g1 = 0 /\ velocityY g1 = 0 /\ isJumping g1 = false
     else yPos g1 = yPos g + velocityY g * delta /\
          velocityY g1 = velocityY g - GRAVITY * delta /\
          isJumping g1 = true).
Proof.
  intro H. apply playerMove_fields in H. cbn zeta in H.
  destruct (bookkeeping_fields delta a) as (E1 & E2 & E3 & E4 & E5 & _).
  cbn zeta in *. rewrite E1, E2, E3, E4, E5 in H. exact H.
Qed.

(** ** C1: vertical motion while jumping *)

(** C1, as stated, fails: from a standstill jump (height 0, velocity
    22) a frame of 0.1 s lifts the player to 2.2, the old velocity times
    the delta, whereas velocity-first integration gives 1.5. *)
Lemma jump_not_semi_implicit :
  gameStateRef jumpStart = PLAYING /\
  isJumping (gameData jumpStart) = true /\
  yPos (gameData jumpStart) == 0 /\
  velocityY (gameData jumpStart) == 22 /\
  exists a',
    animate 0.1 jumpStart = Some a' /\
    yPos (gameData a') == 2.2 /\
    fst (semiImplicitEuler (frameDelta 0.1)
           (yPos (gameData jumpStart), velocityY (gameData jumpStart))) == 1.5 /\
    ~ yPos (gameData a') ==
      fst (semiImplicitEuler (frameDelta 0.1)
             (yPos (gameData jumpStart), velocityY (gameData jumpStart))).
Proof.
  do 4 (split; [vm_compute; reflexivity|]).
  exists (frameOf 0.1 jumpStart).
  do 3 (split; [vm_compute; reflexivity|]).
  vm_compute. discriminate.
Qed.

(** C1, amended: while jumping, a frame first moves the position by the
    velocity it had before the frame times the delta, then lowers the
    velocity by gravity times the delta; when the new position is at or
    below the ground it is set to 0, and the jumping flag and the
    velocity are cleared. *)
Theorem jump_integration (a : App) (e : Q) (a' : App) :
  gameStateRef a = PLAYING ->
  isJumping (gameData a) = true ->
  animate e a = Some a' ->
  let dt := frameDelta e in
  let g := gameData a in
  let g' := gameData a' in
  (yPos g + velocityY g * dt <= 0 ->
   yPos g' == 0 /\ velocityY g' == 0 /\ isJumping g' = false) /\
  (0 < yPos g + velocityY g * dt ->
   yPos g' == yPos g + velocityY g * dt /\
   velocityY g' == velocityY g - GRAVITY * dt /\
   isJumping g' = true).
Proof.
  intros Hp Hj Ha. cbn zeta.
  destruct (pose_animate _ _ _ Hp Ha) as (a1 & E1 & P).
  destruct (pose_fields _ _ P) as (_ & _ & -> & -> & -> & _). cbn zeta.
  destruct (player_fields _ _ _ E1) as (target & _ & _ & H).
  specialize (H Hj).
  destruct (_ <=? 0) eqn:E; qprop; destruct H as (-> & -> & ->).
  - split; [intros _; repeat split; reflexivity|intro; lra].
  - split; [intro; lra|intros _; repeat split; reflexivity].
Qed.

(** The first frame of a jump: up to 2.2, velocity down to 15. *)
Lemma jump_integration_witness :
  yPos (gameData (frameOf 0.1 jumpStart)) == 2.2 /\
  velocityY (gameData (frameOf 0.1 jumpStart)) == 15 /\
  isJumping (gameData (frameOf 0.1 jumpStart)) = true.
Proof.
  assert (H1 : gameStateRef jumpStart = PLAYING) by (vm_compute; reflexivity).
  assert (H2 : isJumping (gameData jumpStart) = true) by (vm_compute; reflexivity).
  assert (H3 : animate 0.1 jumpStart = Some (frameOf 0.1 jumpStart))
    by (vm_compute; reflexivity).
  destruct (jump_integration jumpStart 0.1 _ H1 H2 H3) as [_ H].
  assert (H4 : 0 < yPos (gameData jumpStart)
                   + velocityY (gameData jumpStart) * frameDelta 0.1)
    by (vm_compute; reflexivity).
  destruct (H H4) as (Hy & Hv & Hj).
  split; [|split]; [rewrite Hy|rewrite Hv|exact Hj]; vm_compute; reflexivity.
Defined.

(** ** C2: lateral motion *)







(** ** C7: lane bounds *)

Lemma lane_handleKey key a :
  (0 <= lane (gameData a) <= 2)%Z ->
  (0 <= lane (gameData (handleKey key a)) <= 2)%Z.
Proof.
  intro Hl. unfold handleKey.
  destruct (gameStateRef a); try exact Hl.
  destruct (String.eqb key "ArrowLeft").
  { destruct (0 <? lane (gameData a))%Z eqn:E; [|exact Hl].
    apply Z.ltb_lt in E. cbn. lia. }
  destruct (String.eqb key "ArrowRight").
  { destruct (lane (gameData a) <? 2)%Z eqn:E; [|exact Hl].
    apply Z.ltb_lt in E. cbn. lia. }
  repeat match goal with
    | |- context [if ?c then _ else _] => destruct c
    end; exact Hl.
Qed.

(** C7: whatever keys are delivered, the lane index stays within
    [0, 2]; lane-left at index 0 and lane-right at index 2 return the
    very same game; away from the bound, while playing, they move the
    lane by one. *)
Theorem lane_bounds (keys : list string) (a : App) :
  (0 <= lane (gameData a) <= 2)%Z ->
  (0 <= lane (gameData (pressAll keys a)) <= 2)%Z /\
  (lane (gameData a) = 0%Z -> handleKey "ArrowLeft" a = a) /\
  (lane (gameData a) = 2%Z -> handleKey "ArrowRight" a = a) /\
  (gameStateRef a = PLAYING ->
   (0 < lane (gameData a))%Z ->
   lane (gameData (handleKey "ArrowLeft" a)) = (lane (gameData a) - 1)%Z) /\
  (gameStateRef a = PLAYING ->
   (lane (gameData a) < 2)%Z ->
   lane (gameData (handleKey "ArrowRight" a)) = (lane (gameData a) + 1)%Z).
Proof.
  intro Hl. split; [|split; [|split; [|split]]].
  - revert a Hl. unfold pressAll.
    induction keys as [|key keys IH]; intros a Hl; [exact Hl|].
    cbn [fold_left]. apply IH. now apply lane_handleKey.
  - intro H0. unfold handleKey. destruct (gameStateRef a); try reflexivity.
    cbn. now rewrite H0.
  - intro H2. unfold handleKey. destruct (gameStateRef a); try reflexivity.
    cbn. now rewrite H2.
  - intros Hp H. unfold handleKey. rewrite Hp. cbn.
    apply Z.ltb_lt in H. now rewrite H.
  - intros Hp H. unfold handleKey. rewrite Hp. cbn.
    apply Z.ltb_lt in H. now rewrite H.
Qed.

(** Three lefts and a right from the centre end in the centre; a second
    left changes nothing. *)
Lemma lane_bounds_witness :
  lane (gameData
          (pressAll ["ArrowLeft"; "ArrowLeft"; "ArrowLeft"; "ArrowRight"]%string
             fresh)) = 1%Z /\
  handleKey "ArrowLeft" (handleKey "ArrowLeft" fresh) = handleKey "ArrowLeft" fresh.
Proof.
  split; [vm_compute; reflexivity|].
  assert (H : (0 <= lane (gameData (handleKey "ArrowLeft" fresh)) <= 2)%Z)
    by (vm_compute; split; discriminate).
  destruct (lane_bounds [] (handleKey "ArrowLeft" fresh) H) as (_ & H0 & _).
  apply H0. vm_compute. reflexivity.
Defined.

(** ** C10: fast fall *)

(** C10: while airborne the duck key sets the vertical velocity to
    [- GRAVITY * 0.5], that is -35, whatever it was, and changes nothing
    else; pressing it again gives the same game. *)
Theorem fast_fall_idempotent (a : App) :
  gameStateRef a = PLAYING ->
  isJumping (gameData a) = true ->
  handleKey "ArrowDown" a = gd (set_velocityY (- GRAVITY * 0.5)) a /\
  velocityY (gameData (handleKey "ArrowDown" a)) == -35 /\
  handleKey "ArrowDown" (handleKey "ArrowDown" a) = handleKey "ArrowDown" a.
Proof.
  intros Hp Hj.
  assert (H : handleKey "ArrowDown" a = gd (set_velocityY (- GRAVITY * 0.5)) a).
  { unfold handleKey. rewrite Hp. cbn. now rewrite Hj. }
  split; [exact H|]. split.
  - rewrite H. cbn. unfold GRAVITY. reflexivity.
  - rewrite H. unfold handleKey. cbn. rewrite Hp, Hj. reflexivity.
Qed.

(** Duck right after the jump. *)
Lemma fast_fall_idempotent_witness :
  velocityY (gameData (handleKey "ArrowDown" jumpStart)) == -35 /\
  handleKey "ArrowDown" (handleKey "ArrowDown" jumpStart)
  = handleKey "ArrowDown" jumpStart.
Proof.
  assert (H1 : gameStateRef jumpStart = PLAYING) by (vm_compute; reflexivity).
  assert (H2 : isJumping (gameData jumpStart) = true) by (vm_compute; reflexivity).
  destruct (fast_fall_idempotent jumpStart H1 H2) as (_ & Hv & Hi).
  exact (conj Hv Hi).
Defined.

(** ** C3: what the start button resets *)

(** What [startGame] writes: the HUD cells, the score, the speed, the
    lane, the lateral position and the shield timer. *)
Lemma startGame_resets a :
  let a' := startGame a in
  UI.score (ui a') = 0%Z /\ UI.coins (ui a') = 0%Z /\
  UI.hasShield (ui a') = false /\ UI.deathReason (ui a') = ""%string /\
  UI.gameState (ui a') = PLAYING /\ gameStateRef a' = PLAYING /\
  score (gameData a') = 0 /\ speed (gameData a') = RUN_SPEED_START /\
  lane (gameData a') = 1%Z /\ xPos (gameData a') = 0 /\
  shieldTimer (gameData a') = 0.
Proof. cbn. repeat split; reflexivity. Qed.

(** What it does not write: height, vertical velocity, the jumping and
    sliding flags and the slide timer stay as they were; so does the
    effect it triggers. *)
Lemma startGame_pose_kept a :
  let g := gameData a in
  let g' := gameData (remount (startGame a)) in
  yPos g' = yPos g /\ velocityY g' = velocityY g /\
  isJumping g' = isJumping g /\ isSliding g' = isSliding g /\
  slideTimer g' = slideTimer g.
Proof.
  cbn zeta. unfold remount, effect.
  destruct (pose_fields _ _
              (pose_offTrack _ _ (offTrack_initWorld (effectCleanup (startGame a)))))
    as (_ & _ & -> & -> & -> & -> & -> & _).
  cbn. repeat split; reflexivity.
Qed.

Lemma reach_frameOf e a : reachable a -> 0 <= e -> reachable (frameOf e a).
Proof.
  intros Hr He. unfold frameOf. destruct (animate e a) eqn:E; [|exact Hr].
  exact (reach_frame e a _ Hr He E).
Qed.

Lemma reach_frames n e a : reachable a -> 0 <= e -> reachable (frames n e a).
Proof.
  intros Hr He. induction n as [|n IH]; [exact Hr|].
  cbn. now apply reach_frameOf.
Qed.

(** C3 fails on the code.  The run above is a run of the game; it ends
    in game over with the player airborne.  Pressing the button then
    starts the next run with the jumping flag still set, at height 4.55
    and falling at 2.5, where the initial values are [false], 0 and 0. *)
Theorem startGame_keeps_pose :
  reachable crashedMidJump /\
  gameStateRef crashedMidJump = GAMEOVER /\
  UI.deathReason (ui crashedMidJump) = "SMASHED INTO WALL"%string /\
  let a := remount (startGame crashedMidJump) in
  gameStateRef a = PLAYING /\
  isJumping (gameData a) = true /\
  yPos (gameData a) == 4.55 /\
  velocityY (gameData a) == -2.5 /\
  isJumping initialGameData = false /\
  yPos initialGameData == 0 /\
  velocityY initialGameData == 0.
Proof.
  split.
  { unfold crashedMidJump.
    apply reach_frameOf; [|vm_compute; discriminate].
    apply reach_frames; [|vm_compute; discriminate].
    apply reach_key.
    apply reach_frames; [|vm_compute; discriminate].
    apply reach_remount, reach_start, reach_mount. }
  do 2 (split; [vm_compute; reflexivity|]).
  cbn zeta.
  destruct (startGame_pose_kept crashedMidJump) as (-> & -> & -> & _).
  split; [vm_compute; reflexivity|].
  do 5 (split; [vm_compute; reflexivity|]).
  vm_compute; reflexivity.
Qed.

(** ** C4: the lone obstacle *)

Lemma Qfloor_unique x k :
  Qfloor x = k <-> inject_Z k <= x /\ x < inject_Z k + 1.
Proof.
  split.
  - intros <-. split; [apply Qfloor_le|].
    pose proof (Qlt_floor x) as H. rewrite inject_Z_plus in H. exact H.
  - intros [H1 H2]. apply Z.le_antisymm.
    + apply Z.lt_succ_r. unfold Z.succ. rewrite Zlt_Qlt, inject_Z_plus.
      pose proof (Qfloor_le x). change (inject_Z 1) with 1. lra.
    + rewrite <- (Qfloor_Z k). now apply Qfloor_resp_le.
Qed.

Lemma objects_spawnPickup zv a :
  exists extra,
    objects (gameData (spawnPickup zv a)) = objects (gameData a) ++ extra.
Proof.
  unfold spawnPickup, randomLane, random; cbn.
  repeat match goal with
    | |- context [if ?c then _ else _] => destruct c
    end; cbn;
    solve [exists []; now rewrite app_nil_r | eexists; reflexivity].
Qed.

(** C4: when the layout draw is below 0.3 the segment gets an obstacle
    whose subtype is Full exactly when the subtype draw exceeds 0.6, and
    otherwise Jump or Slide as a further draw exceeds 0.5 or not; these
    events have probability 0.4, 0.3 and 0.3.  Its lane is the third of
    [0, 1) the lane draw falls in, each of probability 1/3.  In the
    order of the calls the lane draw comes right after the layout draw,
    before the subtype draws. *)
Theorem single_obstacle_distribution (a : App) (zPos : Q) :
  let n := rngCalls a in
  let roll := rng a n in
  let uLane := rng a (S n) in
  let uFull := rng a (S (S n)) in
  let uJump := rng a (S (S (S n))) in
  zPos < -10 ->
  roll < 0.3 ->
  0 <= uLane < 1 -> 0 <= uFull < 1 -> 0 <= uJump < 1 ->
  exists o,
    nth_error (objects (gameData (spawnSegment zPos a)))
      (List.length (objects (gameData a))) = Some o /\
    Obj.type o = OBSTACLE /\ Obj.z o = zPos /\ Obj.active o = true /\
    (Obj.subtype o = Some FULL <-> occurs [uFull] fullEvent) /\
    (Obj.subtype o = Some JUMP <-> occurs [uFull; uJump] jumpEvent) /\
    (Obj.subtype o = Some SLIDE <-> occurs [uFull; uJump] slideEvent) /\
    (forall k, Obj.lane o = k <-> occurs [uLane] (laneEvent k)) /\
    probability fullEvent == 0.4 /\
    probability jumpEvent == 0.3 /\
    probability slideEvent == 0.3 /\
    (forall k, probability (laneEvent k) == 1 / 3).
Proof.
  cbn zeta. intros Hz Hroll HL HF HJ.
  apply Qltb_lt in Hz, Hroll.
  set (t := if 0.6 <? rng a (S (S (rngCalls a))) then FULL
            else if 0.5 <? rng a (S (S (S (rngCalls a)))) then JUMP else SLIDE).
  set (o := Obj.mk (objIdCounter (gameData a)) OBSTACLE (Some t)
              (Qfloor (rng a (S (rngCalls a)) * 3)) zPos true).
  exists o.
  assert (Hobj : exists extra,
            objects (gameData (spawnSegment zPos a))
            = objects (gameData a) ++ o :: extra).
  { unfold spawnSegment. rewrite Hz.
    match goal with
    | |- context [spawnPickup zPos ?b] =>
        destruct (objects_spawnPickup zPos b) as [extra ->]
    end.
    exists extra. change (o :: extra) with ([o] ++ extra).
    rewrite app_assoc. f_equal.
    unfold spawnObstacles, random. cbn. rewrite Hroll.
    unfold randomLane, randomSubtype, random. cbn. subst o t.
    destruct (0.6 <? _); [reflexivity|]. cbn.
    destruct (0.5 <? _); reflexivity. }
  destruct Hobj as [extra ->].
  split. { rewrite nth_error_app2, Nat.sub_diag by lia. reflexivity. }
  do 3 (split; [reflexivity|]).
  assert (occ1 : forall u i, occurs [u] [i] <-> inside u i).
  { intros u i. split.
    - intro H. inversion H; subst. assumption.
    - intro H. constructor; [exact H|constructor]. }
  assert (occ2 : forall u v i j, occurs [u; v] [i; j] <-> inside u i /\ inside v j).
  { intros u v i j. split.
    - intro H. inversion H as [|? ? ? ? H1 H2]; subst. split; [exact H1|].
      now apply occ1.
    - intros [H1 H2]. constructor; [exact H1|now apply occ1]. }
  unfold fullEvent, jumpEvent, slideEvent, laneEvent.
  split; [|split; [|split; [|split]]].
  - rewrite occ1. unfold inside. cbn. subst t.
    destruct (0.6 <? _) eqn:E; [|destruct (0.5 <? _)]; qprop;
      (split; [intro; first [discriminate | split; lra]
              |intros [? ?]; first [reflexivity | lra]]).
  - rewrite occ2. unfold inside. cbn. subst t.
    destruct (0.6 <? _) eqn:E; [|destruct (0.5 <? _) eqn:E']; qprop;
      (split; [intro; first [discriminate | repeat split; lra]
              |intros [[? ?] [? ?]]; first [reflexivity | lra]]).
  - rewrite occ2. unfold inside. cbn. subst t.
    destruct (0.6 <? _) eqn:E; [|destruct (0.5 <? _) eqn:E']; qprop;
      (split; [intro; first [discriminate | repeat split; lra]
              |intros [[? ?] [? ?]]; first [reflexivity | lra]]).
  - intro k. rewrite occ1. unfold inside. cbn [lower upper lowerIn upperIn].
    change (Obj.lane o) with (Qfloor (rng a (S (rngCalls a)) * 3)).
    rewrite Qfloor_unique.
    assert (E1 : inject_Z k / 3 == inject_Z k * (1 # 3)) by field.
    assert (E2 : (inject_Z k + 1) / 3 == (inject_Z k + 1) * (1 # 3)) by field.
    rewrite E1, E2. split; intros [H1 H2]; split; lra.
  - split; [reflexivity|]. split; [reflexivity|]. split; [reflexivity|].
    intro k. unfold probability, width. cbn. field.
Qed.

(** With the draws 0.1, 0.4 and 0.7 the segment gets a wall in the
    centre lane. *)
Lemma single_obstacle_distribution_witness :
  exists o,
    nth_error (objects (gameData (spawnSegment (-160) (mount wallAhead)))) 0
    = Some o /\
    Obj.subtype o = Some FULL /\ Obj.lane o = 1%Z.
Proof.
  pose proof (single_obstacle_distribution (mount wallAhead) (-160)) as H.
  cbn zeta in H.
  assert (H1 : -160 < -10) by reflexivity.
  assert (H2 : rng (mount wallAhead) (rngCalls (mount wallAhead)) < 0.3)
    by (vm_compute; reflexivity).
  assert (H3 : 0 <= rng (mount wallAhead) (S (rngCalls (mount wallAhead))) < 1)
    by (split; vm_compute; [discriminate|reflexivity]).
  assert (H4 : 0 <= rng (mount wallAhead) (S (S (rngCalls (mount wallAhead)))) < 1)
    by (split; vm_compute; [discriminate|reflexivity]).
  assert (H5 : 0 <= rng (mount wallAhead)
                      (S (S (S (rngCalls (mount wallAhead))))) < 1)
    by (split; vm_compute; [discriminate|reflexivity]).
  destruct (H H1 H2 H3 H4 H5) as (o & Hn & _ & _ & _ & Hfull & _ & _ & Hlane & _).
  exists o. split; [|split].
  - replace 0%nat with (List.length (objects (gameData (mount wallAhead))))
      by (vm_compute; reflexivity).
    exact Hn.
  - apply Hfull. constructor; [|constructor].
    split; vm_compute; reflexivity.
  - apply Hlane. constructor; [|constructor].
    split; vm_compute; [discriminate|reflexivity].
Defined.

(** ** Collisions *)

Lemma aligned_xPos g h obj : xPos g = xPos h -> aligned g obj = aligned h obj.
Proof. unfold aligned. now intros ->. Qed.

Lemma obstacleHit_pose g h obj :
  yPos g = yPos h -> isSliding g = isSliding h ->
  obstacleHit g obj = obstacleHit h obj.
Proof. unfold obstacleHit. now intros -> ->. Qed.

(** An obstacle that hits while the shield timer runs: a crash cue, the
    obstacle switched off, nothing else. *)
Lemma collide_shielded a obj :
  aligned (gameData a) obj = true ->
  Obj.type obj = OBSTACLE ->
  fst (obstacleHit (gameData a) obj) = true ->
  0 < shieldTimer (gameData a) ->
  collide a obj = (sound playCrash a, Obj.set_active false obj).
Proof.
  intros Ha Ht Hh Hs. unfold collide. rewrite Ha, Ht.
  destruct (obstacleHit (gameData a) obj) as [hit reason]. cbn in Hh. subst hit.
  apply Qltb_lt in Hs. now rewrite Hs.
Qed.

(** An obstacle that hits with no shield: game over, and the reason is
    this obstacle's. *)
Lemma collide_unshielded a obj :
  aligned (gameData a) obj = true ->
  Obj.type obj = OBSTACLE ->
  fst (obstacleHit (gameData a) obj) = true ->
  shieldTimer (gameData a) <= 0 ->
  collide a obj =
  (setGameState GAMEOVER
     (setDeathReason (snd (obstacleHit (gameData a) obj))
        (set_gameStateRef GAMEOVER (sound playGameOver (sound stopBGM a)))),
   obj).
Proof.
  intros Ha Ht Hh Hs. unfold collide. rewrite Ha, Ht.
  destruct (obstacleHit (gameData a) obj) as [hit reason]. cbn in Hh. subst hit.
  apply Qltb_ge in Hs. now rewrite Hs.
Qed.

Lemma collide_coin a obj :
  aligned (gameData a) obj = true ->
  Obj.type obj = COIN ->
  collide a obj =
  (sound playCoin (setCoins (fun c => c + 1)%Z a), Obj.set_active false obj).
Proof. intros Ha Ht. unfold collide. now rewrite Ha, Ht. Qed.

(** While the shield timer runs, no collision ends the game, and the
    timer stays as it is unless a shield pickup sets it to its full
    duration. *)
Lemma collide_keeps_playing a obj :
  0 < shieldTimer (gameData a) ->
  let a' := fst (collide a obj) in
  gameStateRef a' = gameStateRef a /\
  UI.gameState (ui a') = UI.gameState (ui a) /\
  UI.deathReason (ui a') = UI.deathReason (ui a) /\
  (shieldTimer (gameData a') = shieldTimer (gameData a) \/
   shieldTimer (gameData a') = SHIELD_DURATION) /\
  0 < shieldTimer (gameData a').
Proof.
  intro Hs. pose proof Hs as Hb. apply Qltb_lt in Hb. unfold collide.
  destruct (aligned (gameData a) obj); [|cbn; tauto].
  destruct (Obj.type obj); cbn.
  - destruct (obstacleHit (gameData a) obj) as [[] reason]; [|cbn; tauto].
    rewrite Hb. cbn. tauto.
  - tauto.
  - refine (conj eq_refl (conj eq_refl (conj eq_refl (conj (or_intror eq_refl) _)))).
    reflexivity.
Qed.

Lemma stepObject_keeps_playing m acc obj :
  0 < shieldTimer (gameData (fst acc)) ->
  let a := fst acc in
  let a' := fst (stepObject m acc obj) in
  gameStateRef a' = gameStateRef a /\
  UI.gameState (ui a') = UI.gameState (ui a) /\
  UI.deathReason (ui a') = UI.deathReason (ui a) /\
  (shieldTimer (gameData a') = shieldTimer (gameData a) \/
   shieldTimer (gameData a') = SHIELD_DURATION) /\
  0 < shieldTimer (gameData a').
Proof.
  destruct acc as [a next]. cbn [fst]. intro Hs. unfold stepObject.
  destruct (negb (Obj.active obj)); [cbn; tauto|].
  destruct (25 <? _); [cbn; tauto|].
  pose proof (collide_keeps_playing a (Obj.set_z (Obj.z obj + m) obj) Hs) as H.
  destruct (collide a _) as [a' obj']. exact H.
Qed.

Lemma forEach_keeps_playing m objs : forall acc,
  0 < shieldTimer (gameData (fst acc)) ->
  let a := fst acc in
  let a' := fst (fold_left (stepObject m) objs acc) in
  gameStateRef a' = gameStateRef a /\
  UI.gameState (ui a') = UI.gameState (ui a) /\
  UI.deathReason (ui a') = UI.deathReason (ui a) /\
  (shieldTimer (gameData a') = shieldTimer (gameData a) \/
   shieldTimer (gameData a') = SHIELD_DURATION) /\
  0 < shieldTimer (gameData a').
Proof.
  induction objs as [|obj objs IH]; intros acc Hs; cbn zeta.
  - cbn. tauto.
  - cbn [fold_left].
    destruct (stepObject_keeps_playing m acc obj Hs) as (H1 & H2 & H3 & H4 & H5).
    destruct (IH (stepObject m acc obj) H5) as (I1 & I2 & I3 & I4 & I5).
    cbn zeta in *. rewrite I1, I2, I3, H1, H2, H3.
    repeat split; try assumption.
    destruct I4 as [-> | ->]; [exact H4|now right].
Qed.

(** What is on [nextObjects] stays there. *)
Lemma forEach_keeps m objs : forall acc o,
  In o (snd acc) -> In o (snd (fold_left (stepObject m) objs acc)).
Proof.
  induction objs as [|obj objs IH]; intros acc o Hin; [exact Hin|].
  cbn [fold_left]. apply IH. unfold stepObject. destruct acc as [a next].
  destruct (negb (Obj.active obj)); [exact Hin|].
  destruct (25 <? _); [exact Hin|].
  destruct (collide a _) as [a' obj']. cbn in *. apply in_or_app. now left.
Qed.

(** Every obstacle that hits during the loop while the shield timer
    runs ends up switched off on [nextObjects]. *)
Lemma forEach_absorbs m objs : forall acc obj,
  0 < shieldTimer (gameData (fst acc)) ->
  In obj objs ->
  Obj.active obj = true ->
  let obj' := Obj.set_z (Obj.z obj + m) obj in
  Obj.z obj' <= 25 ->
  aligned (gameData (fst acc)) obj' = true ->
  Obj.type obj = OBSTACLE ->
  fst (obstacleHit (gameData (fst acc)) obj') = true ->
  In (Obj.set_active false obj') (snd (fold_left (stepObject m) objs acc)).
Proof.
  induction objs as [|o objs IH]; intros acc obj Hs Hin Hact obj' Hz Hal Hty Hhit;
    [destruct Hin|].
  cbn [fold_left]. destruct Hin as [-> | Hin].
  - apply forEach_keeps. unfold stepObject. destruct acc as [a next].
    rewrite Hact. cbn [negb]. fold obj'.
    apply Qltb_ge in Hz. rewrite Hz. cbn [fst] in *.
    rewrite (collide_shielded a obj' Hal Hty Hhit Hs).
    cbn. apply in_or_app. right. now left.
  - destruct (stepObject_keeps_playing m acc o Hs) as (_ & _ & _ & _ & Hs').
    pose proof (offPlay_stepObject m acc o) as Hoff.
    destruct (pose_fields _ _ (pose_offPlay _ _ Hoff))
      as (_ & Hx & Hy & _ & _ & Hsl & _).
    cbn zeta in *.
    apply IH; try assumption.
    + rewrite <- Hal. apply aligned_xPos. exact Hx.
    + rewrite <- Hhit. f_equal. apply obstacleHit_pose; assumption.
Qed.

(** The shield timer, the state and the HUD's state and death reason
    across the part of a frame that precedes the scroll. *)
Lemma shield_countdown delta a a1 :
  playerMove delta (updateShield delta (updateSpeedAndScore delta a)) = Some a1 ->
  gameStateRef a1 = gameStateRef a /\
  UI.gameState (ui a1) = UI.gameState (ui a) /\
  UI.deathReason (ui a1) = UI.deathReason (ui a) /\
  (0 < shieldTimer (gameData a) ->
   shieldTimer (gameData a1) = shieldTimer (gameData a) - delta) /\
  (shieldTimer (gameData a) <= 0 ->
   shieldTimer (gameData a1) = shieldTimer (gameData a)).
Proof.
  unfold playerMove. destruct (LANES_at _); [|discriminate].
  intros [= <-]. unfold updateShield.
  change (shieldTimer (gameData (updateSpeedAndScore delta a)))
    with (shieldTimer (gameData a)).
  destruct (0 <? shieldTimer (gameData a)) eqn:E; qprop.
  - repeat match goal with
      | |- context [if ?c then _ else _] => destruct c
      end; cbn; repeat split; try reflexivity; intro; lra.
  - repeat match goal with
      | |- context [if ?c then _ else _] => destruct c
      end; cbn; repeat split; try reflexivity; intro; lra.
Qed.

Lemma offTrack_field {A} (f : App -> A) a b :
  offTrack a = offTrack b -> f (offTrack a) = f (offTrack b).
Proof. now intros ->. Qed.

(** ** C5: the shield *)

(** C5: in a frame that leaves the shield timer running, the game is
    still being played at the end, however many obstacles hit; the
    timer ends at its counted-down value (or at the full duration when a
    shield was picked up in the frame); every obstacle that hits in the
    frame is left switched off, and the next frame's loop drops it.  A
    single absorption does nothing but sound the crash cue and switch
    the obstacle off. *)
Theorem shield_absorbs_every_hit (a : App) (e : Q) (a' : App) :
  gameStateRef a = PLAYING ->
  0 <= e ->
  animate e a = Some a' ->
  frameDelta e < shieldTimer (gameData a) ->
  gameStateRef a' = PLAYING /\
  UI.gameState (ui a') = UI.gameState (ui a) /\
  UI.deathReason (ui a') = UI.deathReason (ui a) /\
  (shieldTimer (gameData a') = shieldTimer (gameData a) - frameDelta e \/
   shieldTimer (gameData a') = SHIELD_DURATION) /\
  (exists a2,
     a' = updateObjects (frameMoveZ e a) a2 /\
     shieldTimer (gameData a2) = shieldTimer (gameData a) - frameDelta e /\
     forall obj,
       In obj (objects (gameData a2)) ->
       Obj.active obj = true ->
       let obj' := Obj.set_z (Obj.z obj + frameMoveZ e a) obj in
       Obj.z obj' <= 25 ->
       aligned (gameData a2) obj' = true ->
       Obj.type obj = OBSTACLE ->
       fst (obstacleHit (gameData a2) obj') = true ->
       In (Obj.set_active false obj') (objects (gameData a')) /\
       forall m acc, stepObject m acc (Obj.set_active false obj') = acc) /\
  (forall b obj,
     aligned (gameData b) obj = true ->
     Obj.type obj = OBSTACLE ->
     fst (obstacleHit (gameData b) obj) = true ->
     0 < shieldTimer (gameData b) ->
     collide b obj = (sound playCrash b, Obj.set_active false obj)).
Proof.
  intros Hp He Ha Hs.
  destruct (animate_playing _ _ _ Hp Ha) as (a1 & a2 & E1 & E2 & ->).
  destruct (shield_countdown _ _ _ E1) as (S1 & S2 & S3 & S4 & _).
  pose proof (frameDelta_range e He) as Hd.
  assert (Hpos : 0 < shieldTimer (gameData a)) by lra.
  specialize (S4 Hpos).
  pose proof (offTrack_infiniteBridge _ _ E2) as Hoff.
  assert (T1 : shieldTimer (gameData a2) = shieldTimer (gameData a1))
    by exact (offTrack_field (fun x => shieldTimer (gameData x)) _ _ Hoff).
  assert (T2 : gameStateRef a2 = gameStateRef a1)
    by exact (offTrack_field gameStateRef _ _ Hoff).
  assert (T3 : ui a2 = ui a1) by exact (offTrack_field ui _ _ Hoff).
  assert (Hcount : shieldTimer (gameData a2)
                   = shieldTimer (gameData a) - frameDelta e)
    by (now rewrite T1).
  assert (Hs2 : 0 < shieldTimer (gameData a2)) by (rewrite Hcount; lra).
  pose proof (forEach_keeps_playing (frameMoveZ e a) (objects (gameData a2))
                (a2, []) Hs2) as K.
  cbn zeta in K. cbn [fst] in K.
  unfold updateObjects.
  destruct (fold_left _ _ _) as [a3 next] eqn:Ef. cbn [fst] in K.
  destruct K as (K1 & K2 & K3 & K4 & K5).
  change (gameStateRef (gd (set_objects next) a3)) with (gameStateRef a3).
  change (ui (gd (set_objects next) a3)) with (ui a3).
  change (shieldTimer (gameData (gd (set_objects next) a3)))
    with (shieldTimer (gameData a3)).
  change (objects (gameData (gd (set_objects next) a3))) with next.
  rewrite K1, K2, K3, T2, T3, S1, S2, S3.
  split; [exact Hp|]. do 2 (split; [reflexivity|]).
  split; [|split].
  - destruct K4 as [-> | ->]; [left; exact Hcount|now right].
  - exists a2. split; [now rewrite Ef|]. split; [exact Hcount|].
    intros obj Hin Hact Hz Hal Hty Hhit. split.
    + pose proof (forEach_absorbs (frameMoveZ e a) (objects (gameData a2))
                    (a2, []) obj Hs2 Hin Hact Hz Hal Hty Hhit) as H.
      rewrite Ef in H. exact H.
    + intros m acc. unfold stepObject. destruct acc. reflexivity.
  - intros b obj. apply collide_shielded.
Qed.

(** Two walls hit in one frame under a shield: still playing, both
    switched off. *)
Lemma shield_absorbs_every_hit_witness :
  gameStateRef (frameOf 0.01 twoWalls) = PLAYING /\
  map Obj.active (objects (gameData (frameOf 0.01 twoWalls))) = [false; false].
Proof.
  assert (H1 : gameStateRef twoWalls = PLAYING) by (vm_compute; reflexivity).
  assert (H2 : animate 0.01 twoWalls = Some (frameOf 0.01 twoWalls))
    by (vm_compute; reflexivity).
  assert (H3 : frameDelta 0.01 < shieldTimer (gameData twoWalls))
    by (vm_compute; reflexivity).
  assert (H0 : 0 <= 0.01) by (vm_compute; discriminate).
  destruct (shield_absorbs_every_hit twoWalls 0.01 _ H1 H0 H2 H3) as (H & _).
  split; [exact H|]. vm_compute. reflexivity.
Defined.

(** ** C6: the gate *)

(** C6: a lined-up gate inside the hit window is passed exactly when
    the sliding flag is set, whatever the height and the jumping flag.
    Passed means that the collision changes nothing; otherwise the
    shield absorbs the hit, or the game is over with the gate's death
    reason.  A player of a reachable game who is jumping is not sliding,
    hence hit. *)
Theorem slide_clearance (a : App) (obj : GameObj) :
  aligned (gameData a) obj = true ->
  Obj.type obj = OBSTACLE ->
  Obj.subtype obj = Some SLIDE ->
  let g := gameData a in
  fst (obstacleHit g obj) = negb (isSliding g) /\
  (forall y j,
     obstacleHit (set_isJumping j (set_yPos y g)) obj = obstacleHit g obj /\
     aligned (set_isJumping j (set_yPos y g)) obj = aligned g obj) /\
  (collide a obj = (a, obj) <-> isSliding g = true) /\
  (isSliding g = false -> 0 < shieldTimer g ->
   collide a obj = (sound playCrash a, Obj.set_active false obj)) /\
  (isSliding g = false -> shieldTimer g <= 0 ->
   collide a obj =
   (setGameState GAMEOVER
      (setDeathReason "HIT HEAD ON GATE"
         (set_gameStateRef GAMEOVER (sound playGameOver (sound stopBGM a)))),
    obj)) /\
  (reachable a -> isJumping g = true -> isSliding g = false).
Proof.
  intros Hal Hty Hsub. cbn zeta.
  assert (Hhit : obstacleHit (gameData a) obj
                 = (negb (isSliding (gameData a)), "HIT HEAD ON GATE"%string))
    by (unfold obstacleHit; now rewrite Hsub).
  assert (Hcrash : isSliding (gameData a) = false ->
                   0 < shieldTimer (gameData a) ->
                   collide a obj = (sound playCrash a, Obj.set_active false obj)).
  { intros Hsl Hs. apply collide_shielded; try assumption.
    now rewrite Hhit, Hsl. }
  assert (Hover : isSliding (gameData a) = false ->
                  shieldTimer (gameData a) <= 0 ->
                  collide a obj =
                  (setGameState GAMEOVER
                     (setDeathReason "HIT HEAD ON GATE"
                        (set_gameStateRef GAMEOVER
                           (sound playGameOver (sound stopBGM a)))),
                   obj)).
  { intros Hsl Hs. rewrite collide_unshielded; try assumption.
    - now rewrite Hhit.
    - now rewrite Hhit, Hsl. }
  split; [now rewrite Hhit|]. split; [|split; [|split; [|split]]].
  - intros y j. split; [unfold obstacleHit; now rewrite Hsub|reflexivity].
  - split.
    + intro Hc. destruct (isSliding (gameData a)) eqn:Hsl; [reflexivity|].
      exfalso.
      destruct (Qlt_le_dec 0 (shieldTimer (gameData a))) as [Hs|Hs].
      * rewrite (Hcrash eq_refl Hs) in Hc.
        apply (f_equal (fun p => List.length (soundLog (fst p)))) in Hc.
        cbn in Hc. rewrite length_app in Hc. cbn in Hc. lia.
      * rewrite (Hover eq_refl Hs) in Hc.
        apply (f_equal (fun p => List.length (soundLog (fst p)))) in Hc.
        cbn in Hc. rewrite !length_app in Hc. cbn in Hc. lia.
    + intro Hsl. unfold collide. now rewrite Hal, Hty, Hhit, Hsl.
  - exact Hcrash.
  - exact Hover.
  - intros Hr Hj. destruct (reachable_Inv a Hr) as (_ & Hf & _).
    rewrite Hj in Hf. exact Hf.
Qed.

(** A player in mid-jump meets a gate. *)
Lemma slide_clearance_witness :
  isJumping (gameData jumpStart) = true /\
  gameStateRef (fst (collide jumpStart gate)) = GAMEOVER /\
  UI.deathReason (ui (fst (collide jumpStart gate))) = "HIT HEAD ON GATE"%string.
Proof.
  assert (H1 : aligned (gameData jumpStart) gate = true) by (vm_compute; reflexivity).
  destruct (slide_clearance jumpStart gate H1 eq_refl eq_refl)
    as (_ & _ & _ & _ & Hover & Hjump).
  assert (Hr : reachable jumpStart).
  { apply reach_key, reach_remount, reach_start, reach_mount. }
  assert (Hj : isJumping (gameData jumpStart) = true) by (vm_compute; reflexivity).
  assert (Hs : shieldTimer (gameData jumpStart) <= 0) by (vm_compute; discriminate).
  rewrite (Hover (Hjump Hr Hj) Hs).
  split; [exact Hj|]. split; reflexivity.
Defined.

(** ** C9: the loop after game over *)

(** C9: once an object of the frame has ended the game, the loop still
    handles the objects after it as before: a lined-up coin is
    collected and counted, and a lined-up obstacle that hits sounds the
    game-over cues again and replaces the death reason with its own. *)
Theorem loop_runs_on_after_game_over
    (m : Q) (a : App) (pre post : list GameObj) (obj : GameObj) :
  let acc1 := fold_left (stepObject m) pre (a, []) in
  let a1 := fst acc1 in
  let obj' := Obj.set_z (Obj.z obj + m) obj in
  gameStateRef a1 = GAMEOVER ->
  Obj.active obj = true ->
  Obj.z obj' <= 25 ->
  aligned (gameData a1) obj' = true ->
  let acc2 := stepObject m acc1 obj in
  let a2 := fst acc2 in
  fold_left (stepObject m) (pre ++ obj :: post) (a, [])
  = fold_left (stepObject m) post acc2 /\
  (Obj.type obj = COIN ->
   acc2 = (sound playCoin (setCoins (fun c => c + 1)%Z a1),
           snd acc1 ++ [Obj.set_active false obj']) /\
   UI.coins (ui a2) = (UI.coins (ui a1) + 1)%Z) /\
  (Obj.type obj = OBSTACLE ->
   fst (obstacleHit (gameData a1) obj') = true ->
   shieldTimer (gameData a1) <= 0 ->
   acc2 = (setGameState GAMEOVER
             (setDeathReason (snd (obstacleHit (gameData a1) obj'))
                (set_gameStateRef GAMEOVER
                   (sound playGameOver (sound stopBGM a1)))),
           snd acc1 ++ [obj']) /\
   gameStateRef a2 = GAMEOVER /\
   UI.deathReason (ui a2) = snd (obstacleHit (gameData a1) obj') /\
   soundLog a2 = soundLog a1 ++ [stopBGM; playGameOver]).
Proof.
  cbn zeta. intros Hg Hact Hz Hal.
  split; [now rewrite fold_left_app|].
  destruct (fold_left (stepObject m) pre (a, [])) as [a1 next].
  cbn [fst snd] in *. unfold stepObject. rewrite Hact. cbn [negb].
  apply Qltb_ge in Hz. rewrite Hz. split.
  - intro Hty. rewrite (collide_coin _ _ Hal Hty). split; reflexivity.
  - intros Hty Hhit Hs.
    rewrite (collide_unshielded _ _ Hal Hty Hhit Hs). cbn.
    repeat split; try reflexivity.
    now rewrite <- app_assoc.
Qed.

(** The wall ends the game, the coin behind it is still counted, and
    the log behind that replaces the death reason. *)
Lemma loop_runs_on_after_game_over_witness :
  gameStateRef pileUp = PLAYING /\
  gameStateRef (frameOf 0.01 pileUp) = GAMEOVER /\
  UI.coins (ui (frameOf 0.01 pileUp)) = 1%Z /\
  UI.deathReason (ui (frameOf 0.01 pileUp)) = "TRIPPED ON LOG"%string /\
  UI.coins
    (ui (fst (stepObject 0.2 (fold_left (stepObject 0.2) [wall] (fresh, [])) coin)))
  = 1%Z.
Proof.
  do 4 (split; [vm_compute; reflexivity|]).
  pose proof (loop_runs_on_after_game_over 0.2 fresh [wall] [log] coin) as H.
  cbn zeta in H.
  assert (H1 : gameStateRef (fst (fold_left (stepObject 0.2) [wall] (fresh, [])))
               = GAMEOVER) by (vm_compute; reflexivity).
  assert (H2 : Obj.z (Obj.set_z (Obj.z coin + 0.2) coin) <= 25)
    by (vm_compute; discriminate).
  assert (H3 : aligned
                 (gameData (fst (fold_left (stepObject 0.2) [wall] (fresh, []))))
                 (Obj.set_z (Obj.z coin + 0.2) coin) = true)
    by (vm_compute; reflexivity).
  destruct (H H1 eq_refl H2 H3) as (_ & Hcoin & _).
  destruct (Hcoin eq_refl) as [_ Hc]. rewrite Hc. vm_compute. reflexivity.
Defined.

(** ** Frames run to their end *)




(** ** C8: the window of segments, in double precision *)

(** *** Rounding *)

Lemma rne_error y :
  - (1 # 2) <= inject_Z (Double.rne y) - y /\ inject_Z (Double.rne y) - y <= 1 # 2.
Proof.
  unfold Double.rne.
  pose proof (Qfloor_le y) as Hl. pose proof (Qlt_floor y) as Hu.
  rewrite inject_Z_plus in Hu. change (inject_Z 1) with 1 in Hu.
  destruct (Qcompare_spec (y - inject_Z (Qfloor y)) (1 # 2)) as [E|E|E].
  - destruct (Z.even (Qfloor y)).
    + split; lra.
    + rewrite inject_Z_plus. change (inject_Z 1) with 1. split; lra.
  - split; lra.
  - rewrite inject_Z_plus. change (inject_Z 1) with 1. split; lra.
Qed.

Lemma rne_nonneg y : 0 <= y -> (0 <= Double.rne y)%Z.
Proof.
  intro H. unfold Double.rne.
  assert (Hf : (0 <= Qfloor y)%Z).
  { change 0%Z with (Qfloor 0). now apply Qfloor_resp_le. }
  destruct (Qcompare _ _); [destruct (Z.even _)|..]; lia.
Qed.

Lemma ilog2_small x : ~ x == 0 -> Qabs x < 256 -> (Double.ilog2 x <= 7)%Z.
Proof.
  intros Hx Hb. unfold Double.ilog2.
  set (k := (Z.log2 (Z.abs (Qnum x)) - Z.log2 (Z.pos (Qden x)))%Z).
  destruct (Qle_bool (2 ^ k) (Qabs x)) eqn:E.
  - apply Qle_bool_iff in E.
    assert (H : 2 ^ k < 2 ^ 8) by (change (2 ^ 8) with 256; lra).
    apply Qpower_lt_compat_l_inv in H; [lia|reflexivity].
  - destruct x as [n d]. cbn [Qnum Qden] in k.
    assert (Hn : (0 < Z.abs n)%Z).
    { destruct (Z.eq_dec n 0) as [->|]; [|lia]. exfalso. apply Hx. reflexivity. }
    assert (Hlt : (Z.abs n < 256 * Z.pos d)%Z).
    { unfold Qlt in Hb. cbn in Hb. lia. }
    destruct (Z.log2_spec (Z.pos d)) as [_ Hd]; [lia|].
    assert (H2 : (Z.abs n < 2 ^ (Z.log2 (Z.pos d) + 9))%Z).
    { pose proof (Z.log2_nonneg (Z.pos d)).
      rewrite Z.pow_add_r by lia. change (2 ^ 9)%Z with 512%Z.
      replace (Z.succ (Z.log2 (Z.pos d))) with (Z.log2 (Z.pos d) + 1)%Z in Hd by lia.
      rewrite Z.pow_add_r in Hd by lia. change (2 ^ 1)%Z with 2%Z in Hd. lia. }
    apply Z.log2_lt_pow2 in H2; [|exact Hn]. subst k. lia.
Qed.

Lemma round_eq x :
  ~ x == 0 ->
  let e := Z.max (Double.ilog2 x - 52) (-1074) in
  Double.round x == inject_Z (Double.rne (x / 2 ^ e)) * 2 ^ e.
Proof.
  intro Hx. cbn zeta. unfold Double.round.
  destruct (Qeq_bool x 0) eqn:E; [apply Qeq_bool_iff in E; contradiction|].
  apply Qred_correct.
Qed.

(** Rounding a number below 256 moves it by [2 ^ -46] at most. *)
Lemma round_error x :
  Qabs x < 256 ->
  - (gapDrift * (1 # 2)) <= Double.round x - x /\ Double.round x - x <= gapDrift * (1 # 2).
Proof.
  intro Hb. destruct (Qeq_dec x 0) as [E0|E0].
  - unfold Double.round. rewrite (proj2 (Qeq_bool_iff x 0) E0).
    unfold gapDrift. split; lra.
  - rewrite (round_eq x E0). cbn zeta.
    set (e := Z.max (Double.ilog2 x - 52) (-1074)).
    assert (He : (e <= -45)%Z) by (pose proof (ilog2_small x E0 Hb); lia).
    assert (Hp : 0 < 2 ^ e) by (apply Qpower_0_lt; reflexivity).
    assert (Hq : 2 ^ e <= gapDrift).
    { change gapDrift with (2 ^ (-45)).
      apply Qpower_le_compat_l; [exact He|discriminate]. }
    destruct (rne_error (x / 2 ^ e)) as [Hl Hu].
    assert (Ex : x == (x / 2 ^ e) * 2 ^ e) by (field; lra).
    generalize dependent (inject_Z (Double.rne (x / 2 ^ e))). intros r Hl Hu.
    generalize dependent (x / 2 ^ e). intros y Ex Hl Hu.
    generalize dependent (2 ^ e). intros p Hp Hq Ex.
    unfold gapDrift in *. split; nra.
Qed.

Lemma round_nonneg x : 0 <= x -> 0 <= Double.round x.
Proof.
  intro H. destruct (Qeq_dec x 0) as [E0|E0].
  - unfold Double.round. rewrite (proj2 (Qeq_bool_iff x 0) E0). lra.
  - rewrite (round_eq x E0). cbn zeta.
    set (e := Z.max (Double.ilog2 x - 52) (-1074)).
    assert (Hp : 0 < 2 ^ e) by (apply Qpower_0_lt; reflexivity).
    assert (Hy : 0 <= x / 2 ^ e).
    { apply Qle_shift_div_l; [exact Hp|]. lra. }
    apply rne_nonneg in Hy. rewrite Zle_Qle in Hy.
    change (inject_Z 0) with 0 in Hy.
    generalize dependent (inject_Z (Double.rne (x / 2 ^ e))). intros.
    generalize dependent (2 ^ e). intros. nra.
Qed.

(** *** The track *)

Lemma Qabs_lt x y : - y < x -> x < y -> Qabs x < y.
Proof. intros H1 H2. apply Qabs_Qlt_condition. now split. Qed.

Lemma round_literals :
  0 <= Double.round 0.1 /\ Double.round 0.1 <= 0.11 /\
  0 <= Double.round SPEED_INC /\ Double.round SPEED_INC <= 0.81.
Proof. repeat split; vm_compute; discriminate. Qed.

(** The speed stays within its bounds and a frame scrolls by less
    than 7. *)
Lemma frameMoveZ_range e a :
  0 <= e ->
  0 <= speed (gameData a) -> speed (gameData a) <= MAX_SPEED ->
  let s' := speed (gameData (Double.updateSpeed (Double.frameDelta e) a)) in
  0 <= s' /\ s' <= MAX_SPEED /\
  0 <= Double.frameMoveZ e a /\ Double.frameMoveZ e a < 7.
Proof.
  intros He H0 H1. unfold Double.frameMoveZ. cbn zeta.
  destruct round_literals as (L1 & L2 & L3 & L4).
  assert (Hd : 0 <= Double.frameDelta e /\ Double.frameDelta e <= 0.11).
  { unfold Double.frameDelta.
    destruct (Q.min_spec e (Double.round 0.1)) as [[D1 D2]|[D1 D2]]; split; lra. }
  destruct Hd as [D0 D1].
  generalize dependent (Double.frameDelta e). intros delta D0 D1.
  assert (Hs : 0 <= speed (gameData (Double.updateSpeed delta a)) /\
               speed (gameData (Double.updateSpeed delta a)) <= MAX_SPEED).
  { change (speed (gameData (Double.updateSpeed delta a)))
      with (Qmin (Double.add (speed (gameData a))
                    (Double.mul (Double.round SPEED_INC) delta)) MAX_SPEED).
    unfold Double.add, Double.mul.
    assert (Hc : 0 <= Double.round (Double.round SPEED_INC * delta))
      by (apply round_nonneg; nra).
    assert (Hr : 0 <= Double.round
                        (speed (gameData a)
                         + Double.round (Double.round SPEED_INC * delta)))
      by (apply round_nonneg; lra).
    unfold MAX_SPEED in *.
    destruct (Q.min_spec
                (Double.round
                   (speed (gameData a)
                    + Double.round (Double.round SPEED_INC * delta))) 60)
      as [[M1 M2]|[M1 M2]]; split; lra. }
  destruct Hs as [S0 S1].
  generalize dependent (speed (gameData (Double.updateSpeed delta a))).
  intros s' S0 S1. unfold MAX_SPEED in *.
  split; [exact S0|]. split; [exact S1|].
  unfold Double.mul.
  assert (Hp : 0 <= s' * delta /\ s' * delta <= 6.6) by (split; nra).
  split; [apply round_nonneg; lra|].
  destruct (round_error (s' * delta)) as [_ Hu];
    [apply Qabs_lt; lra|].
  unfold gapDrift in Hu. lra.
Qed.

Lemma spacedWithin_tail d s t : spacedWithin d (s :: t) -> spacedWithin d t.
Proof. now intros [_ H]. Qed.

Lemma spacedWithin_tl d l : spacedWithin d l -> spacedWithin d (tl l).
Proof. destruct l; [easy|]. apply spacedWithin_tail. Qed.

Lemma spacedWithin_app d l zv :
  spacedWithin d l ->
  (forall far, lastOf l = Some far -> 20 - d <= far - zv /\ far - zv <= 20 + d) ->
  spacedWithin d (l ++ [zv]).
Proof.
  induction l as [|s t IH]; intros Hs Hl.
  - cbn. easy.
  - destruct Hs as [H Ht]. cbn [app]. split.
    + destruct t as [|s' t]; cbn.
      * apply Hl. reflexivity.
      * exact H.
    + apply IH; [exact Ht|]. intros far Hfar. apply Hl.
      rewrite lastOf_cons. destruct t; [discriminate|exact Hfar].
Qed.

(** Scrolling in double precision moves each gap by two roundings. *)
Lemma spacedWithin_scroll m d l :
  Forall (fun s => Qabs (s + m) < 256) l ->
  spacedWithin d l ->
  spacedWithin (d + gapDrift) (map (fun s => Double.add s m) l).
Proof.
  induction l as [|s t IH]; [easy|].
  intros Hb [H Ht]. inversion Hb as [|? ? Hs Hbt]; subst.
  split; [|now apply IH].
  destruct t as [|s' t]; [easy|].
  inversion Hbt as [|? ? Hs' _]; subst. cbn [map]. unfold Double.add.
  destruct (round_error (s + m) Hs). destruct (round_error (s' + m) Hs').
  split; lra.
Qed.

(** A track spaced to within 1 runs from its head down to its last
    segment. *)
Lemma spacedWithin_range d : forall l head far,
  d <= 1 -> spacedWithin d l ->
  hd_error l = Some head -> lastOf l = Some far ->
  Forall (fun s => far <= s /\ s <= head) l.
Proof.
  induction l as [|s t IH]; intros head far Hd Hs Hh Hl; [constructor|].
  cbn in Hh. injection Hh as ->.
  destruct t as [|s' t].
  - cbn in Hl. injection Hl as ->. constructor; [split; lra|constructor].
  - destruct Hs as [[H1 H2] Ht].
    rewrite lastOf_cons in Hl.
    pose proof (IH s' far Hd Ht eq_refl Hl) as HF.
    assert (Hfs : far <= s') by (inversion HF; subst; tauto).
    constructor; [split; lra|].
    eapply Forall_impl; [|exact HF]. cbn. intros x [X1 X2]. split; lra.
Qed.

Lemma ExtendsRounded_app l l' :
  ExtendsRounded l l' -> exists added, l' = l ++ added.
Proof.
  induction 1 as [l|l far l' _ _ [added ->]].
  - exists []. now rewrite app_nil_r.
  - exists ([Double.sub far 20] ++ added). now rewrite app_assoc.
Qed.

(** The loop in double precision: it appends segments at the double
    nearest to [farthest - 20], keeps the spacing to within [d], and
    stops because its test fails. *)
Lemma extendLoop_rounded n : forall a zv d,
  lastSegment a = Some zv ->
  zv + 160 <= inject_Z (Z.of_nat n) -> zv <= 100 ->
  gapDrift <= d ->
  spacedWithin d (segments (gameData a)) ->
  ExtendsRounded (segments (gameData a))
    (segments (gameData (Double.extendLoop n a))) /\
  spacedWithin d (segments (gameData (Double.extendLoop n a))) /\
  exists far,
    lastSegment (Double.extendLoop n a) = Some far /\ far <= -160 /\
    (far = zv \/ -180 - gapDrift <= far).
Proof.
  induction n as [|n IH]; intros a zv d Hl Hn Hz Hd Hs.
  - apply rounds_zero in Hn. cbn [Double.extendLoop].
    split; [constructor|]. split; [exact Hs|]. exists zv.
    split; [exact Hl|]. split; [exact Hn|now left].
  - cbn [Double.extendLoop]. rewrite Hl. destruct (-160 <? zv) eqn:E; qprop.
    + destruct (round_error (zv - 20)) as [R1 R2]; [apply Qabs_lt; lra|].
      fold (Double.sub zv 20) in R1, R2.
      assert (Hg : gapDrift == 1 # 35184372088832) by reflexivity.
      destruct (IH (spawnSegment (Double.sub zv 20) a) (Double.sub zv 20) d)
        as (H1 & H2 & far & H3 & H4 & H5).
      * apply lastSegment_spawnSegment.
      * rewrite Nat2Z.inj_succ in Hn. unfold Z.succ in Hn.
        rewrite inject_Z_plus in Hn. change (inject_Z 1) with 1 in Hn. lra.
      * lra.
      * exact Hd.
      * rewrite segments_spawnSegment. apply spacedWithin_app; [exact Hs|].
        intros far Hfar. unfold lastSegment in Hl. rewrite Hl in Hfar.
        injection Hfar as <-. split; lra.
      * rewrite segments_spawnSegment in H1.
        split; [eapply ExtendsRounded_spawn; [exact Hl|exact H1]|].
        split; [exact H2|]. exists far. split; [exact H3|]. split; [exact H4|].
        right. destruct H5 as [-> | H5]; lra.
    + split; [constructor|]. split; [exact Hs|]. exists zv.
      split; [exact Hl|]. split; [exact E|now left].
Qed.

Lemma offTrack_extendLoop_rounded n : forall a,
  offTrack (Double.extendLoop n a) = offTrack a.
Proof.
  induction n as [|n IH]; intro a; [reflexivity|].
  cbn [Double.extendLoop]. destruct (lastSegment a) as [zv|]; [|reflexivity].
  destruct (-160 <? zv); [|reflexivity].
  now rewrite IH, offTrack_spawnSegment.
Qed.

(** C8, as claimed, fails in double precision.  On the first frame
    after the start button, at the full delta, the segments the frame
    ends with are not exactly 20 apart: the third one lies more than 20
    beyond the second. *)
Lemma segment_gap_not_exact :
  exists a' s0 s1 s2 rest,
    Double.track 0.5 fresh = Some a' /\
    segments (gameData a') = s0 :: s1 :: s2 :: rest /\
    20 < s1 - s2 /\
    ~ spaced (segments (gameData a')).
Proof.
  let v := eval vm_compute in
             (option_map (fun a => segments (gameData a))
                (Double.track 0.5 fresh)) in
  assert (E : option_map (fun a => segments (gameData a))
                (Double.track 0.5 fresh) = v)
    by (vm_compute; reflexivity).
  destruct (Double.track 0.5 fresh) as [a'|]; [|discriminate].
  cbn [option_map] in E. injection E as E.
  eexists a', _, _, _, _. split; [reflexivity|]. split; [exact E|].
  split; [reflexivity|].
  rewrite E. intros (_ & H & _). revert H. vm_compute. discriminate.
Qed.

(** C8, amended: a frame of a game that is being played, run in double
    precision on a track whose segments are 20 apart to within [d],
    runs to its end; then the last segment is at -160 or beyond, the
    segments are 20 apart to within [d + 2 ^ -45], and they are those
    the frame began with, advanced by the scroll distance, less the
    first one when that one was dropped, followed by new ones, each
    created at the double nearest to 20 beyond the one that was last at
    that time.  The track and the speed are again as the frame
    requires them. *)
Theorem segment_window_rounded (a : App) (e d : Q) :
  gameStateRef a = PLAYING ->
  0 <= e ->
  0 <= speed (gameData a) -> speed (gameData a) <= MAX_SPEED ->
  Track d (segments (gameData a)) ->
  d + gapDrift <= 1 ->
  exists a',
    Double.track e a = Some a' /\
    (exists far, lastSegment a' = Some far /\ far <= -160) /\
    spacedWithin (d + gapDrift) (segments (gameData a')) /\
    (exists kept,
       (kept = map (fun s => Double.add s (Double.frameMoveZ e a))
                 (segments (gameData a)) \/
        kept = tl (map (fun s => Double.add s (Double.frameMoveZ e a))
                     (segments (gameData a)))) /\
       ExtendsRounded kept (segments (gameData a'))) /\
    Track (d + gapDrift) (segments (gameData a')) /\
    0 <= speed (gameData a') /\ speed (gameData a') <= MAX_SPEED.
Proof.
  intros Hp He S0 S1 (Hd0 & Hsp & head & far & Hh & Hl & Hh80 & Hf1 & Hf2) Hd1.
  destruct (frameMoveZ_range e a He S0 S1) as (V0 & V1 & M0 & M1).
  cbn zeta in V0, V1.
  assert (Hg : gapDrift == 1 # 35184372088832) by reflexivity.
  pose proof (spacedWithin_range d _ head far ltac:(lra) Hsp Hh Hl) as HR.
  set (m := Double.frameMoveZ e a) in *.
  set (a1 := Double.updateSpeed (Double.frameDelta e) a) in *.
  assert (Et : Double.track e a
               = Double.infiniteBridge (Double.worldMove m a1))
    by (unfold Double.track; rewrite Hp; reflexivity).
  assert (Es : segments (gameData (Double.worldMove m a1))
               = map (fun s => Double.add s m) (segments (gameData a)))
    by reflexivity.
  assert (Ev : forall b, speed (gameData b) = speed (gameData a1) ->
                 0 <= speed (gameData b) /\ speed (gameData b) <= MAX_SPEED)
    by (intros b ->; now split).
  assert (HB : Forall (fun s => Qabs (s + m) < 256) (segments (gameData a))).
  { eapply Forall_impl; [|exact HR]. cbv beta. intros s [X1 X2].
    apply Qabs_lt; lra. }
  pose proof (spacedWithin_scroll m d _ HB Hsp) as Hsc.
  (* the last segment after the scroll *)
  assert (Hfar : far <= head /\ Qabs (far + m) < 256).
  { destruct (segments (gameData a)) as [|s0 rest]; [discriminate|].
    cbn in Hh. injection Hh as ->.
    assert (In far (head :: rest)).
    { unfold lastOf in Hl. destruct (rev (head :: rest)) as [|x r] eqn:Er;
        [discriminate|]. injection Hl as ->.
      apply in_rev. rewrite Er. now left. }
    rewrite Forall_forall in HR, HB. split; [apply (HR head); now left|].
    now apply HB. }
  destruct Hfar as [Hfh Hfb].
  destruct (round_error (far + m) Hfb) as [F1 F2].
  fold (Double.add far m) in F1, F2.
  (* what is kept of the scrolled track *)
  assert (HK : exists b kept,
    Double.infiniteBridge (Double.worldMove m a1) = Double.extendTrack b /\
    speed (gameData b) = speed (gameData a1) /\
    segments (gameData b) = kept /\
    (kept = map (fun s => Double.add s m) (segments (gameData a)) \/
     kept = tl (map (fun s => Double.add s m) (segments (gameData a)))) /\
    lastOf kept = Some (Double.add far m) /\
    exists head', hd_error kept = Some head' /\ head' <= 80).
  { unfold Double.infiniteBridge. rewrite Es.
    destruct (segments (gameData a)) as [|s0 rest] eqn:Eseg; [discriminate|].
    cbn in Hh. injection Hh as ->. cbn [map].
    assert (Hlm : lastOf (map (fun s => Double.add s m) (head :: rest))
                  = Some (Double.add far m))
      by (rewrite lastOf_map, Hl; reflexivity).
    inversion HB as [|? ? Hb0 HBr]; subst.
    destruct (round_error (head + m) Hb0) as [G1 G2].
    fold (Double.add head m) in G1, G2.
    destruct (80 <? Double.add head m) eqn:E80; qprop.
    - destruct rest as [|s1 rest].
      + cbn in Hl. injection Hl as <-. lra.
      + eexists _, _. split; [reflexivity|]. split; [reflexivity|].
        split; [reflexivity|]. split; [right; reflexivity|].
        split.
        * cbn [map] in Hlm. rewrite lastOf_cons in Hlm. exact Hlm.
        * exists (Double.add s1 m). split; [reflexivity|].
          destruct Hsp as [[P1 P2] _].
          inversion HBr as [|? ? Hb1 _]; subst.
          destruct (round_error (s1 + m) Hb1) as [_ G3].
          fold (Double.add s1 m) in G3. lra.
    - eexists _, _. split; [reflexivity|]. split; [reflexivity|].
      split; [exact Es|]. split; [left; reflexivity|].
      split; [exact Hlm|].
      exists (Double.add head m). split; [reflexivity|exact E80]. }
  destruct HK as (b & kept & Eb & Esb & Ek & Hk & Hlk & head' & Hhk & Hh'80).
  assert (Hsk : spacedWithin (d + gapDrift) kept).
  { destruct Hk as [-> | ->]; [exact Hsc|now apply spacedWithin_tl]. }
  assert (Hlb : lastSegment b = Some (Double.add far m))
    by (unfold lastSegment; now rewrite Ek).
  destruct (extendLoop_rounded (rounds (Double.add far m)) b
              (Double.add far m) (d + gapDrift) Hlb
              (rounds_enough _) ltac:(lra) ltac:(lra)
              ltac:(rewrite Ek; exact Hsk))
    as (X1 & X2 & far' & X3 & X4 & X5).
  rewrite Ek in X1.
  exists (Double.extendLoop (rounds (Double.add far m)) b).
  split; [rewrite Et, Eb; unfold Double.extendTrack; now rewrite Hlb|].
  split; [exists far'; now split|]. split; [exact X2|].
  split; [exists kept; now split|].
  assert (Hhd : hd_error (segments (gameData
                  (Double.extendLoop (rounds (Double.add far m)) b)))
                = Some head').
  { destruct (ExtendsRounded_app _ _ X1) as [added ->].
    destruct kept; [discriminate|exact Hhk]. }
  split.
  - split; [lra|]. split; [exact X2|]. exists head', far'.
    split; [exact Hhd|]. split; [exact X3|]. split; [exact Hh'80|].
    split; [lra|]. destruct X5 as [-> | X5]; lra.
  - apply Ev. rewrite <- Esb.
    destruct (pose_fields _ _ (pose_offTrack _ _
                (offTrack_extendLoop_rounded
                   (rounds (Double.add far m)) b)))
      as (_ & _ & _ & _ & _ & _ & _ & Hv & _).
    exact Hv.
Qed.

(** The first frame after the start button, at the full delta. *)
Lemma segment_window_rounded_witness :
  exists a',
    Double.track 0.5 fresh = Some a' /\
    (exists far, lastSegment a' = Some far /\ far <= -160) /\
    spacedWithin (0 + gapDrift) (segments (gameData a')).
Proof.
  assert (Hp : gameStateRef fresh = PLAYING) by (vm_compute; reflexivity).
  assert (He : 0 <= 0.5) by (vm_compute; discriminate).
  assert (S0 : 0 <= speed (gameData fresh)) by (vm_compute; discriminate).
  assert (S1 : speed (gameData fresh) <= MAX_SPEED)
    by (vm_compute; discriminate).
  assert (Eseg : segments (gameData fresh)
                 = [80; 60; 40; 20; 0; -20; -40; -60; -80; -100; -120; -140])
    by (vm_compute; reflexivity).
  assert (HT : Track 0 (segments (gameData fresh))).
  { rewrite Eseg. split; [vm_compute; discriminate|]. split.
    - cbn [spacedWithin]. repeat split; vm_compute; discriminate.
    - exists 80, (-140). repeat split; vm_compute; discriminate. }
  assert (Hd : 0 + gapDrift <= 1) by (vm_compute; discriminate).
  destruct (segment_window_rounded fresh 0.5 0 Hp He S0 S1 HT Hd)
    as (a' & Ha & Hfar & Hs & _).
  exists a'. split; [exact Ha|]. split; [exact Hfar|exact Hs].
Defined.

(** * Further properties *)

(** ** Speed and score *)

Lemma speed_handleKey key a :
  speed (gameData (handleKey key a)) = speed (gameData a).
Proof.
  unfold handleKey. destruct (gameStateRef a); try reflexivity.
  repeat match goal with
    | |- context [if ?c then _ else _] => destruct c
    end; reflexivity.
Qed.

Lemma speed_le_max a : reachable a -> speed (gameData a) <= MAX_SPEED.
Proof.
  induction 1 as [r|a _ IH|key a _ IH|a _ IH|e a a' _ IH He Ha].
  - unfold mount, effect.
    destruct (pose_fields _ _ (pose_offTrack _ _ (offTrack_initWorld (initialApp r))))
      as (_ & _ & _ & _ & _ & _ & _ & -> & _).
    cbn. unfold RUN_SPEED_START, MAX_SPEED. lra.
  - unfold remount, effect.
    destruct (pose_fields _ _
                (pose_offTrack _ _ (offTrack_initWorld (effectCleanup a))))
      as (_ & _ & _ & _ & _ & _ & _ & -> & _).
    exact IH.
  - now rewrite speed_handleKey.
  - cbn. unfold RUN_SPEED_START, MAX_SPEED. lra.
  - destruct (gameStateRef a) eqn:Hp;
      try (unfold animate in Ha; rewrite Hp in Ha; injection Ha as <-; exact IH).
    destruct (pose_animate _ _ _ Hp Ha) as (a1 & E1 & P).
    destruct (pose_fields _ _ P) as (_ & _ & _ & _ & _ & _ & _ & -> & _).
    destruct (player_step _ _ _ E1) as (_ & _ & -> & _).
    apply Q.le_min_r.
Qed.

(** X1: in every reachable game the speed lies between the starting
    speed and the cap; a frame never lowers it, and while playing it
    sets it to the old speed plus [SPEED_INC] times the delta, cut off
    at the cap. *)
Theorem speed_capped (a : App) (e : Q) (a' : App) :
  reachable a ->
  0 <= e ->
  animate e a = Some a' ->
  RUN_SPEED_START <= speed (gameData a) /\
  speed (gameData a) <= speed (gameData a') /\
  speed (gameData a') <= MAX_SPEED /\
  (gameStateRef a = PLAYING ->
   speed (gameData a')
   = Qmin (speed (gameData a) + SPEED_INC * frameDelta e) MAX_SPEED).
Proof.
  intros Hr He Ha.
  destruct (reachable_Inv a Hr) as (_ & _ & Hlo & _).
  pose proof (speed_le_max a Hr) as Hhi.
  pose proof (speed_le_max a' (reach_frame e a a' Hr He Ha)) as Hhi'.
  split; [exact Hlo|].
  destruct (gameStateRef a) eqn:Hp;
    try (unfold animate in Ha; rewrite Hp in Ha; injection Ha as <-;
         repeat split; try lra; discriminate).
  destruct (pose_animate _ _ _ Hp Ha) as (a1 & E1 & P).
  destruct (pose_fields _ _ P) as (_ & _ & _ & _ & _ & _ & _ & Hs & _).
  destruct (player_step _ _ _ E1) as (_ & _ & Hs1 & _).
  cbn zeta in Hs. rewrite Hs1 in Hs.
  pose proof (frameDelta_range e He) as Hd.
  split; [|split; [exact Hhi'|intros _; exact Hs]].
  rewrite Hs. unfold SPEED_INC, MAX_SPEED in *. apply Q.min_glb; lra.
Qed.

(** After one frame of 0.1 s the speed is 20.08. *)
Lemma speed_capped_witness :
  speed (gameData (frameOf 0.1 fresh)) == 20.08.
Proof.
  assert (Hr : reachable fresh).
  { apply reach_remount, reach_start, reach_mount. }
  assert (He : 0 <= 0.1) by (vm_compute; discriminate).
  assert (Ha : animate 0.1 fresh = Some (frameOf 0.1 fresh))
    by (vm_compute; reflexivity).
  destruct (speed_capped fresh 0.1 _ Hr He Ha) as (_ & _ & _ & H).
  rewrite H by (vm_compute; reflexivity). vm_compute. reflexivity.
Defined.

Lemma hudScore_collide a obj :
  UI.score (ui (fst (collide a obj))) = UI.score (ui a).
Proof.
  unfold collide. destruct (aligned (gameData a) obj); [|reflexivity].
  destruct (Obj.type obj); try reflexivity.
  destruct (obstacleHit (gameData a) obj) as [[] reason]; [|reflexivity].
  destruct (0 <? shieldTimer (gameData a)); reflexivity.
Qed.

Lemma hudScore_forEach m l : forall acc,
  UI.score (ui (fst (fold_left (stepObject m) l acc))) = UI.score (ui (fst acc)).
Proof.
  induction l as [|obj l IH]; intro acc; [reflexivity|].
  cbn [fold_left]. rewrite IH. unfold stepObject. destruct acc as [a next].
  destruct (negb (Obj.active obj)); [reflexivity|].
  destruct (25 <? _); [reflexivity|].
  pose proof (hudScore_collide a (Obj.set_z (Obj.z obj + m) obj)) as H.
  destruct (collide a _) as [a' obj']. exact H.
Qed.

Lemma hudScore_updateObjects m a :
  UI.score (ui (updateObjects m a)) = UI.score (ui a).
Proof.
  unfold updateObjects. pose proof (hudScore_forEach m (objects (gameData a)) (a, [])) as H.
  destruct (fold_left _ _ _) as [a' next]. exact H.
Qed.

Lemma score_step delta a a1 :
  playerMove delta (updateShield delta (updateSpeedAndScore delta a)) = Some a1 ->
  score (gameData a1)
  = score (gameData a)
    + Qmin (speed (gameData a) + SPEED_INC * delta) MAX_SPEED * delta /\
  UI.score (ui a1) = Qfloor (score (gameData a1)).
Proof.
  unfold playerMove. destruct (LANES_at _); [|discriminate].
  intros [= <-]. unfold updateShield.
  repeat match goal with
    | |- context [if ?c then _ else _] => destruct c
    end; split; reflexivity.
Qed.

(** X2: a frame of a game that is being played adds the new speed times
    the delta to the score and shows its integer part in the HUD; in a
    reachable game the score does not go down. *)
Theorem score_accumulates (a : App) (e : Q) (a' : App) :
  gameStateRef a = PLAYING ->
  animate e a = Some a' ->
  score (gameData a') = score (gameData a) + frameSpeed e a * frameDelta e /\
  UI.score (ui a') = Qfloor (score (gameData a')) /\
  (reachable a -> 0 <= e -> score (gameData a) <= score (gameData a')).
Proof.
  intros Hp Ha.
  destruct (animate_playing _ _ _ Hp Ha) as (a1 & a2 & E1 & E2 & ->).
  destruct (score_step _ _ _ E1) as (Hs & Hu).
  pose proof (offTrack_infiniteBridge _ _ E2) as Hoff.
  assert (T1 : score (gameData a2) = score (gameData a1))
    by exact (offTrack_field (fun x => score (gameData x)) _ _ Hoff).
  assert (T2 : ui a2 = ui a1) by exact (offTrack_field ui _ _ Hoff).
  destruct (pose_fields _ _ (pose_offPlay _ _ (offPlay_updateObjects (frameMoveZ e a) a2)))
    as (_ & _ & _ & _ & _ & _ & _ & _ & P).
  cbn zeta in P. rewrite hudScore_updateObjects, P, T1, T2, Hu, Hs.
  split; [reflexivity|]. split; [reflexivity|].
  intros Hr He. destruct (reachable_Inv a Hr) as (_ & _ & Hlo & _).
  pose proof (frameDelta_range e He) as Hd.
  assert (0 <= Qmin (speed (gameData a) + SPEED_INC * frameDelta e) MAX_SPEED
               * frameDelta e).
  { apply Qmult_le_0_compat; [|lra].
    unfold SPEED_INC, MAX_SPEED, RUN_SPEED_START in *. apply Q.min_glb; lra. }
  lra.
Qed.

(** The first frame of 0.1 s covers 2.008 and the HUD shows 2. *)
Lemma score_accumulates_witness :
  score (gameData (frameOf 0.1 fresh)) == 2.008 /\
  UI.score (ui (frameOf 0.1 fresh)) = 2%Z.
Proof.
  assert (Hp : gameStateRef fresh = PLAYING) by (vm_compute; reflexivity).
  assert (Ha : animate 0.1 fresh = Some (frameOf 0.1 fresh))
    by (vm_compute; reflexivity).
  destruct (score_accumulates fresh 0.1 _ Hp Ha) as (H1 & H2 & _).
  split; [rewrite H1|rewrite H2]; vm_compute; reflexivity.
Defined.

(** ** The player's height and slide timer *)

Lemma PoseInv_pose a b : pose a = pose b -> PoseInv a -> PoseInv b.
Proof.
  intros P H. destruct (pose_fields _ _ P) as (_ & _ & Hy & _ & Hj & Hs & Ht & _).
  unfold PoseInv in *. cbn zeta in *. now rewrite <- Hy, <- Hj, <- Hs, <- Ht.
Qed.

Lemma PoseInv_handleKey key a : PoseInv a -> PoseInv (handleKey key a).
Proof.
  intros HI. pose proof HI as (Hy & Hg & Hs). unfold handleKey.
  destruct (gameStateRef a); try exact HI.
  destruct (String.eqb key "ArrowLeft");
    [destruct (0 <? lane (gameData a))%Z; exact HI|].
  destruct (String.eqb key "ArrowRight");
    [destruct (lane (gameData a) <? 2)%Z; exact HI|].
  destruct (String.eqb key "ArrowUp").
  { destruct (negb (isJumping (gameData a)) && negb (isSliding (gameData a)));
      [|exact HI].
    split; [exact Hy|]. split; [discriminate|exact Hs]. }
  destruct (String.eqb key "ArrowDown"); [|exact HI].
  destruct (isJumping (gameData a)) eqn:Ej; [exact HI|].
  destruct (negb (isSliding (gameData a))); [|exact HI].
  split; [exact Hy|]. split.
  - intros _. apply Hg. reflexivity.
  - intros _. cbn. unfold SLIDE_DURATION. lra.
Qed.

Lemma PoseInv_playerMove delta b a1 :
  0 <= delta ->
  isJumping (gameData b) && isSliding (gameData b) = false ->
  PoseInv b ->
  playerMove delta b = Some a1 ->
  PoseInv a1.
Proof.
  intros Hd Hx (Hy & Hg & Hs). unfold playerMove.
  destruct (LANES_at _); [|discriminate]. intros [= <-]. cbn.
  destruct (isJumping (gameData b)) eqn:Ej.
  - cbn in Hx. cbn.
    destruct (yPos (gameData b) + velocityY (gameData b) * delta <=? 0) eqn:E;
      qprop; unfold PoseInv; cbn; rewrite ?Ej, ?Hx.
    + repeat split; try lra; discriminate.
    + repeat split; try lra; discriminate.
  - destruct (isSliding (gameData b)) eqn:Esl.
    + destruct (Hs eq_refl) as [Ht0 Ht1]. cbn.
      destruct (slideTimer (gameData b) - delta <=? 0) eqn:E;
        qprop; unfold PoseInv; cbn; rewrite ?Ej, ?Esl;
        repeat split; try lra; discriminate.
    + unfold PoseInv; cbn; rewrite ?Ej, ?Esl.
      repeat split; try lra; discriminate.
Qed.

Lemma slideTimer_bookkeeping delta a :
  slideTimer (gameData (updateShield delta (updateSpeedAndScore delta a)))
  = slideTimer (gameData a).
Proof.
  unfold updateShield.
  repeat match goal with
    | |- context [if ?c then _ else _] => destruct c
    end; reflexivity.
Qed.

Lemma PoseInv_animate e a a' :
  Inv a -> PoseInv a -> 0 <= e -> animate e a = Some a' -> PoseInv a'.
Proof.
  intros (_ & Hx & _) HI He Ha.
  destruct (gameStateRef a) eqn:Hp;
    try (unfold animate in Ha; rewrite Hp in Ha; injection Ha as <-; exact HI).
  destruct (pose_animate _ _ _ Hp Ha) as (a1 & E1 & P).
  apply (PoseInv_pose a1 a'); [now symmetry|].
  destruct (bookkeeping_fields (frameDelta e) a) as (_ & _ & B1 & _ & B2 & B3).
  pose proof (slideTimer_bookkeeping (frameDelta e) a) as B4.
  cbn zeta in *.
  apply (PoseInv_playerMove (frameDelta e)
           (updateShield (frameDelta e) (updateSpeedAndScore (frameDelta e) a))
           a1 (proj1 (frameDelta_range e He)));
    [now rewrite B2, B3| |exact E1].
  unfold PoseInv in *. cbn zeta. now rewrite B1, B2, B3, B4.
Qed.

Lemma reachable_PoseInv a : reachable a -> PoseInv a.
Proof.
  induction 1 as [r|a _ IH|key a _ IH|a _ IH|e a a' Hr IH He Ha].
  - apply (PoseInv_pose (initialApp r)).
    + symmetry. apply pose_offTrack, offTrack_initWorld.
    + unfold PoseInv. cbn. repeat split; try lra; discriminate.
  - apply (PoseInv_pose a); [|exact IH].
    symmetry. unfold remount, effect.
    apply (pose_offTrack _ _ (offTrack_initWorld (effectCleanup a))).
  - now apply PoseInv_handleKey.
  - exact IH.
  - exact (PoseInv_animate e a a' (reachable_Inv a Hr) IH He Ha).
Qed.

(** X3: in every reachable game the player is never below the ground,
    and is on it whenever the jumping flag is down, in particular during
    a slide. *)
Theorem height_invariant (a : App) :
  reachable a ->
  0 <= yPos (gameData a) /\
  (isJumping (gameData a) = false -> yPos (gameData a) == 0) /\
  (isSliding (gameData a) = true -> yPos (gameData a) == 0).
Proof.
  intro Hr. destruct (reachable_PoseInv a Hr) as (Hy & Hg & _).
  destruct (reachable_Inv a Hr) as (_ & Hx & _).
  split; [exact Hy|]. split; [exact Hg|].
  intro Hs. apply Hg. rewrite Hs, andb_true_r in Hx. exact Hx.
Qed.

(** The run that ends on a wall in mid-air ends above the ground. *)
Lemma height_invariant_witness : 0 <= yPos (gameData (frames 3 0.1 jumpStart)).
Proof.
  assert (Hr : reachable (frames 3 0.1 jumpStart)).
  { apply reach_frames; [|vm_compute; discriminate].
    apply reach_key, reach_remount, reach_start, reach_mount. }
  exact (proj1 (height_invariant _ Hr)).
Defined.

(** X4: in every reachable game a slide that is under way has between
    0 (excluded) and [SLIDE_DURATION] left on its timer, and the duck
    key on the ground starts one with the full duration. *)
Theorem slide_timer_invariant (a : App) :
  reachable a ->
  (isSliding (gameData a) = true ->
   0 < slideTimer (gameData a) /\ slideTimer (gameData a) <= SLIDE_DURATION) /\
  (gameStateRef a = PLAYING ->
   isJumping (gameData a) = false -> isSliding (gameData a) = false ->
   let a' := handleKey "ArrowDown" a in
   isSliding (gameData a') = true /\
   slideTimer (gameData a') = SLIDE_DURATION /\
   soundLog a' = soundLog a ++ [playSlide]).
Proof.
  intro Hr. destruct (reachable_PoseInv a Hr) as (_ & _ & Hs).
  split; [exact Hs|].
  intros Hp Hj Hsl. unfold handleKey. rewrite Hp. cbn. rewrite Hj, Hsl. cbn.
  repeat split; reflexivity.
Qed.

(** Half a second into a slide the timer is still running. *)
Lemma slide_timer_invariant_witness :
  0 < slideTimer (gameData (frames 5 0.1 (handleKey "ArrowDown" fresh)))
  /\ slideTimer (gameData (frames 5 0.1 (handleKey "ArrowDown" fresh)))
     <= SLIDE_DURATION.
Proof.
  assert (Hr : reachable (frames 5 0.1 (handleKey "ArrowDown" fresh))).
  { apply reach_frames; [|vm_compute; discriminate].
    apply reach_key, reach_remount, reach_start, reach_mount. }
  destruct (slide_timer_invariant _ Hr) as [H _].
  apply H. vm_compute. reflexivity.
Defined.

(** ** The HUD and the game data *)

Lemma HudInv_offTrack a b : offTrack a = offTrack b -> HudInv a -> HudInv b.
Proof.
  intros H HI.
  assert (E1 : ui a = ui b) by exact (offTrack_field ui _ _ H).
  assert (E2 : shieldTimer (gameData a) = shieldTimer (gameData b))
    by exact (offTrack_field (fun x => shieldTimer (gameData x)) _ _ H).
  assert (E3 : gameStateRef a = gameStateRef b)
    by exact (offTrack_field gameStateRef _ _ H).
  unfold HudInv in *. now rewrite <- E1, <- E2, <- E3.
Qed.

Lemma HudInv_handleKey key a : HudInv a -> HudInv (handleKey key a).
Proof.
  intro HI. unfold handleKey.
  destruct (gameStateRef a) eqn:Hp; try exact HI.
  repeat match goal with
    | |- context [if ?c then _ else _] => destruct c
    end; exact HI.
Qed.

Lemma HudInv_startGame a : HudInv (startGame a).
Proof.
  unfold HudInv. cbn. repeat split; try discriminate; reflexivity.
Qed.

Lemma HudInv_updateShield delta a :
  0 <= delta -> HudInv a -> HudInv (updateShield delta a).
Proof.
  intros Hd (H1 & H2 & H3 & H4 & H5). unfold updateShield.
  destruct (0 <? shieldTimer (gameData a)) eqn:E; qprop;
    [|exact (conj H1 (conj H2 (conj H3 (conj H4 H5))))].
  cbn. destruct (shieldTimer (gameData a) - delta <=? 0) eqn:E'; qprop;
    unfold HudInv; cbn; (split; [|split; [lra|tauto]]).
  - split; [discriminate|intro; lra].
  - split; [intros _; exact E'|intros _; now apply H1].
Qed.

Lemma HudInv_playerMove delta a a1 :
  playerMove delta a = Some a1 -> HudInv a -> HudInv a1.
Proof.
  unfold playerMove. destruct (LANES_at _); [|discriminate].
  intros [= <-] HI.
  repeat match goal with
    | |- context [if ?c then _ else _] => destruct c
    end; exact HI.
Qed.

Lemma HudInv_collide a obj : HudInv a -> HudInv (fst (collide a obj)).
Proof.
  intros HI. pose proof HI as (H1 & H2 & H3 & H4 & H5). unfold collide.
  destruct (aligned (gameData a) obj); [|exact HI].
  destruct (Obj.type obj); cbn.
  - unfold obstacleHit.
    destruct (Obj.subtype obj) as [[]|];
      repeat match goal with
        | |- context [if ?c then _ else _] => destruct c
        end; cbn; try exact HI;
      unfold HudInv; cbn;
      (split; [exact H1|split; [exact H2|split; [reflexivity|split]]]);
      solve [intros _; cbn; tauto | intro H; now elim H].
  - exact HI.
  - unfold HudInv. cbn. split; [|split; [apply Qle_refl|tauto]].
    split; reflexivity.
Qed.

Lemma HudInv_forEach m l : forall acc,
  HudInv (fst acc) -> HudInv (fst (fold_left (stepObject m) l acc)).
Proof.
  induction l as [|obj l IH]; intros acc HI; [exact HI|].
  cbn [fold_left]. apply IH. unfold stepObject. destruct acc as [a next].
  destruct (negb (Obj.active obj)); [exact HI|].
  destruct (25 <? _); [exact HI|].
  pose proof (HudInv_collide a (Obj.set_z (Obj.z obj + m) obj) HI) as H.
  destruct (collide a _) as [a' obj']. exact H.
Qed.

Lemma HudInv_updateObjects m a : HudInv a -> HudInv (updateObjects m a).
Proof.
  intro HI. unfold updateObjects.
  pose proof (HudInv_forEach m (objects (gameData a)) (a, []) HI) as H.
  destruct (fold_left _ _ _) as [a' next]. exact H.
Qed.

Lemma HudInv_animate e a a' :
  HudInv a -> 0 <= e -> animate e a = Some a' -> HudInv a'.
Proof.
  intros HI He Ha.
  destruct (gameStateRef a) eqn:Hp;
    try (unfold animate in Ha; rewrite Hp in Ha; injection Ha as <-; exact HI).
  destruct (animate_playing _ _ _ Hp Ha) as (a1 & a2 & E1 & E2 & ->).
  apply HudInv_updateObjects.
  apply (HudInv_offTrack (worldMove (frameMoveZ e a) a1) a2).
  { symmetry. exact (offTrack_infiniteBridge _ _ E2). }
  change (HudInv a1).
  apply (HudInv_playerMove _ _ _ E1).
  apply HudInv_updateShield; [exact (proj1 (frameDelta_range e He))|exact HI].
Qed.

Lemma reachable_HudInv a : reachable a -> HudInv a.
Proof.
  induction 1 as [r|a _ IH|key a _ IH|a _ IH|e a a' Hr IH He Ha].
  - apply (HudInv_offTrack (initialApp r)).
    + symmetry. apply offTrack_initWorld.
    + unfold HudInv. cbn. repeat split; try discriminate; reflexivity.
  - apply (HudInv_offTrack (effectCleanup a)).
    + symmetry. apply offTrack_initWorld.
    + exact IH.
  - now apply HudInv_handleKey.
  - apply HudInv_startGame.
  - exact (HudInv_animate e a a' IH He Ha).
Qed.

(** X5: in every reachable game the HUD's shield flag is up exactly
    while the shield timer is above 0, and the timer never exceeds
    [SHIELD_DURATION]. *)
Theorem shield_flag_invariant (a : App) :
  reachable a ->
  (UI.hasShield (ui a) = true <-> 0 < shieldTimer (gameData a)) /\
  shieldTimer (gameData a) <= SHIELD_DURATION.
Proof.
  intro Hr. destruct (reachable_HudInv a Hr) as (H1 & H2 & _). now split.
Qed.

(** The run that picks the shield up ends with the flag up. *)
Lemma shield_flag_invariant_witness :
  UI.hasShield (ui shieldRun) = true /\ 0 < shieldTimer (gameData shieldRun).
Proof.
  assert (Hr : reachable shieldRun).
  { unfold shieldRun.
    apply reach_frameOf; [|vm_compute; discriminate].
    apply reach_frames; [|vm_compute; discriminate].
    apply reach_remount, reach_start, reach_mount. }
  destruct (shield_flag_invariant shieldRun Hr) as [H _].
  assert (Hf : UI.hasShield (ui shieldRun) = true) by (vm_compute; reflexivity).
  split; [exact Hf|]. now apply H.
Defined.

(** X6: in every reachable game the state shown agrees with the state
    the loop reads; when it is game over, the death reason is one of
    the three obstacle reasons, and otherwise it is empty. *)
Theorem death_reported (a : App) :
  reachable a ->
  UI.gameState (ui a) = gameStateRef a /\
  (gameStateRef a = GAMEOVER -> In (UI.deathReason (ui a)) reasons) /\
  (gameStateRef a <> GAMEOVER -> UI.deathReason (ui a) = ""%string).
Proof.
  intro Hr. destruct (reachable_HudInv a Hr) as (_ & _ & H3 & H4 & H5).
  now repeat split.
Qed.

(** The run that ends on a wall reports a reason. *)
Lemma death_reported_witness : In (UI.deathReason (ui crashedMidJump)) reasons.
Proof.
  assert (Hr : reachable crashedMidJump).
  { unfold crashedMidJump.
    apply reach_frameOf; [|vm_compute; discriminate].
    apply reach_frames; [|vm_compute; discriminate].
    apply reach_key.
    apply reach_frames; [|vm_compute; discriminate].
    apply reach_remount, reach_start, reach_mount. }
  destruct (death_reported crashedMidJump Hr) as (_ & H & _).
  apply H. vm_compute. reflexivity.
Defined.

(** ** Logs and walls *)

Lemma app_neq {A} (l x : list A) : x <> [] -> l ++ x <> l.
Proof.
  intros Hx H. apply (f_equal (@List.length A)) in H.
  rewrite length_app in H. destruct x; [now apply Hx|cbn in H; lia].
Qed.

(** X7: a lined-up log inside the hit window is cleared exactly when
    the player is higher than [JUMP_CLEARANCE], sliding or not; else
    the shield absorbs it, or the game is over with the log's death
    reason.  In a reachable game a player whose jumping flag is down
    is hit. *)
Theorem jump_clearance (a : App) (obj : GameObj) :
  aligned (gameData a) obj = true ->
  Obj.type obj = OBSTACLE ->
  Obj.subtype obj = Some JUMP ->
  let g := gameData a in
  (collide a obj = (a, obj) <-> JUMP_CLEARANCE < yPos g) /\
  (forall sl j, obstacleHit (set_isJumping j (set_isSliding sl g)) obj
                = obstacleHit g obj) /\
  (yPos g <= JUMP_CLEARANCE -> 0 < shieldTimer g ->
   collide a obj = (sound playCrash a, Obj.set_active false obj)) /\
  (yPos g <= JUMP_CLEARANCE -> shieldTimer g <= 0 ->
   collide a obj =
   (setGameState GAMEOVER
      (setDeathReason "TRIPPED ON LOG"
         (set_gameStateRef GAMEOVER (sound playGameOver (sound stopBGM a)))),
    obj)) /\
  (reachable a -> isJumping g = false -> fst (obstacleHit g obj) = true).
Proof.
  intros Hal Hty Hsub. cbn zeta.
  assert (Hhit : obstacleHit (gameData a) obj
                 = (negb (JUMP_CLEARANCE <? yPos (gameData a)),
                    "TRIPPED ON LOG"%string))
    by (unfold obstacleHit; now rewrite Hsub).
  assert (Hlow : yPos (gameData a) <= JUMP_CLEARANCE ->
                 fst (obstacleHit (gameData a) obj) = true).
  { intro H. apply Qltb_ge in H. now rewrite Hhit, H. }
  assert (Hcrash : yPos (gameData a) <= JUMP_CLEARANCE ->
                   0 < shieldTimer (gameData a) ->
                   collide a obj = (sound playCrash a, Obj.set_active false obj)).
  { intros Hy Hs. apply collide_shielded; auto. }
  assert (Hover : yPos (gameData a) <= JUMP_CLEARANCE ->
                  shieldTimer (gameData a) <= 0 ->
                  collide a obj =
                  (setGameState GAMEOVER
                     (setDeathReason "TRIPPED ON LOG"
                        (set_gameStateRef GAMEOVER
                           (sound playGameOver (sound stopBGM a)))),
                   obj)).
  { intros Hy Hs. rewrite collide_unshielded; auto. now rewrite Hhit. }
  split; [|split; [|split; [|split]]].
  - split.
    + intro Hc. destruct (Qlt_le_dec JUMP_CLEARANCE (yPos (gameData a)))
        as [H|H]; [exact H|exfalso].
      destruct (Qlt_le_dec 0 (shieldTimer (gameData a))) as [Hs|Hs].
      * rewrite (Hcrash H Hs) in Hc. injection Hc as Hc _.
        apply (f_equal soundLog) in Hc. cbn in Hc.
        now apply (app_neq (soundLog a) [playCrash]) in Hc.
      * rewrite (Hover H Hs) in Hc. injection Hc as Hc.
        apply (f_equal soundLog) in Hc. cbn in Hc. rewrite <- app_assoc in Hc.
        now apply (app_neq (soundLog a) ([stopBGM] ++ [playGameOver])) in Hc.
    + intro H. apply Qltb_lt in H. unfold collide.
      now rewrite Hal, Hty, Hhit, H.
  - intros sl j. unfold obstacleHit. now rewrite Hsub.
  - exact Hcrash.
  - exact Hover.
  - intros Hr Hj. apply Hlow.
    destruct (reachable_PoseInv a Hr) as (_ & Hg & _).
    rewrite (Hg Hj). unfold JUMP_CLEARANCE. lra.
Qed.

(** A player on the ground trips on the log. *)
Lemma jump_clearance_witness :
  UI.deathReason (ui (fst (collide fresh logAhead))) = "TRIPPED ON LOG"%string.
Proof.
  assert (H1 : aligned (gameData fresh) logAhead = true) by (vm_compute; reflexivity).
  destruct (jump_clearance fresh logAhead H1 eq_refl eq_refl)
    as (_ & _ & _ & Hover & _).
  rewrite Hover; [reflexivity| |]; vm_compute; discriminate.
Defined.

(** X8: a lined-up wall inside the hit window, or any obstacle that is
    neither a log nor a gate, hits whatever the pose: the shield absorbs
    it, or the game is over with the wall's death reason. *)
Theorem wall_always_hits (a : App) (obj : GameObj) :
  aligned (gameData a) obj = true ->
  Obj.type obj = OBSTACLE ->
  Obj.subtype obj <> Some JUMP ->
  Obj.subtype obj <> Some SLIDE ->
  (forall g, obstacleHit g obj = (true, "SMASHED INTO WALL"%string)) /\
  collide a obj <> (a, obj) /\
  (0 < shieldTimer (gameData a) ->
   collide a obj = (sound playCrash a, Obj.set_active false obj)) /\
  (shieldTimer (gameData a) <= 0 ->
   collide a obj =
   (setGameState GAMEOVER
      (setDeathReason "SMASHED INTO WALL"
         (set_gameStateRef GAMEOVER (sound playGameOver (sound stopBGM a)))),
    obj)).
Proof.
  intros Hal Hty Hj Hs.
  assert (Hhit : forall g, obstacleHit g obj = (true, "SMASHED INTO WALL"%string)).
  { intro g. unfold obstacleHit.
    destruct (Obj.subtype obj) as [[]|]; try reflexivity; congruence. }
  assert (Hcrash : 0 < shieldTimer (gameData a) ->
                   collide a obj = (sound playCrash a, Obj.set_active false obj)).
  { intro H. apply collide_shielded; auto. now rewrite Hhit. }
  assert (Hover : shieldTimer (gameData a) <= 0 ->
                  collide a obj =
                  (setGameState GAMEOVER
                     (setDeathReason "SMASHED INTO WALL"
                        (set_gameStateRef GAMEOVER
                           (sound playGameOver (sound stopBGM a)))),
                   obj)).
  { intro H. rewrite collide_unshielded; auto; now rewrite Hhit. }
  split; [exact Hhit|]. split; [|split; [exact Hcrash|exact Hover]].
  intro Hc. destruct (Qlt_le_dec 0 (shieldTimer (gameData a))) as [H|H].
  - rewrite (Hcrash H) in Hc. injection Hc as Hc _.
    apply (f_equal soundLog) in Hc. cbn in Hc.
    now apply (app_neq (soundLog a) [playCrash]) in Hc.
  - rewrite (Hover H) in Hc. injection Hc as Hc.
    apply (f_equal soundLog) in Hc. cbn in Hc. rewrite <- app_assoc in Hc.
    now apply (app_neq (soundLog a) ([stopBGM] ++ [playGameOver])) in Hc.
Qed.

(** A player in mid-jump meets a wall. *)
Lemma wall_always_hits_witness :
  UI.deathReason (ui (fst (collide jumpStart (Obj.set_z (-0.3) wall))))
  = "SMASHED INTO WALL"%string.
Proof.
  assert (H1 : aligned (gameData jumpStart) (Obj.set_z (-0.3) wall) = true)
    by (vm_compute; reflexivity).
  assert (H2 : Obj.subtype (Obj.set_z (-0.3) wall) <> Some JUMP) by discriminate.
  assert (H3 : Obj.subtype (Obj.set_z (-0.3) wall) <> Some SLIDE) by discriminate.
  destruct (wall_always_hits jumpStart _ H1 eq_refl H2 H3) as (_ & _ & _ & Hover).
  rewrite Hover; [reflexivity|]. vm_compute. discriminate.
Defined.

(** ** Outside play *)

(** X9: while the game is not being played, on the start screen or
    after game over, keys and frames change nothing of the game,
    however many there are. *)
Theorem idle_outside_play (a : App) (keys : list string) (n : nat) (e : Q) :
  gameStateRef a <> PLAYING ->
  pressAll keys a = a /\
  animate e a = Some a /\
  frames n e a = a /\
  pressAll keys (frames n e a) = a.
Proof.
  intro Hp.
  assert (Hk : forall key, handleKey key a = a).
  { intro key. unfold handleKey. destruct (gameStateRef a); congruence. }
  assert (Ha : animate e a = Some a).
  { unfold animate. destruct (gameStateRef a); congruence. }
  assert (Hks : pressAll keys a = a).
  { unfold pressAll. induction keys as [|key keys IH]; [reflexivity|].
    cbn [fold_left]. now rewrite Hk. }
  assert (Hf : frames n e a = a).
  { induction n as [|n IH]; [reflexivity|].
    change (frames (S n) e a) with (frameOf e (frames n e a)).
    rewrite IH. unfold frameOf. now rewrite Ha. }
  repeat split; try assumption. now rewrite Hf.
Qed.

(** After the crash, keys and frames leave the game as it is. *)
Lemma idle_outside_play_witness :
  pressAll ["ArrowLeft"; "ArrowUp"]%string (frames 3 0.1 crashedMidJump)
  = crashedMidJump.
Proof.
  assert (H : gameStateRef crashedMidJump <> PLAYING)
    by (vm_compute; discriminate).
  exact (proj2 (proj2 (proj2 (idle_outside_play crashedMidJump
                                 ["ArrowLeft"; "ArrowUp"]%string 3 0.1 H)))).
Defined.

(** ** What a segment is given *)

Lemma spawnObstacles_spec zLoc a :
  exists news,
    objects (gameData (spawnObstacles zLoc a)) = objects (gameData a) ++ news /\
    Forall (fun o => Obj.z o = zLoc /\ Obj.active o = true /\
                     Obj.type o = OBSTACLE) news /\
    NoDup (map Obj.lane news).
Proof.
  unfold spawnObstacles, randomLane, randomSubtype, random; cbn.
  repeat match goal with
    | |- context [if ?c then _ else _] => destruct c
    end; cbn; rewrite <- ?app_assoc; cbn;
    (eexists; split; [reflexivity|]) || (exists []; split; [now rewrite app_nil_r|]);
    (split; [repeat constructor|cbn; repeat constructor; cbn; intuition discriminate]).
Qed.

Lemma existsb_none {A} (f : A -> bool) l :
  existsb f l = false -> forall x, In x l -> f x = false.
Proof.
  intros H x Hin. destruct (f x) eqn:E; [|reflexivity].
  rewrite <- H. symmetry. apply existsb_exists. now exists x.
Qed.

Lemma spawnPickup_spec zLoc a :
  exists extra,
    objects (gameData (spawnPickup zLoc a)) = objects (gameData a) ++ extra /\
    (extra = [] \/
     exists p,
       extra = [p] /\ Obj.z p = zLoc /\ Obj.active p = true /\
       Obj.type p <> OBSTACLE /\
       forall o, In o (objects (gameData a)) -> Obj.z o == zLoc ->
                 Obj.lane o <> Obj.lane p).
Proof.
  unfold spawnPickup, randomLane, random.
  cbn [fst snd rng rngCalls set_rngCalls gameData].
  destruct (_ <? 0.5); [|exists []; split; [now rewrite app_nil_r|now left]].
  match goal with
  | |- context [existsb ?f ?l] => destruct (existsb f l) eqn:Eb
  end; cbn [negb]; [exists []; split; [now rewrite app_nil_r|now left]|].
  pose proof (existsb_none _ _ Eb) as Hnone. cbv beta in Hnone.
  destruct (_ <? 0.05); cbn; eexists; (split; [reflexivity|]); right;
    eexists; (split; [reflexivity|]); cbn [Obj.z Obj.active Obj.type Obj.lane];
    (split; [reflexivity|split; [reflexivity|split; [discriminate|]]]);
    intros o Hin Hz Hl; specialize (Hnone o Hin);
    apply Qeq_bool_iff in Hz; rewrite Hz, Hl, Z.eqb_refl in Hnone;
    discriminate.
Qed.

Lemma spawnSegment_near zPos a : -10 <= zPos -> spawnSegment zPos a
  = gd (fun g => set_segments (segments g ++ [zPos]) g) a.
Proof. intro H. apply Qltb_ge in H. unfold spawnSegment. now rewrite H. Qed.

(** X10: the objects a new segment is given are appended to the list,
    sit at the segment's position, are active, and occupy distinct
    lanes; a pickup is never put where an object of the same position
    and lane already is.  A segment at -10 or nearer is given nothing
    and takes no draw. *)
Theorem segment_objects (zPos : Q) (a : App) :
  exists news,
    objects (gameData (spawnSegment zPos a)) = objects (gameData a) ++ news /\
    Forall (fun o => Obj.z o = zPos /\ Obj.active o = true /\ zPos < -10) news /\
    NoDup (map Obj.lane news) /\
    (forall p o,
       In p news -> Obj.type p <> OBSTACLE ->
       In o (objects (gameData a)) -> Obj.z o == zPos ->
       Obj.lane o <> Obj.lane p) /\
    (-10 <= zPos -> news = [] /\ rngCalls (spawnSegment zPos a) = rngCalls a).
Proof.
  destruct (zPos <? -10) eqn:E.
  - unfold spawnSegment. rewrite E. qprop.
    set (a0 := gd (fun g => set_segments (segments g ++ [zPos]) g) a).
    destruct (spawnObstacles_spec zPos a0) as (obst & Ho & Hfo & Hno).
    destruct (spawnPickup_spec zPos (spawnObstacles zPos a0)) as (extra & He & Hp).
    exists (obst ++ extra). rewrite He, Ho. change (objects (gameData a0))
      with (objects (gameData a)).
    split; [now rewrite app_assoc|].
    assert (Hobst : Forall (fun o => Obj.z o = zPos /\ Obj.active o = true /\
                                     zPos < -10) obst).
    { eapply Forall_impl; [|exact Hfo]. cbn. intros o (H1 & H2 & _). tauto. }
    destruct Hp as [-> | (p & -> & Hz & Hact & Hty & Hfree)].
    + rewrite app_nil_r. split; [exact Hobst|]. split; [exact Hno|].
      split; [|intro; lra].
      intros p o Hin Hty. rewrite Forall_forall in Hfo.
      destruct (Hfo p Hin) as (_ & _ & Hob). congruence.
    + split; [|split; [|split; [|intro; lra]]].
      * apply Forall_app. split; [exact Hobst|]. repeat constructor; tauto.
      * rewrite map_app. apply NoDup_app.
        -- exact Hno.
        -- cbn. repeat constructor. intros [].
        -- intros l Hin [<- | []]. apply in_map_iff in Hin.
           destruct Hin as (o & Hl & Hin). rewrite Forall_forall in Hfo.
           destruct (Hfo o Hin) as (Hzo & _).
           apply (Hfree o); [|rewrite Hzo; reflexivity|exact Hl].
           rewrite Ho. apply in_or_app. now right.
      * intros q o Hin Htq Hino Hzo. apply in_app_or in Hin.
        destruct Hin as [Hin | [<- | []]].
        -- rewrite Forall_forall in Hfo. destruct (Hfo q Hin) as (_ & _ & Hob).
           congruence.
        -- apply Hfree; [|exact Hzo]. rewrite Ho. apply in_or_app. now left.
  - qprop. rewrite (spawnSegment_near _ _ E). exists [].
    split; [now rewrite app_nil_r|].
    split; [constructor|]. split; [constructor|].
    split; [intros p o []|]. intros _. split; reflexivity.
Qed.

Lemma Qfloor_three u : 0 <= u < 1 -> (0 <= Qfloor (u * 3) <= 2)%Z.
Proof.
  intros [H0 H1]. split.
  - change 0%Z with (Qfloor 0). apply Qfloor_resp_le. lra.
  - apply Z.lt_succ_r. rewrite Zlt_Qlt.
    pose proof (Qfloor_le (u * 3)). change (inject_Z (Z.succ 2)) with 3. lra.
Qed.

Lemma spawnObstacles_passable zLoc a :
  0 <= rng a (S (rngCalls a)) < 1 ->
  exists news,
    objects (gameData (spawnObstacles zLoc a)) = objects (gameData a) ++ news /\
    exists l,
      (0 <= l <= 2)%Z /\
      forall o, In o news -> Obj.lane o = l -> Obj.subtype o = Some JUMP.
Proof.
  intro Hu.
  unfold spawnObstacles, randomLane, random. cbn -[Qfloor].
  set (L := Qfloor (rng a (S (rngCalls a)) * 3)).
  assert (Hf : (0 <= L <= 2)%Z) by (now apply Qfloor_three).
  clearbody L.
  destruct (_ <? 0.3).
  - repeat match goal with
      | |- context [if ?c then _ else _] => destruct c
      end; cbn; (eexists; split; [reflexivity|]);
      exists (if (L =? 0)%Z then 1%Z else 0%Z);
      (split; [destruct (L =? 0)%Z; lia|]);
      intros o [<- | []]; cbn; destruct (L =? 0)%Z eqn:E; intro Hl;
      first [apply Z.eqb_eq in E | apply Z.eqb_neq in E]; lia.
  - destruct (_ <? 0.5); [|destruct (_ <? 0.6)].
    + assert (E : L = 0%Z \/ L = 1%Z \/ L = 2%Z) by lia.
      destruct E as [-> | [-> | ->]]; cbn; rewrite <- ?app_assoc; cbn;
        (eexists; split; [reflexivity|]).
      * exists 0%Z. split; [lia|]. intros o [<- | [<- | []]]; discriminate.
      * exists 1%Z. split; [lia|]. intros o [<- | [<- | []]]; discriminate.
      * exists 2%Z. split; [lia|]. intros o [<- | [<- | []]]; discriminate.
    + cbn. rewrite <- ?app_assoc. cbn. eexists. split; [reflexivity|].
      exists 0%Z. split; [lia|]. intros o [<- | [<- | [<- | []]]]; reflexivity.
    + exists []. split; [now rewrite app_nil_r|]. exists 0%Z. split; [lia|].
      intros o [].
Qed.

(** X11: when the lane draw lies in [0, 1), a new segment leaves a lane
    in which every obstacle it is given is a log: the three lanes are
    never all blocked by walls or gates. *)
Theorem segment_passable (zPos : Q) (a : App) :
  0 <= rng a (S (rngCalls a)) < 1 ->
  exists news,
    objects (gameData (spawnSegment zPos a)) = objects (gameData a) ++ news /\
    exists l,
      (0 <= l <= 2)%Z /\
      forall o,
        In o news -> Obj.type o = OBSTACLE -> Obj.lane o = l ->
        Obj.subtype o = Some JUMP.
Proof.
  intro Hu. unfold spawnSegment. destruct (zPos <? -10).
  - set (a0 := gd (fun g => set_segments (segments g ++ [zPos]) g) a).
    destruct (spawnObstacles_passable zPos a0 Hu) as (obst & Ho & l & Hl & Hpass).
    destruct (spawnPickup_spec zPos (spawnObstacles zPos a0))
      as (extra & He & Hp).
    exists (obst ++ extra). rewrite He, Ho. split; [now rewrite app_assoc|].
    exists l. split; [exact Hl|].
    intros o Hin Hty Hlane. apply in_app_or in Hin. destruct Hin as [Hin|Hin].
    + now apply Hpass.
    + destruct Hp as [-> | (p & -> & _ & _ & Hnot & _)]; [destruct Hin|].
      destruct Hin as [<- | []]. congruence.
  - exists []. split; [now rewrite app_nil_r|]. exists 0%Z. split; [lia|].
    intros o [].
Qed.

(** With the draws 0.4, 0.4 the segment gets walls in the outer lanes
    and none in the centre. *)
Lemma segment_passable_witness :
  exists news l,
    objects (gameData (spawnSegment (-160) (initialApp (fun _ => 0.4))))
    = news /\
    (0 <= l <= 2)%Z /\
    forall o, In o news -> Obj.type o = OBSTACLE -> Obj.lane o = l ->
              Obj.subtype o = Some JUMP.
Proof.
  assert (Hu : 0 <= rng (initialApp (fun _ => 0.4))
                      (S (rngCalls (initialApp (fun _ => 0.4)))) < 1)
    by (split; vm_compute; [discriminate|reflexivity]).
  destruct (segment_passable (-160) (initialApp (fun _ => 0.4)) Hu)
    as (news & Hn & l & Hl & Hp).
  exists news, l. split; [exact Hn|]. now split.
Defined.

(** ** The list of objects across a frame *)

Lemma collide_object a obj :
  snd (collide a obj) = obj \/ snd (collide a obj) = Obj.set_active false obj.
Proof.
  unfold collide. destruct (aligned (gameData a) obj); [|now left].
  destruct (Obj.type obj); try (now right).
  destruct (obstacleHit (gameData a) obj) as [[] reason]; [|now left].
  destruct (0 <? shieldTimer (gameData a)); [now right|now left].
Qed.

Lemma forEach_objects m objs : forall acc,
  exists news,
    snd (fold_left (stepObject m) objs acc) = snd acc ++ news /\
    Forall2 (Moved m) (filter (kept m) objs) news.
Proof.
  induction objs as [|obj objs IH]; intro acc.
  - exists []. cbn. split; [now rewrite app_nil_r|constructor].
  - cbn [fold_left filter]. destruct (IH (stepObject m acc obj)) as (news & Hn & Hf).
    rewrite Hn. unfold kept at 1. unfold stepObject. destruct acc as [a next].
    destruct (Obj.active obj); cbn [negb andb].
    + change (Obj.z (Obj.set_z (Obj.z obj + m) obj)) with (Obj.z obj + m).
      destruct (25 <? Obj.z obj + m); cbn [negb].
      * exists news. now split.
      * pose proof (collide_object a (Obj.set_z (Obj.z obj + m) obj)) as Ho.
        destruct (collide a _) as [a' obj']. cbn [snd] in *.
        exists (obj' :: news). split; [now rewrite <- app_assoc|].
        constructor; [exact Ho|exact Hf].
    + exists news. now split.
Qed.

Lemma Moved_ids m l l' :
  Forall2 (Moved m) l l' -> map Obj.id l' = map Obj.id l.
Proof.
  induction 1 as [|o o' l l' H _ IH]; [reflexivity|].
  cbn. rewrite IH. f_equal. destruct H as [-> | ->]; reflexivity.
Qed.

(** X12: after the loop over the objects the list holds, in their old
    order, exactly the objects that were active and are not beyond 25
    once advanced by the scroll distance, each advanced by it and
    otherwise unchanged but for being switched off; so none of them is
    beyond 25, and the ids are those of the kept objects. *)
Theorem objects_after_loop (m : Q) (a : App) :
  let objs := objects (gameData a) in
  let objs' := objects (gameData (updateObjects m a)) in
  Forall2 (Moved m) (filter (kept m) objs) objs' /\
  Forall (fun o => Obj.z o <= 25) objs' /\
  map Obj.id objs' = map Obj.id (filter (kept m) objs).
Proof.
  cbn zeta. unfold updateObjects.
  destruct (forEach_objects m (objects (gameData a)) (a, [])) as (news & Hn & Hf).
  destruct (fold_left _ _ _) as [a' next]. cbn in Hn. subst next.
  change (objects (gameData (gd (set_objects news) a'))) with news.
  split; [exact Hf|]. split; [|exact (Moved_ids m _ _ Hf)].
  assert (Hk : Forall (fun o => kept m o = true)
                 (filter (kept m) (objects (gameData a)))).
  { apply Forall_forall. intros o Hin. now apply filter_In in Hin. }
  revert Hk. induction Hf as [|o o' l l' H _ IH]; intro Hk; [constructor|].
  inversion Hk as [|? ? Ho Hl]; subst. constructor; [|now apply IH].
  unfold kept in Ho. apply andb_true_iff in Ho. destruct Ho as [_ Ho].
  apply negb_true_iff in Ho. qprop.
  destruct H as [-> | ->]; exact Ho.
Qed.

(** ** The ids of the objects *)

Lemma ascending_app l c :
  ascending l -> Forall (fun x => (x < c)%Z) l -> ascending (l ++ [c]).
Proof.
  induction l as [|x t IH]; intros Ha Hf; cbn.
  - split; constructor.
  - destruct Ha as [Hx Ht]. inversion Hf as [|? ? Hxc Htc]; subst. split.
    + apply Forall_app. split; [exact Hx|]. constructor; [exact Hxc|constructor].
    + now apply IH.
Qed.

Lemma ascending_filter (f : GameObj -> bool) l :
  ascending (map Obj.id l) -> ascending (map Obj.id (filter f l)).
Proof.
  induction l as [|x t IH]; [easy|]. cbn. intros [Hx Ht].
  destruct (f x); [|now apply IH]. cbn. split; [|now apply IH].
  rewrite Forall_forall in *. intros i Hi. apply Hx.
  apply in_map_iff in Hi. destruct Hi as (o & <- & Ho).
  apply filter_In in Ho. apply in_map. tauto.
Qed.

Lemma ascending_NoDup l : ascending l -> NoDup l.
Proof.
  induction l as [|x t IH]; [constructor|]. intros [Hx Ht].
  constructor; [|now apply IH]. intro Hin.
  rewrite Forall_forall in Hx. specialize (Hx x Hin). lia.
Qed.

Lemma idsOk_eq a b :
  objects (gameData b) = objects (gameData a) ->
  objIdCounter (gameData b) = objIdCounter (gameData a) ->
  idsOk a -> idsOk b.
Proof. unfold idsOk. now intros -> ->. Qed.

Lemma idsOk_spawnObject ty l zv st a :
  idsOk a -> idsOk (spawnObject ty l zv st a).
Proof.
  intros [Ha Hf]. unfold idsOk, spawnObject. cbn. rewrite map_app. cbn. split.
  - now apply ascending_app.
  - apply Forall_app. split.
    + eapply Forall_impl; [|exact Hf]. cbn. intros i Hi. lia.
    + constructor; [lia|constructor].
Qed.

Lemma idsOk_spawnObstacles zv a : idsOk a -> idsOk (spawnObstacles zv a).
Proof.
  intro H. unfold spawnObstacles, randomLane, randomSubtype, random.
  cbn -[spawnObject].
  repeat match goal with
    | |- context [if ?c then _ else _] => destruct c
    end; repeat apply idsOk_spawnObject; exact H.
Qed.

Lemma idsOk_spawnPickup zv a : idsOk a -> idsOk (spawnPickup zv a).
Proof.
  intro H. unfold spawnPickup, randomLane, random. cbn -[spawnObject].
  repeat match goal with
    | |- context [if ?c then _ else _] => destruct c
    end; repeat apply idsOk_spawnObject; exact H.
Qed.

Lemma idsOk_spawnSegment zPos a : idsOk a -> idsOk (spawnSegment zPos a).
Proof.
  intro H. unfold spawnSegment. destruct (zPos <? -10); [|exact H].
  apply idsOk_spawnPickup, idsOk_spawnObstacles. exact H.
Qed.

Lemma idsOk_extendLoop n : forall a, idsOk a -> idsOk (extendLoop n a).
Proof.
  induction n as [|n IH]; intros a H; [exact H|].
  cbn [extendLoop]. destruct (lastSegment a); [|exact H].
  destruct (-160 <? q); [|exact H]. apply IH. now apply idsOk_spawnSegment.
Qed.

Lemma idsOk_initLoop n : forall a, idsOk a -> idsOk (initLoop n a).
Proof.
  induction n as [|n IH]; intros a H; [exact H|].
  cbn [initLoop]. destruct (-160 <? _); [|exact H]. apply IH.
  apply (idsOk_spawnSegment (nextSegmentZ (gameData a))) in H. exact H.
Qed.

(** The counter survives the reset of the list, so ids are never used
    again. *)
Lemma idsOk_initWorld a : idsOk (initWorld a).
Proof.
  unfold initWorld. apply idsOk_initLoop. unfold idsOk. cbn.
  split; constructor.
Qed.

Lemma idsOk_infiniteBridge a a2 :
  infiniteBridge a = Some a2 -> idsOk a -> idsOk a2.
Proof.
  unfold infiniteBridge, extendTrack.
  destruct (segments (gameData a)) as [|s0 rest]; [discriminate|].
  destruct (lastSegment _); [|discriminate]. intros [= <-] H.
  apply idsOk_extendLoop. destruct (80 <? s0); exact H.
Qed.

Lemma idsOk_updateObjects m a : idsOk a -> idsOk (updateObjects m a).
Proof.
  intros [Ha Hf].
  assert (Hc : objIdCounter (gameData (updateObjects m a))
               = objIdCounter (gameData a))
    by exact (f_equal (fun x => objIdCounter (gameData x))
                (offPlay_updateObjects m a)).
  unfold idsOk. rewrite Hc. unfold updateObjects.
  destruct (forEach_objects m (objects (gameData a)) (a, [])) as (news & Hn & Hm).
  destruct (fold_left _ _ _) as [a' next]. cbn in Hn. subst next.
  change (objects (gameData (gd (set_objects news) a'))) with news.
  rewrite (Moved_ids m _ _ Hm). split; [now apply ascending_filter|].
  rewrite Forall_forall in *. intros i Hi. apply Hf.
  apply in_map_iff in Hi. destruct Hi as (o & <- & Ho).
  apply filter_In in Ho. apply in_map. tauto.
Qed.

Lemma objects_playerMove delta a a1 :
  playerMove delta (updateShield delta (updateSpeedAndScore delta a)) = Some a1 ->
  objects (gameData a1) = objects (gameData a) /\
  objIdCounter (gameData a1) = objIdCounter (gameData a).
Proof.
  unfold playerMove. destruct (LANES_at _); [|discriminate].
  intros [= <-]. unfold updateShield.
  repeat match goal with
    | |- context [if ?c then _ else _] => destruct c
    end; split; reflexivity.
Qed.

Lemma idsOk_animate e a a' : idsOk a -> animate e a = Some a' -> idsOk a'.
Proof.
  intros H Ha.
  destruct (gameStateRef a) eqn:Hp;
    try (unfold animate in Ha; rewrite Hp in Ha; injection Ha as <-; exact H).
  destruct (animate_playing _ _ _ Hp Ha) as (a1 & a2 & E1 & E2 & ->).
  apply idsOk_updateObjects. apply (idsOk_infiniteBridge _ _ E2).
  destruct (objects_playerMove _ _ _ E1) as [Ho Hc].
  apply (idsOk_eq a); [exact Ho|exact Hc|exact H].
Qed.

Lemma idsOk_handleKey key a : idsOk a -> idsOk (handleKey key a).
Proof.
  intro H. unfold handleKey. destruct (gameStateRef a); try exact H.
  repeat match goal with
    | |- context [if ?c then _ else _] => destruct c
    end; exact H.
Qed.

Lemma reachable_idsOk a : reachable a -> idsOk a.
Proof.
  induction 1 as [r|a _ IH|key a _ IH|a _ IH|e a a' _ IH He Ha].
  - apply idsOk_initWorld.
  - apply idsOk_initWorld.
  - now apply idsOk_handleKey.
  - exact IH.
  - exact (idsOk_animate e a a' IH Ha).
Qed.

(** X13: in every reachable game the ids of the objects increase along
    the list, hence are pairwise different, and are below the counter:
    an id is never given twice, not even after the world is rebuilt. *)
Theorem object_ids_unique (a : App) :
  reachable a ->
  ascending (map Obj.id (objects (gameData a))) /\
  NoDup (map Obj.id (objects (gameData a))) /\
  Forall (fun o => (Obj.id o < objIdCounter (gameData a))%Z)
    (objects (gameData a)).
Proof.
  intro Hr. destruct (reachable_idsOk a Hr) as [Ha Hf].
  split; [exact Ha|]. split; [now apply ascending_NoDup|].
  rewrite Forall_forall in *. intros o Ho. apply Hf. now apply in_map.
Qed.

(** The wall of the second world has the id 0; the counter is at 1. *)
Lemma object_ids_unique_witness :
  NoDup (map Obj.id (objects (gameData (remount (startGame (mount wallAhead)))))).
Proof.
  assert (Hr : reachable (remount (startGame (mount wallAhead)))).
  { apply reach_remount, reach_start, reach_mount. }
  exact (proj1 (proj2 (object_ids_unique _ Hr))).
Defined.

(** ** Coins *)

Lemma collectable_xPos m g h o :
  xPos g = xPos h -> collectable m g o = collectable m h o.
Proof. intro H. unfold collectable. now rewrite (aligned_xPos g h _ H). Qed.

Lemma coins_stepObject m acc obj :
  UI.coins (ui (fst (stepObject m acc obj)))
  = (UI.coins (ui (fst acc))
     + if collectable m (gameData (fst acc)) obj then 1 else 0)%Z.
Proof.
  destruct acc as [a next]. unfold stepObject, collectable, kept. cbn [fst].
  destruct (Obj.active obj); cbn [negb andb]; [|cbn; lia].
  change (Obj.z (Obj.set_z (Obj.z obj + m) obj)) with (Obj.z obj + m).
  destruct (25 <? Obj.z obj + m); cbn [negb andb]; [cbn; lia|].
  unfold collide.
  destruct (aligned (gameData a) (Obj.set_z (Obj.z obj + m) obj));
    cbn [andb]; [|cbn; lia].
  change (Obj.type (Obj.set_z (Obj.z obj + m) obj)) with (Obj.type obj).
  destruct (Obj.type obj); try (cbn; lia).
  destruct (obstacleHit _ _) as [[] reason]; [|cbn; lia].
  destruct (0 <? shieldTimer (gameData a)); cbn; lia.
Qed.

Lemma forEach_coins m objs : forall acc,
  UI.coins (ui (fst (fold_left (stepObject m) objs acc)))
  = (UI.coins (ui (fst acc))
     + Z.of_nat (List.length
                   (filter (collectable m (gameData (fst acc))) objs)))%Z.
Proof.
  induction objs as [|obj objs IH]; intro acc; [cbn; lia|].
  cbn [fold_left filter]. rewrite IH, coins_stepObject.
  destruct (pose_fields _ _ (pose_offPlay _ _ (offPlay_stepObject m acc obj)))
    as (_ & Hx & _).
  cbn zeta in Hx.
  rewrite (filter_ext _ _ (fun o => collectable_xPos m _ _ o Hx)).
  destruct (collectable m (gameData (fst acc)) obj); cbn [List.length]; lia.
Qed.

Lemma forEach_coin_off m g objs : forall acc,
  xPos (gameData (fst acc)) = xPos g ->
  (forall o, In o (snd acc) -> Obj.type o = COIN -> aligned g o = true ->
             Obj.active o = false) ->
  forall o, In o (snd (fold_left (stepObject m) objs acc)) ->
            Obj.type o = COIN -> aligned g o = true -> Obj.active o = false.
Proof.
  induction objs as [|obj objs IH]; intros acc Hx Hacc; [exact Hacc|].
  cbn [fold_left]. apply IH.
  - destruct (pose_fields _ _ (pose_offPlay _ _ (offPlay_stepObject m acc obj)))
      as (_ & Hx' & _).
    cbn zeta in Hx'. now rewrite Hx'.
  - unfold stepObject. destruct acc as [a next]. cbn [fst snd] in *.
    destruct (negb (Obj.active obj)); [exact Hacc|].
    destruct (25 <? _); [exact Hacc|].
    destruct (collide a (Obj.set_z (Obj.z obj + m) obj)) as [a' obj'] eqn:Ec.
    cbn [snd]. intros o Hin Hty Hal. apply in_app_or in Hin.
    destruct Hin as [Hin | [<- | []]]; [now apply Hacc|].
    revert Ec. unfold collide.
    rewrite (aligned_xPos _ g _ Hx).
    destruct (aligned g (Obj.set_z (Obj.z obj + m) obj)) eqn:Eal.
    + destruct (Obj.type (Obj.set_z (Obj.z obj + m) obj)) eqn:Et.
      * destruct (obstacleHit _ _) as [[] reason];
          [destruct (0 <? _)|]; intros [= _ <-]; try reflexivity;
          cbn in Hty; cbn in Et; congruence.
      * intros [= _ <-]. reflexivity.
      * intros [= _ <-]. reflexivity.
    + intros [= _ <-]. congruence.
Qed.

(** X14: the loop over the objects raises the coin counter by the
    number of coins that are kept and lined up inside the hit window
    once advanced, and by nothing else; each of them is left switched
    off, so that no coin that remains active is lined up inside the
    window. *)
Theorem coins_counted (m : Q) (a : App) :
  let a' := updateObjects m a in
  UI.coins (ui a')
  = (UI.coins (ui a)
     + Z.of_nat (List.length
                   (filter (collectable m (gameData a)) (objects (gameData a)))))%Z /\
  (UI.coins (ui a) <= UI.coins (ui a'))%Z /\
  forall o, In o (objects (gameData a')) -> Obj.type o = COIN ->
            aligned (gameData a') o = true -> Obj.active o = false.
Proof.
  cbn zeta.
  pose proof (forEach_coins m (objects (gameData a)) (a, [])) as Hc.
  pose proof (forEach_coin_off m (gameData a) (objects (gameData a)) (a, [])
                eq_refl (fun o (H : In o []) => match H with end)) as Hoff.
  destruct (pose_fields _ _ (pose_offPlay _ _ (offPlay_updateObjects m a)))
    as (_ & Hx & _).
  cbn zeta in Hx.
  unfold updateObjects in *.
  destruct (fold_left _ _ _) as [a' next]. cbn [fst snd] in *.
  change (ui (gd (set_objects next) a')) with (ui a').
  change (objects (gameData (gd (set_objects next) a'))) with next.
  split; [exact Hc|]. split; [lia|].
  intros o Hin Hty Hal. apply (Hoff o Hin Hty).
  rewrite <- Hal. apply aligned_xPos. symmetry. exact Hx.
Qed.

(** ** Objects that are never tested *)

(** X15: an active object that is at or before the near edge of the hit
    window and that the scroll carries to its far edge or beyond goes
    through the loop with no effect on the game, and is never inside
    the window again; in a reachable game every frame of 55 ms or more
    scrolls by at least the width of the window, 1.1. *)
Theorem hit_window_skipped (m : Q) (acc : App * list GameObj) (obj : GameObj) :
  Obj.active obj = true ->
  Obj.z obj <= HIT_Z_MIN ->
  HIT_Z_MAX <= Obj.z obj + m ->
  Obj.z obj + m <= 25 ->
  stepObject m acc obj
  = (fst acc, snd acc ++ [Obj.set_z (Obj.z obj + m) obj]) /\
  (forall g, aligned g obj = false) /\
  (forall g m', 0 <= m' ->
     aligned g (Obj.set_z (Obj.z obj + m + m') obj) = false) /\
  (forall a e, reachable a -> 0.055 <= e ->
     HIT_Z_MAX - HIT_Z_MIN <= frameMoveZ e a).
Proof.
  intros Hact Hlo Hhi Hcull.
  assert (Hlater : forall g m', 0 <= m' ->
            aligned g (Obj.set_z (Obj.z obj + m + m') obj) = false).
  { intros g m' Hm. unfold aligned. cbn [Obj.z Obj.set_z].
    assert (E : (Obj.z obj + m + m' <? HIT_Z_MAX) = false)
      by (apply Qltb_ge; lra).
    now rewrite E, andb_false_r. }
  split; [|split; [|split; [exact Hlater|]]].
  - destruct acc as [a next]. unfold stepObject. rewrite Hact. cbn [negb fst snd].
    change (Obj.z (Obj.set_z (Obj.z obj + m) obj)) with (Obj.z obj + m).
    apply Qltb_ge in Hcull. rewrite Hcull. unfold collide.
    assert (E : aligned (gameData a) (Obj.set_z (Obj.z obj + m) obj) = false).
    { unfold aligned. cbn [Obj.z Obj.set_z].
      assert (E : (Obj.z obj + m <? HIT_Z_MAX) = false) by (apply Qltb_ge; lra).
      now rewrite E, andb_false_r. }
    now rewrite E.
  - intro g. unfold aligned.
    assert (E : (HIT_Z_MIN <? Obj.z obj) = false) by (apply Qltb_ge; lra).
    now rewrite E.
  - intros a e Hr He. destruct (reachable_Inv a Hr) as (_ & _ & Hs & _).
    unfold frameMoveZ, frameSpeed, frameDelta, HIT_Z_MAX, HIT_Z_MIN,
      SPEED_INC, MAX_SPEED, RUN_SPEED_START in *.
    assert (Hd : 0.055 <= Qmin e 0.1) by (apply Q.min_glb; lra).
    assert (Hv : 20 <= Qmin (speed (gameData a) + 0.8 * Qmin e 0.1) 60)
      by (apply Q.min_glb; lra).
    nra.
Qed.

(** In the run with the wall ahead, nine frames of 0.1 s bring the wall
    to -41/25 = -1.64, and the tenth, which scrolls by 2.08, carries it
    past the player, who stands in its lane and plays on. *)
Lemma hit_window_skipped_witness :
  map (fun o => (Obj.lane o, Qred (Obj.z o)))
    (objects (gameData (frames 9 0.1 (remount (startGame (mount wallAhead))))))
  = [(1%Z, -41 # 25)] /\
  gameStateRef (frames 10 0.1 (remount (startGame (mount wallAhead)))) = PLAYING /\
  forall g, aligned g (Obj.mk 0 OBSTACLE (Some FULL) 1 (-1.64 + 2.08) true) = false.
Proof.
  split; [vm_compute; reflexivity|]. split; [vm_compute; reflexivity|].
  assert (H1 : Obj.z (Obj.mk 0 OBSTACLE (Some FULL) 1 (-1.64) true) <= HIT_Z_MIN)
    by (vm_compute; discriminate).
  assert (H2 : HIT_Z_MAX <= Obj.z (Obj.mk 0 OBSTACLE (Some FULL) 1 (-1.64) true) + 2.08)
    by (vm_compute; discriminate).
  assert (H3 : Obj.z (Obj.mk 0 OBSTACLE (Some FULL) 1 (-1.64) true) + 2.08 <= 25)
    by (vm_compute; discriminate).
  destruct (hit_window_skipped 2.08 (fresh, [])
              (Obj.mk 0 OBSTACLE (Some FULL) 1 (-1.64) true) eq_refl H1 H2 H3)
    as (_ & _ & H & _).
  intro g. specialize (H g 0 (Qle_refl 0)). cbn [Obj.z Obj.set_z] in H.
  unfold aligned in *. cbn [Obj.z Obj.lane Obj.set_z] in *.
  assert (E : (-1.64 + 2.08 <? HIT_Z_MAX) = false) by (vm_compute; reflexivity).
  now rewrite E, andb_false_r.
Defined.

(** ** The world after it is built *)

Lemma spawnSegment_appends zPos a :
  exists news,
    objects (gameData (spawnSegment zPos a)) = objects (gameData a) ++ news /\
    Forall (fun o => Obj.z o = zPos /\ Obj.active o = true /\ zPos < -10) news.
Proof.
  unfold spawnSegment. destruct (zPos <? -10) eqn:E; qprop.
  - set (a0 := gd (fun g => set_segments (segments g ++ [zPos]) g) a).
    destruct (spawnObstacles_spec zPos a0) as (obst & Ho & Hfo & _).
    destruct (spawnPickup_spec zPos (spawnObstacles zPos a0)) as (extra & He & Hp).
    exists (obst ++ extra). rewrite He, Ho. split; [now rewrite app_assoc|].
    apply Forall_app. split.
    + eapply Forall_impl; [|exact Hfo]. cbn. intros o (H1 & H2 & _). tauto.
    + destruct Hp as [-> | (p & -> & Hz & Hact & _)]; repeat constructor; tauto.
  - exists []. split; [now rewrite app_nil_r|constructor].
Qed.

Lemma initLoop_objects n : forall a,
  exists news,
    objects (gameData (initLoop n a)) = objects (gameData a) ++ news /\
    Forall (fun o => In (Obj.z o) (initPositions n (nextSegmentZ (gameData a)))
                     /\ Obj.z o < -10 /\ Obj.active o = true) news.
Proof.
  induction n as [|n IH]; intro a.
  - exists []. cbn. split; [now rewrite app_nil_r|constructor].
  - cbn [initLoop initPositions].
    destruct (-160 <? nextSegmentZ (gameData a));
      [|exists []; split; [now rewrite app_nil_r|constructor]].
    destruct (spawnSegment_appends (nextSegmentZ (gameData a)) a)
      as (news & Hn & Hf).
    match goal with |- context [initLoop n ?b] => destruct (IH b) as (more & Hm & Hg) end.
    rewrite Hm. cbn [gd set_gameData gameData set_nextSegmentZ objects nextSegmentZ] in *.
    rewrite nextSegmentZ_spawnSegment in Hg. rewrite Hn.
    exists (news ++ more). split; [now rewrite app_assoc|].
    apply Forall_app. split.
    + eapply Forall_impl; [|exact Hf]. cbn. intros o (H1 & H2 & H3).
      rewrite H1. split; [now left|]. now split.
    + eapply Forall_impl; [|exact Hg]. cbn. intros o (H1 & H2). split; [now right|exact H2].
Qed.

(** X16: whatever the draws, the world the effect builds has twelve
    segments, from 80 to -140, and all its objects are active and at
    -20 or farther: a run never starts with an object within 20 of the
    player. *)
Theorem world_starts_clear (a : App) :
  segments (gameData (initWorld a))
  = [80; 60; 40; 20; 0; -20; -40; -60; -80; -100; -120; -140] /\
  Forall (fun o => Obj.z o <= -20 /\ Obj.active o = true)
    (objects (gameData (initWorld a))) /\
  Forall (fun o => ~ aligned (gameData (initWorld a)) o = true)
    (objects (gameData (initWorld a))).
Proof.
  split; [apply segments_initWorld|].
  assert (H : Forall (fun o => Obj.z o <= -20 /\ Obj.active o = true)
                (objects (gameData (initWorld a)))).
  { unfold initWorld.
    match goal with |- context [initLoop ?n ?b] =>
      destruct (initLoop_objects n b) as (news & Hn & Hf) end.
    rewrite Hn. cbn [gd set_gameData gameData set_objects set_segments
                     set_nextSegmentZ objects nextSegmentZ app] in *.
    eapply Forall_impl; [|exact Hf]. cbn beta. intros o (Hin & Hz & Hact).
    split; [|exact Hact].
    assert (E : initPositions (rounds 80) 80
                = [80; 60; 40; 20; 0; -20; -40; -60; -80; -100; -120; -140])
      by (vm_compute; reflexivity).
    rewrite E in Hin. cbn [In] in Hin.
    repeat (destruct Hin as [Hin | Hin]; [rewrite <- Hin in *; lra|]).
    destruct Hin. }
  split; [exact H|].
  eapply Forall_impl; [|exact H]. cbn beta. intros o [Hz _] Hal.
  unfold aligned in Hal.
  assert (E : (HIT_Z_MIN <? Obj.z o) = false)
    by (apply Qltb_ge; unfold HIT_Z_MIN; lra).
  rewrite E in Hal. discriminate.
Qed.

(** ** The sound controller *)

Lemma muted_playTone f1 f2 d ty v t now s :
  muted (SoundController.playTone f1 f2 d ty v t now s) = muted s.
Proof.
  unfold SoundController.playTone.
  repeat match goal with
    | |- context [if ?c then _ else _] => destruct c
    end; reflexivity.
Qed.

Lemma muted_playNoiseBurst t d s :
  muted (SoundController.playNoiseBurst t d s) = muted s.
Proof.
  unfold SoundController.playNoiseBurst.
  destruct (_ || _); reflexivity.
Qed.


Lemma muted_playPatternStep i t now s :
  muted (SoundController.playPatternStep i t now s) = muted s.
Proof.
  unfold SoundController.playPatternStep.
  destruct (negb _); [reflexivity|].
  destruct (Z.rem i 2 =? 0)%Z; rewrite ?muted_playNoiseBurst;
    destruct (0 <? _); rewrite ?muted_playTone; reflexivity.
Qed.

Lemma muted_fields s t :
  muted s = muted t ->
  SoundController.ctx s = SoundController.ctx t /\
  SoundController.noiseBuffer s = SoundController.noiseBuffer t /\
  SoundController.isPlayingMusic s = SoundController.isPlayingMusic t /\
  SoundController.bgmTimer s = SoundController.bgmTimer t /\
  SoundController.nextNoteTime s = SoundController.nextNoteTime t /\
  SoundController.noteIndex s = SoundController.noteIndex t /\
  SoundController.intervals s = SoundController.intervals t.
Proof.
  intro H.
  repeat split;
    [exact (f_equal SoundController.ctx H)
    |exact (f_equal SoundController.noiseBuffer H)
    |exact (f_equal SoundController.isPlayingMusic H)
    |exact (f_equal SoundController.bgmTimer H)
    |exact (f_equal SoundController.nextNoteTime H)
    |exact (f_equal SoundController.noteIndex H)
    |exact (f_equal SoundController.intervals H)].
Qed.

Lemma lookahead_zero now next :
  (now + 0.1 - next) * 5 <= inject_Z (Z.of_nat 0) -> now + 0.1 <= next.
Proof. change (inject_Z (Z.of_nat 0)) with 0. intro. lra. Qed.

Lemma lookahead_succ now next n :
  (now + 0.1 - next) * 5 <= inject_Z (Z.of_nat (S n)) ->
  (now + 0.1 - (next + 0.2)) * 5 <= inject_Z (Z.of_nat n).
Proof.
  rewrite Nat2Z.inj_succ. unfold Z.succ. rewrite inject_Z_plus.
  change (inject_Z 1) with 1. intro. lra.
Qed.

Lemma lookahead_enough now next :
  (now + 0.1 - next) * 5
  <= inject_Z (Z.of_nat (SoundController.lookahead now next)).
Proof.
  unfold SoundController.lookahead.
  apply Qle_trans with (inject_Z (Qceiling ((now + 0.1 - next) * 5)));
    [apply Qle_ceiling|].
  rewrite <- Zle_Qle. lia.
Qed.

Lemma output_playTone f1 f2 d ty v t now s :
  SoundController.ctx s = true ->
  SoundController.output (SoundController.playTone f1 f2 d ty v t now s)
  = SoundController.output s
    ++ [SoundController.Oscillator f1 f2 d ty v
          (if Qeq_bool t 0 then now else t)].
Proof.
  intro Hc. unfold SoundController.playTone. rewrite Hc. cbn.
  repeat match goal with
    | |- context [if ?c then _ else _] => destruct c
    end; reflexivity.
Qed.

Lemma output_playPatternStep i t now s :
  SoundController.ctx s = true ->
  SoundController.output (SoundController.playPatternStep i t now s)
  = SoundController.output s
    ++ stepNodes (SoundController.noiseBuffer s) i t now.
Proof.
  intro Hc. unfold SoundController.playPatternStep, stepNodes.
  rewrite Hc. cbn [negb].
  set (s1 := SoundController.playTone _ 0 0.15 SoundController.triangle 0.2
               t now s).
  destruct (muted_fields _ _ (muted_playTone
              (SoundController.bassFreq (Z.rem i 16)) 0 0.15
              SoundController.triangle 0.2 t now s))
    as (C1 & B1 & _).
  fold s1 in C1, B1. rewrite Hc in C1.
  assert (O1 : SoundController.output s1
               = SoundController.output s
                 ++ [SoundController.Oscillator
                       (SoundController.bassFreq (Z.rem i 16)) 0 0.15
                       SoundController.triangle 0.2
                       (if Qeq_bool t 0 then now else t)])
    by (now apply output_playTone).
  set (s2 := if 0 <? SoundController.melodyFreq (Z.rem i 16)
             then SoundController.playTone _ 0 0.15 SoundController.sawtooth
                    0.08 t now s1
             else s1).
  assert (H2 : SoundController.ctx s2 = true /\
               SoundController.noiseBuffer s2 = SoundController.noiseBuffer s /\
               SoundController.output s2
               = SoundController.output s1
                 ++ (if 0 <? SoundController.melodyFreq (Z.rem i 16)
                     then [SoundController.Oscillator
                             (SoundController.melodyFreq (Z.rem i 16)) 0 0.15
                             SoundController.sawtooth 0.08
                             (if Qeq_bool t 0 then now else t)]
                     else [])).
  { subst s2. destruct (0 <? _).
    - destruct (muted_fields _ _ (muted_playTone
                  (SoundController.melodyFreq (Z.rem i 16)) 0 0.15
                  SoundController.sawtooth 0.08 t now s1)) as (C2 & B2 & _).
      rewrite C2, B2. split; [exact C1|]. split; [exact B1|].
      now apply output_playTone.
    - split; [exact C1|]. split; [exact B1|]. now rewrite app_nil_r. }
  destruct H2 as (C2 & B2 & O2).
  assert (O3 : SoundController.output
                 (if (Z.rem i 2 =? 0)%Z
                  then SoundController.playNoiseBurst t 0.05 s2 else s2)
               = SoundController.output s2
                 ++ (if (Z.rem i 2 =? 0)%Z && SoundController.noiseBuffer s
                     then [SoundController.NoiseBurst t 0.05] else [])).
  { destruct (Z.rem i 2 =? 0)%Z; cbn [andb]; [|now rewrite app_nil_r].
    unfold SoundController.playNoiseBurst. rewrite C2, B2. cbn [negb orb].
    destruct (SoundController.noiseBuffer s); cbn; [reflexivity|].
    now rewrite app_nil_r. }
  rewrite O3, O2, O1, <- !app_assoc. reflexivity.
Qed.

Lemma schedulerLoop_done n now s :
  now + 0.1 <= SoundController.nextNoteTime s ->
  SoundController.schedulerLoop n now s = s.
Proof.
  intro H. destruct n; [reflexivity|]. cbn.
  apply Qltb_ge in H. now rewrite H.
Qed.

(** The loop stops because its test fails; it plays [k] steps, 0.2
    apart, and goes no farther than 0.2 past the horizon. *)
Lemma schedulerLoop_spec n now : forall s,
  SoundController.ctx s = true ->
  (now + 0.1 - SoundController.nextNoteTime s) * 5 <= inject_Z (Z.of_nat n) ->
  let s' := SoundController.schedulerLoop n now s in
  now + 0.1 <= SoundController.nextNoteTime s' /\
  exists k : nat,
    SoundController.nextNoteTime s'
    == SoundController.nextNoteTime s + 0.2 * inject_Z (Z.of_nat k) /\
    SoundController.noteIndex s'
    = (SoundController.noteIndex s + Z.of_nat k)%Z /\
    (k = O \/ SoundController.nextNoteTime s' < now + 0.3) /\
    (now + 0.1 <= SoundController.nextNoteTime s -> k = O) /\
    SoundController.ctx s' = SoundController.ctx s /\
    SoundController.output s'
    = SoundController.output s
      ++ played k (SoundController.noiseBuffer s) (SoundController.noteIndex s)
           (SoundController.nextNoteTime s) now.
Proof.
  induction n as [|n IH]; intros s Hctx Hn; cbn zeta.
  - apply lookahead_zero in Hn. cbn [SoundController.schedulerLoop].
    split; [exact Hn|]. exists O. change (inject_Z (Z.of_nat 0)) with 0.
    split; [ring|]. split; [cbn; lia|]. split; [now left|].
    split; [reflexivity|]. split; [reflexivity|].
    cbn [played]. now rewrite app_nil_r.
  - cbn [SoundController.schedulerLoop].
    destruct (SoundController.nextNoteTime s <? now + 0.1) eqn:E; qprop.
    + pose proof (output_playPatternStep (SoundController.noteIndex s)
                    (SoundController.nextNoteTime s) now s Hctx) as Ho.
      set (s1 := SoundController.playPatternStep _ _ _ s) in *.
      destruct (muted_fields _ _ (muted_playPatternStep
                  (SoundController.noteIndex s)
                  (SoundController.nextNoteTime s) now s))
        as (Hc & Hnb & _ & _ & Ht & Hi & _).
      fold s1 in Hc, Hnb, Ht, Hi.
      match goal with |- context [SoundController.schedulerLoop n now ?x] =>
        set (b := x) end.
      assert (Hb1 : SoundController.nextNoteTime b
                    = SoundController.nextNoteTime s + 0.2)
        by (subst b; cbn; now rewrite Ht).
      assert (Hb2 : SoundController.noteIndex b
                    = (SoundController.noteIndex s + 1)%Z)
        by (subst b; cbn; now rewrite Hi).
      assert (Hb3 : SoundController.ctx b = SoundController.ctx s)
        by (subst b; cbn; now rewrite Hc).
      assert (Hb4 : SoundController.noiseBuffer b
                    = SoundController.noiseBuffer s)
        by (subst b; cbn; now rewrite Hnb).
      assert (Hb5 : SoundController.output b = SoundController.output s1)
        by (subst b; reflexivity).
      destruct (IH b) as (H1 & k & H2 & H3 & H4 & H5 & H6 & H7).
      { now rewrite Hb3. }
      { rewrite Hb1. now apply lookahead_succ. }
      rewrite Hb1 in H2, H5. rewrite Hb2 in H3. rewrite Hb3 in H6.
      rewrite Hb1, Hb2, Hb4, Hb5, Ho in H7.
      split; [exact H1|]. exists (S k).
      rewrite Nat2Z.inj_succ. unfold Z.succ. rewrite inject_Z_plus.
      change (inject_Z 1) with 1.
      split; [rewrite H2; ring|]. split; [rewrite H3; lia|].
      split; [right|split; [intro; lra|split; [exact H6|]]].
      * destruct H4 as [-> | H4]; [|exact H4].
        rewrite H2. change (inject_Z (Z.of_nat 0)) with 0. lra.
      * rewrite H7. cbn [played]. now rewrite <- app_assoc.
    + split; [exact E|]. exists O. change (inject_Z (Z.of_nat 0)) with 0.
      split; [ring|]. split; [cbn; lia|]. split; [now left|].
      split; [reflexivity|]. split; [reflexivity|].
      cbn [played]. now rewrite app_nil_r.
Qed.

(** X17: the scheduler of a controller with an audio context leaves
    [nextNoteTime] at or beyond the horizon [now + 0.1], having played
    [k] pattern steps 0.2 apart and advanced the index by [k]: what it
    adds to the output is, step after step from [noteIndex] at
    [nextNoteTime], the bass note, the melody note of the beat and the
    noise burst of the even steps.  It does nothing when the next note
    is already at or beyond the horizon, so a second call at the same
    time changes nothing, and it never plans a note 0.2 or more beyond
    the horizon. *)
Theorem scheduler_lookahead (now : Q) (s : SoundController.State) :
  SoundController.ctx s = true ->
  let s' := SoundController.scheduler now s in
  now + 0.1 <= SoundController.nextNoteTime s' /\
  (now + 0.1 <= SoundController.nextNoteTime s -> s' = s) /\
  SoundController.scheduler now s' = s' /\
  exists k : nat,
    SoundController.nextNoteTime s'
    == SoundController.nextNoteTime s + 0.2 * inject_Z (Z.of_nat k) /\
    SoundController.noteIndex s'
    = (SoundController.noteIndex s + Z.of_nat k)%Z /\
    (k = O \/ SoundController.nextNoteTime s' < now + 0.3) /\
    SoundController.output s'
    = SoundController.output s
      ++ played k (SoundController.noiseBuffer s) (SoundController.noteIndex s)
           (SoundController.nextNoteTime s) now.
Proof.
  intro Hc. cbn zeta.
  assert (Es : SoundController.scheduler now s
               = SoundController.schedulerLoop
                   (SoundController.lookahead now (SoundController.nextNoteTime s))
                   now s)
    by (unfold SoundController.scheduler; now rewrite Hc).
  rewrite Es.
  destruct (schedulerLoop_spec _ now s Hc (lookahead_enough now _))
    as (H1 & k & H2 & H3 & H4 & H5 & H6 & H7).
  cbn zeta in *.
  split; [exact H1|]. split; [intro H; now apply schedulerLoop_done|].
  split.
  - unfold SoundController.scheduler. rewrite H6, Hc. cbn [negb].
    now apply schedulerLoop_done.
  - exists k. split; [exact H2|]. split; [exact H3|]. split; [exact H4|exact H7].
Qed.

(** Music started at time 0 and a scheduler call at 0.5: the steps 0,
    1 and 2 are played, at 0.1, 0.3 and 0.5. *)
Lemma scheduler_lookahead_witness :
  let s := SoundController.startBGM 0 (SoundController.new 1) in
  SoundController.noteIndex (SoundController.scheduler 0.5 s) = 3%Z /\
  0.5 + 0.1 <= SoundController.nextNoteTime (SoundController.scheduler 0.5 s) /\
  exists k : nat,
    SoundController.output (SoundController.scheduler 0.5 s)
    = SoundController.output s
      ++ played k (SoundController.noiseBuffer s) (SoundController.noteIndex s)
           (SoundController.nextNoteTime s) 0.5.
Proof.
  assert (Hc : SoundController.ctx
                 (SoundController.startBGM 0 (SoundController.new 1)) = true)
    by reflexivity.
  destruct (scheduler_lookahead 0.5 _ Hc) as (H & _ & _ & k & _ & _ & _ & Ho).
  cbn zeta.
  split; [vm_compute; reflexivity|]. split; [exact H|]. exists k. exact Ho.
Defined.

Lemma bassFreq_range beat :
  130.81 <= SoundController.bassFreq beat /\
  SoundController.bassFreq beat <= 246.94.
Proof.
  unfold SoundController.bassFreq.
  repeat match goal with
    | |- context [if ?c then _ else _] => destruct c
    end; split; vm_compute; discriminate.
Qed.

Lemma output_grows_playTone f1 f2 d ty v t now s :
  exists r,
    SoundController.output (SoundController.playTone f1 f2 d ty v t now s)
    = SoundController.output s ++ r.
Proof.
  unfold SoundController.playTone.
  destruct (negb _); [exists []; now rewrite app_nil_r|]. cbn.
  repeat match goal with
    | |- context [if ?c then _ else _] => destruct c
    end; eexists; reflexivity.
Qed.

Lemma output_grows_playNoiseBurst t d s :
  exists r,
    SoundController.output (SoundController.playNoiseBurst t d s)
    = SoundController.output s ++ r.
Proof.
  unfold SoundController.playNoiseBurst.
  destruct (_ || _); [exists []; now rewrite app_nil_r|]. eexists. reflexivity.
Qed.

(** X18: the pattern has period 16: for an index that is not negative,
    step [index + 16] does to the controller what step [index] does.
    Every step of a controller with an audio context starts, before
    anything else, a triangle bass note of 0.15 s at the given time,
    between 130.81 Hz and 246.94 Hz. *)
Theorem pattern_repeats (index : Z) (time now : Q) (s : SoundController.State) :
  (0 <= index)%Z ->
  SoundController.playPatternStep (index + 16) time now s
  = SoundController.playPatternStep index time now s /\
  (SoundController.ctx s = true ->
   exists rest,
     SoundController.output (SoundController.playPatternStep index time now s)
     = SoundController.output s
       ++ SoundController.Oscillator
            (SoundController.bassFreq (Z.rem index 16)) 0 0.15
            SoundController.triangle 0.2
            (if Qeq_bool time 0 then now else time)
          :: rest) /\
  130.81 <= SoundController.bassFreq (Z.rem index 16) /\
  SoundController.bassFreq (Z.rem index 16) <= 246.94.
Proof.
  intro Hi. split; [|split; [|apply bassFreq_range]].
  - unfold SoundController.playPatternStep.
    assert (E16 : Z.rem (index + 16) 16 = Z.rem index 16).
    { change (index + 16)%Z with (index + 1 * 16)%Z. apply Z.rem_add; nia. }
    assert (E2 : Z.rem (index + 16) 2 = Z.rem index 2).
    { change (index + 16)%Z with (index + 8 * 2)%Z. apply Z.rem_add; nia. }
    now rewrite E16, E2.
  - intro Hc. unfold SoundController.playPatternStep. rewrite Hc. cbn [negb].
    set (s1 := SoundController.playTone _ 0 0.15 SoundController.triangle 0.2
                 time now s).
    assert (H1 : SoundController.output s1
                 = SoundController.output s
                   ++ [SoundController.Oscillator
                         (SoundController.bassFreq (Z.rem index 16)) 0 0.15
                         SoundController.triangle 0.2
                         (if Qeq_bool time 0 then now else time)])
      by (now apply output_playTone).
    set (s2 := if 0 <? SoundController.melodyFreq (Z.rem index 16)
               then SoundController.playTone _ 0 0.15 SoundController.sawtooth
                      0.08 time now s1
               else s1).
    assert (H2 : exists r, SoundController.output s2
                           = SoundController.output s1 ++ r).
    { subst s2. destruct (0 <? _); [apply output_grows_playTone|].
      exists []. now rewrite app_nil_r. }
    destruct H2 as [r2 H2].
    assert (H3 : exists r,
               SoundController.output
                 (if (Z.rem index 2 =? 0)%Z
                  then SoundController.playNoiseBurst time 0.05 s2 else s2)
               = SoundController.output s2 ++ r).
    { destruct (Z.rem index 2 =? 0)%Z; [apply output_grows_playNoiseBurst|].
      exists []. now rewrite app_nil_r. }
    destruct H3 as [r3 H3].
    exists (r2 ++ r3). rewrite H3, H2, H1, <- !app_assoc. reflexivity.
Qed.

(** Step 16 sounds like step 0. *)
Lemma pattern_repeats_witness :
  SoundController.playPatternStep 16 0.1 0
    (SoundController.startBGM 0 (SoundController.new 1))
  = SoundController.playPatternStep 0 0.1 0
      (SoundController.startBGM 0 (SoundController.new 1)).
Proof.
  assert (H : (0 <= 0)%Z) by lia.
  exact (proj1 (pattern_repeats 0 0.1 0
                  (SoundController.startBGM 0 (SoundController.new 1)) H)).
Defined.








(** ** The scene *)







Lemma length_tl_eq {A} (l : list A) : List.length (tl l) = pred (List.length l).
Proof. now destruct l. Qed.

Lemma bgmNodes_playTone_playing f1 f2 d ty v t now s :
  SoundController.ctx s = true ->
  SoundController.isPlayingMusic s = true ->
  List.length (SoundController.bgmNodes
                 (SoundController.playTone f1 f2 d ty v t now s))
  = (if (List.length (SoundController.bgmNodes s) <? 100)%nat
     then S (List.length (SoundController.bgmNodes s))
     else List.length (SoundController.bgmNodes s)).
Proof.
  intros Hc Hp. unfold SoundController.playTone. rewrite Hc.
  cbn -[Nat.ltb]. rewrite Hp. rewrite length_app. cbn [List.length].
  destruct (Nat.ltb_spec 100 (List.length (SoundController.bgmNodes s) + 1));
    destruct (Nat.ltb_spec (List.length (SoundController.bgmNodes s)) 100);
    cbn -[Nat.ltb]; rewrite ?length_tl_eq, ?length_app; cbn [List.length]; lia.
Qed.

Lemma playing_playTone f1 f2 d ty v t now s :
  let s' := SoundController.playTone f1 f2 d ty v t now s in
  SoundController.ctx s' = SoundController.ctx s /\
  SoundController.noiseBuffer s' = SoundController.noiseBuffer s /\
  SoundController.isPlayingMusic s' = SoundController.isPlayingMusic s.
Proof.
  destruct (muted_fields _ _ (muted_playTone f1 f2 d ty v t now s))
    as (M1 & M2 & M3 & _).
  cbn zeta. now rewrite M1, M2, M3.
Qed.

Lemma tone_kept f1 f2 d ty v t now s :
  SoundController.ctx s = true ->
  SoundController.isPlayingMusic s = true ->
  let L := List.length (SoundController.bgmNodes s) in
  let L' := List.length (SoundController.bgmNodes
                           (SoundController.playTone f1 f2 d ty v t now s)) in
  (L <= L')%nat /\ (L' <= Nat.max 100 L)%nat /\ ((100 <= L)%nat -> L' = L).
Proof.
  intros Hc Hp. cbn zeta.
  rewrite (bgmNodes_playTone_playing _ _ _ _ _ _ _ _ Hc Hp).
  destruct (Nat.ltb_spec (List.length (SoundController.bgmNodes s)) 100);
    repeat split; lia.
Qed.

(** X22: what a pattern step keeps in [bgmNodes] while the music plays.
    A tone adds its oscillator when the list holds fewer than 100 nodes
    and leaves the length as it is otherwise; the noise burst of a step
    with an even index adds one more node whatever the length.  So a
    step never shortens the list, and once the list holds 100 nodes
    each even step makes it longer by one. *)
Theorem kept_nodes_grow (index : Z) (time now : Q) (s : SoundController.State) :
  SoundController.ctx s = true ->
  SoundController.noiseBuffer s = true ->
  SoundController.isPlayingMusic s = true ->
  let len x := List.length (SoundController.bgmNodes x) in
  let s' := SoundController.playPatternStep index time now s in
  (len s <= len s')%nat /\
  (len (SoundController.playJump now s) <= Nat.max 100 (len s))%nat /\
  ((100 <= len s)%nat ->
   len s' = (len s + (if (Z.rem index 2 =? 0)%Z then 1 else 0))%nat).
Proof.
  intros Hc Hb Hp len s'. subst len s'. cbv beta.
  split; [|split; [apply tone_kept; assumption|]].
  all: unfold SoundController.playPatternStep; rewrite Hc; cbn [negb].
  all: set (s1 := SoundController.playTone _ 0 0.15 SoundController.triangle
                    0.2 time now s).
  all: destruct (playing_playTone (SoundController.bassFreq (Z.rem index 16))
                   0 0.15 SoundController.triangle 0.2 time now s)
         as (C1 & B1 & P1); cbn zeta in C1, B1, P1; fold s1 in C1, B1, P1;
       rewrite Hc in C1; rewrite Hb in B1; rewrite Hp in P1.
  all: destruct (tone_kept (SoundController.bassFreq (Z.rem index 16)) 0 0.15
                   SoundController.triangle 0.2 time now s Hc Hp)
         as (L1 & _ & L1'); cbn zeta in L1, L1'; fold s1 in L1, L1'.
  all: set (s2 := if 0 <? SoundController.melodyFreq (Z.rem index 16)
                  then SoundController.playTone _ 0 0.15
                         SoundController.sawtooth 0.08 time now s1
                  else s1).
  all: assert (H2 : SoundController.ctx s2 = true /\
                    SoundController.noiseBuffer s2 = true /\
                    (List.length (SoundController.bgmNodes s1)
                     <= List.length (SoundController.bgmNodes s2))%nat /\
                    ((100 <= List.length (SoundController.bgmNodes s1))%nat ->
                     List.length (SoundController.bgmNodes s2)
                     = List.length (SoundController.bgmNodes s1)))
         by (subst s2; destruct (0 <? _);
             [destruct (playing_playTone
                          (SoundController.melodyFreq (Z.rem index 16)) 0 0.15
                          SoundController.sawtooth 0.08 time now s1)
                as (C2 & B2 & _); cbn zeta in C2, B2; rewrite C2, B2;
              destruct (tone_kept (SoundController.melodyFreq (Z.rem index 16))
                          0 0.15 SoundController.sawtooth 0.08 time now s1
                          C1 P1) as (K1 & _ & K2);
              cbn zeta in K1, K2; repeat split; assumption
             |repeat split; try assumption; lia]).
  all: destruct H2 as (C2 & B2 & L2 & L2').
  all: assert (L3 : List.length (SoundController.bgmNodes
                                   (SoundController.playNoiseBurst time 0.05 s2))
                    = S (List.length (SoundController.bgmNodes s2)))
         by (unfold SoundController.playNoiseBurst; rewrite C2, B2; cbn;
             rewrite length_app; cbn; lia).
  - destruct (Z.rem index 2 =? 0)%Z; [rewrite L3|]; lia.
  - intro H100. destruct (Z.rem index 2 =? 0)%Z; [rewrite L3|];
      rewrite L2' by lia; rewrite L1' by lia; lia.
Qed.

Lemma kept_nodes_grow_witness :
  List.length (SoundController.bgmNodes
                 (SoundController.playPatternStep 0 0.1 0 fullController))
  = 101%nat.
Proof.
  assert (Hc : SoundController.ctx fullController = true) by reflexivity.
  assert (Hb : SoundController.noiseBuffer fullController = true) by reflexivity.
  assert (Hp : SoundController.isPlayingMusic fullController = true)
    by reflexivity.
  assert (H100 : (100 <= List.length (SoundController.bgmNodes fullController))%nat)
    by (vm_compute; lia).
  exact (proj2 (proj2 (kept_nodes_grow 0 0.1 0 fullController Hc Hb Hp)) H100).
Defined.
